(** * A shallow embedding of the SQL engine (lexer, parser, storage, executor,
    query engine) and the properties of its specification.

    Conventions of the embedding:
    - [std::string] is [string]; [std::vector] is [list]; [size_t] is [nat];
      [int64_t] and [int] are [Z] with their range checks written out where
      the source converts text to numbers;
    - [std::unordered_map<std::string, V>] is stdpp's [gmap string V];
    - a C++ exception is the [Throw] outcome of an error monad, reading a
      [std::vector] out of range (undefined behaviour) is the [Undefined]
      outcome; loops and recursion that C++ leaves unbounded take a fuel
      argument, and the fuel the entry points supply is proved sufficient. *)

From Stdlib Require Import ZArith String Ascii List Bool Lia.
From stdpp Require Import base option list strings gmap sorting.

Local Open Scope string_scope.
Local Open Scope list_scope.
Local Open Scope nat_scope.

(** ** include/lexer.h : tokens *)

Inductive TokenType : Set :=
  (* Literals *)
  | INTEGER_LITERAL | REAL_LITERAL | STRING_LITERAL | BOOLEAN_LITERAL
  | NULL_LITERAL
  (* Identifiers *)
  | IDENTIFIER
  (* Keywords *)
  | SELECT | FROM | WHERE | INSERT | INTO | VALUES | CREATE | TABLE | DROP
  | UPDATE | SET | DELETE | AND | OR | NOT | TRUE | FALSE | NULL_KW | AS
  | ORDER | BY | ASC | DESC | LIMIT
  (* Data types *)
  | INTEGER_TYPE | REAL_TYPE | TEXT_TYPE | BOOLEAN_TYPE
  (* Operators *)
  | EQUAL | NOT_EQUAL | LESS_THAN | LESS_EQUAL | GREATER_THAN | GREATER_EQUAL
  | PLUS | MINUS | MULTIPLY | DIVIDE
  (* Punctuation *)
  | LEFT_PAREN | RIGHT_PAREN | COMMA | SEMICOLON | DOT
  (* Special *)
  | EOF_TOKEN | INVALID.

(** The enumerator values of [TokenType], used to compare two of them. *)
Definition TokenType_code (t : TokenType) : nat :=
  match t with
  | INTEGER_LITERAL => 0 | REAL_LITERAL => 1 | STRING_LITERAL => 2
  | BOOLEAN_LITERAL => 3 | NULL_LITERAL => 4 | IDENTIFIER => 5
  | SELECT => 6 | FROM => 7 | WHERE => 8 | INSERT => 9 | INTO => 10
  | VALUES => 11 | CREATE => 12 | TABLE => 13 | DROP => 14 | UPDATE => 15
  | SET => 16 | DELETE => 17 | AND => 18 | OR => 19 | NOT => 20 | TRUE => 21
  | FALSE => 22 | NULL_KW => 23 | AS => 24 | ORDER => 25 | BY => 26
  | ASC => 27 | DESC => 28 | LIMIT => 29 | INTEGER_TYPE => 30
  | REAL_TYPE => 31 | TEXT_TYPE => 32 | BOOLEAN_TYPE => 33 | EQUAL => 34
  | NOT_EQUAL => 35 | LESS_THAN => 36 | LESS_EQUAL => 37
  | GREATER_THAN => 38 | GREATER_EQUAL => 39 | PLUS => 40 | MINUS => 41
  | MULTIPLY => 42 | DIVIDE => 43 | LEFT_PAREN => 44 | RIGHT_PAREN => 45
  | COMMA => 46 | SEMICOLON => 47 | DOT => 48 | EOF_TOKEN => 49
  | INVALID => 50
  end.

Definition TokenType_eqb (a b : TokenType) : bool :=
  Nat.eqb (TokenType_code a) (TokenType_code b).

Record Token : Set := mkToken {
  type : TokenType;
  value : string;
  position : nat;
  line : nat;
  column : nat
}.

(** ** lexer.cpp *)

Module Lexer.

(** The lexer's cursor.  [input_] holds the part of the source's [input_]
    that starts at [position_] (the characters still to be read), so that
    [input_[position_]] is the head of the string and
    [position_ < input_.length()] says that it is not empty. *)
Record t : Set := mkLexer {
  input_ : string;
  position_ : nat;
  line_ : nat;
  column_ : nat
}.

Definition new (input : string) : t := mkLexer input 0 1 1.

Definition char_in_range (lo hi c : ascii) : bool :=
  (nat_of_ascii lo <=? nat_of_ascii c) && (nat_of_ascii c <=? nat_of_ascii hi).

Definition isDigit (c : ascii) : bool := char_in_range "0" "9" c.

Definition isAlpha (c : ascii) : bool :=
  char_in_range "a" "z" c || char_in_range "A" "Z" c || Ascii.eqb c "_".

Definition isAlphaNumeric (c : ascii) : bool := isAlpha c || isDigit c.

(** [std::isspace] in the "C" locale: space, \t, \n, \v, \f, \r. *)
Definition isspace (c : ascii) : bool :=
  Ascii.eqb c " " || char_in_range "009" "013" c.

(** [::toupper] in the "C" locale. *)
Definition toupper (c : ascii) : ascii :=
  if char_in_range "a" "z" c then ascii_of_nat (nat_of_ascii c - 32) else c.

Fixpoint string_map (f : ascii -> ascii) (s : string) : string :=
  match s with
  | EmptyString => EmptyString
  | String c r => String (f c) (string_map f r)
  end.

Definition keywords_ : gmap string TokenType :=
  list_to_map
    [ ("SELECT", SELECT); ("FROM", FROM); ("WHERE", WHERE);
      ("INSERT", INSERT); ("INTO", INTO); ("VALUES", VALUES);
      ("CREATE", CREATE); ("TABLE", TABLE); ("DROP", DROP);
      ("UPDATE", UPDATE); ("SET", SET); ("DELETE", DELETE);
      ("AND", AND); ("OR", OR); ("NOT", NOT); ("TRUE", TRUE);
      ("FALSE", FALSE); ("NULL", NULL_KW); ("AS", AS); ("ORDER", ORDER);
      ("BY", BY); ("ASC", ASC); ("DESC", DESC); ("LIMIT", LIMIT);
      ("INTEGER", INTEGER_TYPE); ("REAL", REAL_TYPE); ("TEXT", TEXT_TYPE);
      ("BOOLEAN", BOOLEAN_TYPE) ].

Definition hasNext (l : t) : bool :=
  match input_ l with EmptyString => false | String _ _ => true end.

Definition peek (l : t) : ascii :=
  match input_ l with EmptyString => "000"%char | String c _ => c end.

Definition advance (l : t) : ascii * t :=
  match input_ l with
  | EmptyString => ("000"%char, l)
  | String c r => (c, mkLexer r (S (position_ l)) (line_ l) (S (column_ l)))
  end.

Definition makeToken (l : t) (t : TokenType) (v : string) : Token :=
  mkToken t v (position_ l) (line_ l) (column_ l).

(** [while (hasNext() && std::isspace(peek()))]: a newline starts a new
    line at column 1, any other blank moves one column on. *)
Fixpoint skipWhitespace_from (s : string) (pos ln col : nat) : t :=
  match s with
  | String c r =>
      if isspace c then
        if Ascii.eqb c "010" then skipWhitespace_from r (S pos) (S ln) 1
        else skipWhitespace_from r (S pos) ln (S col)
      else mkLexer s pos ln col
  | EmptyString => mkLexer s pos ln col
  end.

Definition skipWhitespace (l : t) : t :=
  skipWhitespace_from (input_ l) (position_ l) (line_ l) (column_ l).

(** [while (hasNext() && peek() != '\n') advance();] *)
Fixpoint skipComment_from (s : string) (pos ln col : nat) : t :=
  match s with
  | String c r =>
      if Ascii.eqb c "010" then mkLexer s pos ln col
      else skipComment_from r (S pos) ln (S col)
  | EmptyString => mkLexer s pos ln col
  end.

Definition skipComment (l : t) : t :=
  skipComment_from (input_ l) (position_ l) (line_ l) (column_ l).

Definition append_char (s : string) (c : ascii) : string :=
  (s ++ String c EmptyString)%string.

Definition unescape (escaped : ascii) : ascii :=
  if Ascii.eqb escaped "n" then "010"%char
  else if Ascii.eqb escaped "t" then "009"%char
  else if Ascii.eqb escaped "r" then "013"%char
  else escaped.

(** The loop of [readString]: up to the closing quote or the end of the
    input; a backslash that is not the last character takes the next
    character with it. *)
Fixpoint readString_from (quote : ascii) (s : string) (v : string)
    (pos ln col : nat) : string * t :=
  match s with
  | EmptyString => (v, mkLexer s pos ln col)
  | String c r =>
      if Ascii.eqb c quote then (v, mkLexer s pos ln col)
      else if Ascii.eqb c "092" then
        match r with
        | String escaped r' =>
            readString_from quote r' (append_char v (unescape escaped))
              (S (S pos)) ln (S (S col))
        | EmptyString =>
            readString_from quote r (append_char v c) (S pos) ln (S col)
        end
      else readString_from quote r (append_char v c) (S pos) ln (S col)
  end.

Definition readString (l : t) : Token * t :=
  let '(quote, l1) := advance l in
  let '(v, l2) :=
    readString_from quote (input_ l1) EmptyString
      (position_ l1) (line_ l1) (column_ l1) in
  let l3 :=
    if hasNext l2 && Ascii.eqb (peek l2) quote then snd (advance l2) else l2 in
  (makeToken l3 STRING_LITERAL v, l3).

Fixpoint readNumber_from (s : string) (v : string) (hasDecimal : bool)
    (pos ln col : nat) : string * bool * t :=
  match s with
  | String c r =>
      if isDigit c || (negb hasDecimal && Ascii.eqb c ".") then
        readNumber_from r (append_char v c)
          (if Ascii.eqb c "." then true else hasDecimal) (S pos) ln (S col)
      else (v, hasDecimal, mkLexer s pos ln col)
  | EmptyString => (v, hasDecimal, mkLexer s pos ln col)
  end.

Definition readNumber (l : t) : Token * t :=
  let '(v, hasDecimal, l1) :=
    readNumber_from (input_ l) EmptyString false
      (position_ l) (line_ l) (column_ l) in
  (makeToken l1 (if hasDecimal then REAL_LITERAL else INTEGER_LITERAL) v, l1).

Fixpoint readIdentifier_from (s : string) (v : string) (pos ln col : nat)
    : string * t :=
  match s with
  | String c r =>
      if isAlphaNumeric c then
        readIdentifier_from r (append_char v c) (S pos) ln (S col)
      else (v, mkLexer s pos ln col)
  | EmptyString => (v, mkLexer s pos ln col)
  end.

Definition readIdentifier (l : t) : Token * t :=
  let '(v, l1) :=
    readIdentifier_from (input_ l) EmptyString
      (position_ l) (line_ l) (column_ l) in
  let upper_value := string_map toupper v in
  match keywords_ !! upper_value with
  | Some t => (makeToken l1 t v, l1)
  | None => (makeToken l1 IDENTIFIER v, l1)
  end.

(** The [switch] of [nextToken] on operators and punctuation. *)
Definition nextToken_punct (c : ascii) (l : t) : Token * t :=
  let l1 := snd (advance l) in
  let one t v := (makeToken l1 t v, l1) in
  let two t v := let l2 := snd (advance l1) in (makeToken l2 t v, l2) in
  if Ascii.eqb c "(" then one LEFT_PAREN "("
  else if Ascii.eqb c ")" then one RIGHT_PAREN ")"
  else if Ascii.eqb c "," then one COMMA ","
  else if Ascii.eqb c ";" then one SEMICOLON ";"
  else if Ascii.eqb c "." then one DOT "."
  else if Ascii.eqb c "+" then one PLUS "+"
  else if Ascii.eqb c "-" then one MINUS "-"
  else if Ascii.eqb c "*" then one MULTIPLY "*"
  else if Ascii.eqb c "/" then one DIVIDE "/"
  else if Ascii.eqb c "=" then one EQUAL "="
  else if Ascii.eqb c "<" then
    if hasNext l1 && Ascii.eqb (peek l1) "=" then two LESS_EQUAL "<="
    else if hasNext l1 && Ascii.eqb (peek l1) ">" then two NOT_EQUAL "<>"
    else one LESS_THAN "<"
  else if Ascii.eqb c ">" then
    if hasNext l1 && Ascii.eqb (peek l1) "=" then two GREATER_EQUAL ">="
    else one GREATER_THAN ">"
  else if Ascii.eqb c "!" then
    if hasNext l1 && Ascii.eqb (peek l1) "=" then two NOT_EQUAL "!="
    else one INVALID "!"
  else one INVALID (String c EmptyString).

(** [input_[position_ + 1] == '-'] guarded by
    [position_ + 1 < input_.length()]. *)
Definition second_is_dash (l : t) : bool :=
  match input_ l with
  | String _ (String c2 _) => Ascii.eqb c2 "-"
  | _ => false
  end.

(** [nextToken]; the only recursion is the call after a comment, which the
    fuel bounds ([None] when it runs out). *)
Fixpoint nextToken_fuel (fuel : nat) (l : t) : option (Token * t) :=
  match fuel with
  | 0 => None
  | S fuel' =>
      let l := skipWhitespace l in
      if negb (hasNext l) then Some (makeToken l EOF_TOKEN "", l)
      else
        let c := peek l in
        if Ascii.eqb c "-" && second_is_dash l then
          nextToken_fuel fuel' (skipComment l)
        else if Ascii.eqb c "039" || Ascii.eqb c "034" then
          Some (readString l)
        else if isDigit c then Some (readNumber l)
        else if isAlpha c then Some (readIdentifier l)
        else Some (nextToken_punct c l)
  end.

Definition nextToken (l : t) : option (Token * t) :=
  nextToken_fuel (S (String.length (input_ l))) l.

(** The loop of [tokenize]: INVALID tokens are not pushed, and the loop
    stops at an end-of-input token or when no character is left. *)
Fixpoint tokenize_loop (fuel : nat) (l : t) (tokens : list Token)
    : option (list Token) :=
  if negb (hasNext l) then Some tokens
  else
    match fuel with
    | 0 => None
    | S fuel' =>
        match nextToken l with
        | None => None
        | Some (token, l') =>
            let tokens :=
              if negb (TokenType_eqb (type token) INVALID)
              then tokens ++ [token] else tokens in
            if TokenType_eqb (type token) EOF_TOKEN then Some tokens
            else tokenize_loop fuel' l' tokens
        end
    end.

Definition tokenize_opt (input : string) : option (list Token) :=
  tokenize_loop (String.length input) (new input) [].

(** [tokenize]: [tokenize_opt] never runs out of fuel
    ([tokenize_opt_total] below), so the default is never taken. *)
Definition tokenize (input : string) : list Token :=
  default [] (tokenize_opt input).

End Lexer.


(** ** types.h : values, columns, rows, schemas *)

Inductive DataType : Set := INTEGER | REAL | TEXT | BOOLEAN | NULL_TYPE.

Definition DataType_eqb (a b : DataType) : bool :=
  match a, b with
  | INTEGER, INTEGER | REAL, REAL | TEXT, TEXT | BOOLEAN, BOOLEAN
  | NULL_TYPE, NULL_TYPE => true
  | _, _ => false
  end.

(** A finite [double] (IEEE 754 binary64) that is not negative:
    [mantissa * 2 ^ exponent], zero as [mkDouble 0 0].  [std::stod] delivers
    the pair with [2^52 <= mantissa < 2^53] for a normal number and with
    [exponent = -1074] for a subnormal one, so that it delivers equal pairs
    for equal doubles. *)
Record double : Set := mkDouble { mantissa : Z; exponent : Z }.

(** [std::variant<int64_t, double, std::string, bool, std::nullptr_t>] *)
Inductive Value : Set :=
  | VInteger (i : Z)
  | VReal (d : double)
  | VText (s : string)
  | VBoolean (b : bool)
  | VNull.

Definition getType (v : Value) : DataType :=
  match v with
  | VInteger _ => INTEGER
  | VReal _ => REAL
  | VText _ => TEXT
  | VBoolean _ => BOOLEAN
  | VNull => NULL_TYPE
  end.

Definition isNull (v : Value) : bool :=
  match v with VNull => true | _ => false end.

(** The order of the enumerators of [DataType], which [operator<] uses for
    two values of different types. *)
Definition DataType_code (t : DataType) : nat :=
  match t with
  | INTEGER => 0 | REAL => 1 | TEXT => 2 | BOOLEAN => 3 | NULL_TYPE => 4
  end.

Section ValueComparison.
(** [==] and [<] on two [double]s are the machine's; they are taken as they
    come. *)
Variables double_eq double_lt : double -> double -> bool.

(** [Value::operator==]: [data_ == other.data_], the comparison of two
    variants (same alternative and equal contents). *)
Definition operator_eq (a b : Value) : bool :=
  match a, b with
  | VInteger i, VInteger j => (i =? j)%Z
  | VReal x, VReal y => double_eq x y
  | VText s, VText t => String.eqb s t
  | VBoolean x, VBoolean y => Bool.eqb x y
  | VNull, VNull => true
  | _, _ => false
  end.

(** [Value::operator<]; [std::string]s compare byte by byte, a proper
    prefix first, and [false < true]. *)
Definition operator_lt (a b : Value) : bool :=
  if negb (DataType_eqb (getType a) (getType b)) then
    DataType_code (getType a) <? DataType_code (getType b)
  else
    match a, b with
    | VInteger i, VInteger j => (i <? j)%Z
    | VReal x, VReal y => double_lt x y
    | VText s, VText t => String.ltb s t
    | VBoolean x, VBoolean y => negb x && y
    | _, _ => false
    end.

Definition operator_le (a b : Value) : bool :=
  operator_lt a b || operator_eq a b.

Definition operator_gt (a b : Value) : bool := negb (operator_le a b).

Definition operator_ge (a b : Value) : bool := negb (operator_lt a b).

Definition operator_ne (a b : Value) : bool := negb (operator_eq a b).
End ValueComparison.

Record Column : Set := mkColumn {
  name : string;
  col_type : DataType;        (* the member [type] *)
  nullable : bool;
  primary_key : bool
}.

Definition Row : Set := list Value.

(** ** The outcomes of a call, and the monad that threads a state *)

Inductive Outcome (St A : Type) : Type :=
  | Ok (a : A) (s : St)              (* normal return *)
  | Throw (what : string) (s : St)   (* a C++ exception, with [e.what()] *)
  | Undefined                        (* a read outside a vector *)
  | OutOfFuel.                       (* the model's recursion bound hit *)
Arguments Ok {St A} a s.
Arguments Throw {St A} what s.
Arguments Undefined {St A}.
Arguments OutOfFuel {St A}.

Definition M (St A : Type) : Type := St -> Outcome St A.

Definition ret {St A} (a : A) : M St A := fun s => Ok a s.

Definition bind {St A B} (m : M St A) (k : A -> M St B) : M St B :=
  fun s =>
    match m s with
    | Ok a s' => k a s'
    | Throw w s' => Throw w s'
    | Undefined => Undefined
    | OutOfFuel => OutOfFuel
    end.

Definition throw {St A} (what : string) : M St A := fun s => Throw what s.
Definition out_of_fuel {St A} : M St A := fun _ => OutOfFuel.
Definition get {St} : M St St := fun s => Ok s s.
Definition put {St} (s : St) : M St unit := fun _ => Ok tt s.

Notation "'let*' x ':=' m 'in' k" := (bind m (fun x => k))
  (at level 10, x name, m at level 100, k at level 200, only parsing).

(** ** ast.h *)

Module BinaryExpression.
Inductive Operator : Set :=
  | ADD | SUBTRACT | MULTIPLY | DIVIDE
  | EQUAL | NOT_EQUAL | LESS_THAN | LESS_EQUAL | GREATER_THAN | GREATER_EQUAL
  | AND | OR.
End BinaryExpression.

Module UnaryExpression.
Inductive Operator : Set := NOT | MINUS.
End UnaryExpression.

Inductive Expression : Set :=
  | LiteralExpression (value : Value)
  | ColumnExpression (table_name column_name : string)
  | BinaryExpression (left : Expression) (op : BinaryExpression.Operator)
      (right : Expression)
  | UnaryExpression (op : UnaryExpression.Operator) (operand : Expression).

(** The one-argument constructor [ColumnExpression(col)] leaves
    [table_name] empty. *)
Definition ColumnExpression1 (col : string) : Expression :=
  ColumnExpression "" col.

Module SelectStatement.
Record t : Set := mk {
  select_list : list Expression;
  from_table : string;
  where_clause : option Expression;   (* optional *)
  order_by : list string;             (* optional *)
  order_desc : bool;
  limit : Z                           (* optional, -1 when absent *)
}.
End SelectStatement.

Module InsertStatement.
Record t : Set := mk {
  table_name : string;
  columns : list string;   (* optional, if empty insert into all columns *)
  values : list (list Expression)
}.
End InsertStatement.

Module CreateTableStatement.
Record t : Set := mk {
  table_name : string;
  columns : list Column
}.
End CreateTableStatement.

Module DropTableStatement.
Record t : Set := mk { table_name : string }.
End DropTableStatement.

Inductive Statement : Set :=
  | Select (node : SelectStatement.t)
  | Insert (node : InsertStatement.t)
  | CreateTable (node : CreateTableStatement.t)
  | DropTable (node : DropTableStatement.t).

(** ** Text to number conversions of the standard library *)

(** [std::to_string] of a [size_t]. *)
Fixpoint to_string_digits (fuel n : nat) (acc : string) : string :=
  match fuel with
  | 0 => acc
  | S fuel' =>
      let acc' := String (ascii_of_nat (48 + n mod 10)) acc in
      if n / 10 =? 0 then acc' else to_string_digits fuel' (n / 10) acc'
  end.

Definition to_string (n : nat) : string := to_string_digits (S n) n "".

(** The longest run of decimal digits at the front of [s], as a number,
    with the number of digits and what follows. *)
Fixpoint read_digits (s : string) (acc : Z) (count : nat) : Z * nat * string :=
  match s with
  | String c r =>
      if Lexer.isDigit c then
        read_digits r (acc * 10 + Z.of_nat (nat_of_ascii c - 48))%Z (S count)
      else (acc, count, s)
  | EmptyString => (acc, count, s)
  end.

Fixpoint skip_spaces (s : string) : string :=
  match s with
  | String c r => if Lexer.isspace c then skip_spaces r else s
  | EmptyString => s
  end.

(** [strtoll]/[strtol] in base 10 as [std::stoll] and [std::stoi] use it:
    blanks, an optional sign, digits; [None] when there is no digit. *)
Definition read_integer (s : string) : option Z :=
  let s := skip_spaces s in
  let '(negative, s) :=
    match s with
    | String c r =>
        if Ascii.eqb c "-" then (true, r)
        else if Ascii.eqb c "+" then (false, r) else (false, s)
    | EmptyString => (false, s)
    end in
  let '(n, count, _) := read_digits s 0%Z 0 in
  if count =? 0 then None else Some (if negative then (- n)%Z else n).

(** [std::stoll]: [std::invalid_argument] without a number,
    [std::out_of_range] outside [int64_t]; both have [what() = "stoll"]
    (libstdc++).  [None] stands for the exception. *)
Definition stoll (s : string) : option Z :=
  match read_integer s with
  | Some n =>
      if ((- 2 ^ 63 <=? n) && (n <=? 2 ^ 63 - 1))%Z then Some n else None
  | None => None
  end.

(** [std::stoi], the same on [int]. *)
Definition stoi (s : string) : option Z :=
  match read_integer s with
  | Some n =>
      if ((- 2 ^ 31 <=? n) && (n <=? 2 ^ 31 - 1))%Z then Some n else None
  | None => None
  end.

(** The binary64 nearest to [m / 10 ^ fcount], for [0 <= m], ties to the
    even mantissa: the rounding of [strtod] in the default rounding mode.
    [e2] is the binary exponent of the quotient, [q] the quotient in units
    of [2 ^ e], rounded. *)
Definition round_to_double (m : Z) (fcount : nat) : double :=
  if (m =? 0)%Z then mkDouble 0 0 else
  let d := (10 ^ Z.of_nat fcount)%Z in
  let l := (Z.log2 m - Z.log2 d)%Z in
  let e2 :=
    if (if 0 <=? l then d * 2 ^ l <=? m else d <=? m * 2 ^ (- l))%Z
    then l else (l - 1)%Z in
  let e := Z.max (e2 - 52) (-1074) in
  let num := (if 0 <=? e then m else m * 2 ^ (- e))%Z in
  let den := (if 0 <=? e then d * 2 ^ e else d)%Z in
  let q := (num / den)%Z in
  let r := (num mod den)%Z in
  let q :=
    (if (den <? 2 * r) || ((den =? 2 * r) && Z.odd q) then q + 1 else q)%Z in
  if (q =? 2 ^ 53)%Z then mkDouble (2 ^ 52) (e + 1)
  else if (q =? 0)%Z then mkDouble 0 0
  else mkDouble q e.

(** [std::stod] on a numeral made of digits and at most one dot, which is
    what the lexer produces for a REAL literal: the digits before the dot,
    the dot, the digits after it.  [None] stands for the exception
    ([what() = "stod"]), thrown when there is no digit
    ([std::invalid_argument]) and when [strtod] sets [ERANGE]
    ([std::out_of_range]), which glibc does when the value is not below
    [2^1024 - 2^970] (it rounds to infinity), and when the value is not
    zero, is below the least normal number [2^-1022], is no multiple of
    [2^-1074] (so that the result is inexact), and does not round to
    [2^-1022] at the precision of a normal number; glibc 2.36 also leaves
    [errno] alone for a value from [2^-1023] on that is an odd multiple
    [(2 * k + 1) * 2^-1076] with [k] even, where it does not see the last
    bit.  Blanks, a sign, an exponent, hexadecimal digits and the special
    names that [strtod] also reads do not occur in a REAL literal and are
    not modelled. *)
Definition stod (s : string) : option double :=
  let '(ip, icount, r) := read_digits s 0%Z 0 in
  let '(m, fcount) :=
    match r with
    | String c r' =>
        if Ascii.eqb c "." then
          let '(m, fcount, _) := read_digits r' ip 0 in (m, fcount)
        else (ip, 0)
    | EmptyString => (ip, 0)
    end in
  let d := (10 ^ Z.of_nat fcount)%Z in
  if icount + fcount =? 0 then None
  else if ((2 ^ 1024 - 2 ^ 970) * d <=? m)%Z then None
  else if ((0 <? m) && (m * 2 ^ 1022 <? d)
           && negb ((m * 2 ^ 1074) mod d =? 0)
           && negb ((2 ^ 54 - 1) * d <=? m * 2 ^ 1076)
           && negb ((d <=? m * 2 ^ 1023)
                    && ((m * 2 ^ 1076) mod (4 * d) =? d)))%Z then None
  else Some (round_to_double m fcount).

(** ** parser.cpp *)

Module Parser.

Record t : Set := mk { tokens_ : list Token; current_ : nat }.

Definition new (tokens : list Token) : t := mk tokens 0.

Definition P (A : Type) : Type := M t A.

(** [tokens_[current_]]: outside the vector the behaviour is undefined. *)
Definition peek : P Token :=
  fun p =>
    match tokens_ p !! current_ p with
    | Some token => Ok token p
    | None => Undefined
    end.

(** [tokens_[current_ - 1]]; at [current_ = 0] the index wraps around. *)
Definition previous : P Token :=
  fun p =>
    match current_ p with
    | 0 => Undefined
    | S k =>
        match tokens_ p !! k with
        | Some token => Ok token p
        | None => Undefined
        end
    end.

Definition isAtEnd : P bool :=
  let* token := peek in ret (TokenType_eqb (type token) EOF_TOKEN).

Definition advance : P Token :=
  let* atEnd := isAtEnd in
  let* _ := (if atEnd then ret tt
       else fun p => Ok tt (mk (tokens_ p) (S (current_ p)))) in
  previous.

Definition check (ty : TokenType) : P bool :=
  let* atEnd := isAtEnd in
  if atEnd then ret false
  else let* token := peek in ret (TokenType_eqb (type token) ty).

Definition match_ (ty : TokenType) : P bool :=
  let* b := check ty in
  if b then let* _ := advance in ret true else ret false.

(** [match(const std::vector<TokenType>&)] *)
Fixpoint match_any (types : list TokenType) : P bool :=
  match types with
  | [] => ret false
  | ty :: types' =>
      let* b := check ty in
      if b then let* _ := advance in ret true else match_any types'
  end.

Definition error {A} (message : string) : P A :=
  let* p := get in
  let error_msg :=
    ("Parse error at token " ++ to_string (current_ p) ++ ": " ++ message)%string in
  let* atEnd := isAtEnd in
  if atEnd then throw error_msg
  else
    let* token := peek in
    throw (error_msg ++ " (got '" ++ value token ++ "')")%string.

Definition consume (ty : TokenType) (message : string) : P unit :=
  let* b := check ty in
  if b then let* _ := advance in ret tt else error message.

(** [do { body } while (match(TokenType::COMMA));], collecting what the
    body produces. *)
Fixpoint do_while_comma {A} (fuel : nat) (body : P A) (acc : list A)
    : P (list A) :=
  match fuel with
  | 0 => out_of_fuel
  | S fuel' =>
      let* x := body in
      let* more := match_ COMMA in
      if more then do_while_comma fuel' body (acc ++ [x])
      else ret (acc ++ [x])
  end.

Definition parseValue (token : Token) : P Value :=
  match type token with
  | INTEGER_LITERAL =>
      match stoll (value token) with
      | Some i => ret (VInteger i)
      | None => throw "stoll"
      end
  | REAL_LITERAL =>
      match stod (value token) with
      | Some d => ret (VReal d)
      | None => throw "stod"
      end
  | STRING_LITERAL => ret (VText (value token))
  | TRUE => ret (VBoolean true)
  | FALSE => ret (VBoolean false)
  | _ => error "Invalid literal value"
  end.

Definition parseDataType : P DataType :=
  let* b := match_ INTEGER_TYPE in
  if b then ret INTEGER else
  let* b := match_ REAL_TYPE in
  if b then ret REAL else
  let* b := match_ TEXT_TYPE in
  if b then ret TEXT else
  let* b := match_ BOOLEAN_TYPE in
  if b then ret BOOLEAN else
  error "Expected data type".

(** The loop shared by the six levels of binary operators:
    [while (match({types})) { op; right = operand(); expr = Binary(...) }] *)
Fixpoint binary_loop (fuel : nat) (types : list TokenType)
    (op_of : TokenType -> BinaryExpression.Operator)
    (operand : P Expression) (expr : Expression) : P Expression :=
  match fuel with
  | 0 => out_of_fuel
  | S fuel' =>
      let* b := match_any types in
      if b then
        let* token := previous in
        let* right := operand in
        binary_loop fuel' types op_of operand
          (BinaryExpression expr (op_of (type token)) right)
      else ret expr
  end.

Section Levels.
(** The levels above the unary one, over the parser of unary
    expressions they end in. *)
Variable fuel : nat.
Variable parseUnaryExpression : P Expression.

Definition parseFactorExpression : P Expression :=
  let* expr := parseUnaryExpression in
  binary_loop fuel [DIVIDE; MULTIPLY]
    (fun ty => if TokenType_eqb ty MULTIPLY
               then BinaryExpression.MULTIPLY else BinaryExpression.DIVIDE)
    parseUnaryExpression expr.

Definition parseTermExpression : P Expression :=
  let* expr := parseFactorExpression in
  binary_loop fuel [MINUS; PLUS]
    (fun ty => if TokenType_eqb ty PLUS
               then BinaryExpression.ADD else BinaryExpression.SUBTRACT)
    parseFactorExpression expr.

Definition parseComparisonExpression : P Expression :=
  let* expr := parseTermExpression in
  binary_loop fuel [GREATER_THAN; GREATER_EQUAL; LESS_THAN; LESS_EQUAL]
    (fun ty => match ty with
               | GREATER_THAN => BinaryExpression.GREATER_THAN
               | GREATER_EQUAL => BinaryExpression.GREATER_EQUAL
               | LESS_THAN => BinaryExpression.LESS_THAN
               | LESS_EQUAL => BinaryExpression.LESS_EQUAL
               | _ => BinaryExpression.EQUAL
               end)
    parseTermExpression expr.

Definition parseEqualityExpression : P Expression :=
  let* expr := parseComparisonExpression in
  binary_loop fuel [NOT_EQUAL; EQUAL]
    (fun ty => if TokenType_eqb ty EQUAL
               then BinaryExpression.EQUAL else BinaryExpression.NOT_EQUAL)
    parseComparisonExpression expr.

Definition parseAndExpression : P Expression :=
  let* expr := parseEqualityExpression in
  binary_loop fuel [AND] (fun _ => BinaryExpression.AND)
    parseEqualityExpression expr.

Definition parseOrExpression : P Expression :=
  let* expr := parseAndExpression in
  binary_loop fuel [OR] (fun _ => BinaryExpression.OR)
    parseAndExpression expr.
End Levels.

(** [parsePrimaryExpression], over the parser it calls between
    parentheses. *)
Definition parsePrimaryExpression (parseExpression : P Expression)
    : P Expression :=
  let* b := match_any [TRUE; FALSE] in
  if b then
    let* token := previous in
    ret (LiteralExpression (VBoolean (TokenType_eqb (type token) TRUE)))
  else
  let* b := match_ NULL_KW in
  if b then ret (LiteralExpression VNull) else
  let* b := match_any [INTEGER_LITERAL; REAL_LITERAL; STRING_LITERAL] in
  if b then
    let* token := previous in
    let* v := parseValue token in
    ret (LiteralExpression v)
  else
  let* b := match_ IDENTIFIER in
  if b then
    let* token := previous in
    let name := value token in
    let* dot := match_ DOT in
    if dot then
      let* _ := consume IDENTIFIER "Expected column name after '.'" in
      let* column := previous in
      ret (ColumnExpression name (value column))
    else ret (ColumnExpression1 name)
  else
  let* b := match_ LEFT_PAREN in
  if b then
    let* expr := parseExpression in
    let* _ := consume RIGHT_PAREN "Expected ')' after expression" in
    ret expr
  else error "Expected expression".

(** [parseUnaryExpression] calls itself after NOT or a minus sign, and
    through [parsePrimaryExpression] the whole expression parser after an
    opening parenthesis; both calls come after a token was consumed, which
    is what the fuel counts. *)
Fixpoint parseUnaryExpression (fuel : nat) : P Expression :=
  match fuel with
  | 0 => out_of_fuel
  | S fuel' =>
      let* b := match_any [NOT; MINUS] in
      if b then
        let* token := previous in
        let op := if TokenType_eqb (type token) NOT
                  then UnaryExpression.NOT else UnaryExpression.MINUS in
        let* expr := parseUnaryExpression fuel' in
        ret (UnaryExpression op expr)
      else
        parsePrimaryExpression
          (parseOrExpression fuel' (parseUnaryExpression fuel'))
  end.

Definition parseExpression (fuel : nat) : P Expression :=
  parseOrExpression fuel (parseUnaryExpression fuel).

Definition parseSelectStatement (fuel : nat) : P Statement :=
  (* Parse SELECT list *)
  let* select_list :=
    do_while_comma fuel
      (let* star := match_ MULTIPLY in
       if star then ret (ColumnExpression1 "*") else parseExpression fuel) [] in
  (* Parse FROM clause *)
  let* _ := consume FROM "Expected 'FROM' after SELECT list" in
  let* _ := consume IDENTIFIER "Expected table name after FROM" in
  let* table := previous in
  (* Parse optional WHERE clause *)
  let* has_where := match_ WHERE in
  let* where_clause :=
    (if has_where then let* e := parseExpression fuel in ret (Some e)
     else ret None) in
  (* Parse optional ORDER BY clause *)
  let* has_order := match_ ORDER in
  let* order :=
    (if has_order then
       let* _ := consume BY "Expected 'BY' after ORDER" in
       let* order_by :=
         do_while_comma fuel
           (let* _ := consume IDENTIFIER "Expected column name in ORDER BY" in
            let* column := previous in ret (value column)) [] in
       let* desc := match_ DESC in
       if desc then ret (order_by, true)
       else let* _ := match_ ASC in ret (order_by, false)
     else ret ([], false)) in
  (* Parse optional LIMIT clause *)
  let* has_limit := match_ LIMIT in
  let* limit :=
    (if has_limit then
       let* _ := consume INTEGER_LITERAL "Expected number after LIMIT" in
       let* number := previous in
       match stoi (value number) with
       | Some n => ret n
       | None => throw "stoi"
       end
     else ret (-1)%Z) in
  ret (Select (SelectStatement.mk select_list (value table) where_clause
                 (fst order) (snd order) limit)).

Definition parseInsertStatement (fuel : nat) : P Statement :=
  let* _ := consume INTO "Expected 'INTO' after INSERT" in
  let* _ := consume IDENTIFIER "Expected table name" in
  let* table := previous in
  (* Parse optional column list *)
  let* has_columns := match_ LEFT_PAREN in
  let* columns :=
    (if has_columns then
       let* columns :=
         do_while_comma fuel
           (let* _ := consume IDENTIFIER "Expected column name" in
            let* column := previous in ret (value column)) [] in
       let* _ := consume RIGHT_PAREN "Expected ')' after column list" in
       ret columns
     else ret []) in
  let* _ := consume VALUES "Expected 'VALUES'" in
  (* Parse value lists *)
  let* values :=
    do_while_comma fuel
      (let* _ := consume LEFT_PAREN "Expected '(' before values" in
       let* values := do_while_comma fuel (parseExpression fuel) [] in
       let* _ := consume RIGHT_PAREN "Expected ')' after values" in
       ret values) [] in
  ret (Insert (InsertStatement.mk (value table) columns values)).

(** The loop over column constraints,
    [while (match({TokenType::NOT, TokenType::IDENTIFIER}))]. *)
Fixpoint parseColumnConstraints (fuel : nat) (nullable primary_key : bool)
    : P (bool * bool) :=
  match fuel with
  | 0 => out_of_fuel
  | S fuel' =>
      let* b := match_any [NOT; IDENTIFIER] in
      if b then
        let* token := previous in
        if String.eqb (value token) "NOT" then
          let* _ := consume NULL_KW "Expected 'NULL' after NOT" in
          parseColumnConstraints fuel' false primary_key
        else if String.eqb (value token) "PRIMARY" then
          let* _ := consume IDENTIFIER "Expected 'KEY' after PRIMARY" in
          let* key := previous in
          let* _ := (if negb (String.eqb (value key) "KEY")
               then error "Expected 'KEY' after PRIMARY" else ret tt) in
          parseColumnConstraints fuel' nullable true
        else parseColumnConstraints fuel' nullable primary_key
      else ret (nullable, primary_key)
  end.

Definition parseCreateTableStatement (fuel : nat) : P Statement :=
  let* _ := consume TABLE "Expected 'TABLE' after CREATE" in
  let* _ := consume IDENTIFIER "Expected table name" in
  let* table := previous in
  let* _ := consume LEFT_PAREN "Expected '(' after table name" in
  (* Parse column definitions *)
  let* columns :=
    do_while_comma fuel
      (let* _ := consume IDENTIFIER "Expected column name" in
       let* column := previous in
       let* data_type := parseDataType in
       (* Parse column constraints (simplified) *)
       let* flags := parseColumnConstraints fuel true false in
       ret (mkColumn (value column) data_type (fst flags) (snd flags))) [] in
  let* _ := consume RIGHT_PAREN "Expected ')' after column definitions" in
  ret (CreateTable (CreateTableStatement.mk (value table) columns)).

Definition parseDropTableStatement : P Statement :=
  let* _ := consume TABLE "Expected 'TABLE' after DROP" in
  let* _ := consume IDENTIFIER "Expected table name" in
  let* table := previous in
  ret (DropTable (DropTableStatement.mk (value table))).

Definition parseStatement_fuel (fuel : nat) : P Statement :=
  let* b := match_ SELECT in
  if b then parseSelectStatement fuel else
  let* b := match_ INSERT in
  if b then parseInsertStatement fuel else
  let* b := match_ CREATE in
  if b then parseCreateTableStatement fuel else
  let* b := match_ DROP in
  if b then parseDropTableStatement else
  error "Expected statement".

(** [Parser(tokens).parseStatement()]; one unit of fuel per token and one
    more is enough ([parseStatement_terminates] below). *)
Definition parseStatement (tokens : list Token) : Outcome t Statement :=
  parseStatement_fuel (S (length tokens)) (new tokens).

End Parser.

(** ** types.h, storage.h, storage.cpp : schemas, tables, the database *)

Record Schema : Type := mkSchema {
  columns_ : list Column;
  column_index_ : gmap string nat
}.

Definition Schema_empty : Schema := mkSchema [] ∅.

Definition addColumn (col : Column) (s : Schema) : Schema :=
  mkSchema (columns_ s ++ [col])
           (<[name col := length (columns_ s)]> (column_index_ s)).

Definition getColumnCount (s : Schema) : nat := length (columns_ s).

(** [Schema::getColumn(size_t)] *)
Definition getColumn {St} (s : Schema) (index : nat) : M St Column :=
  match columns_ s !! index with
  | Some col => ret col
  | None => throw "Column index out of range"
  end.

Definition getColumnIndex {St} (s : Schema) (n : string) : M St nat :=
  match column_index_ s !! n with
  | Some i => ret i
  | None => throw ("Column not found: " ++ n)%string
  end.

Record Table : Type := mkTable {
  name_ : string;
  schema_ : Schema;
  rows_ : list Row
}.

Definition Table_new (n : string) (schema : Schema) : Table :=
  mkTable n schema [].

Definition getRowCount (t : Table) : nat := length (rows_ t).

(** The loop of [validateRow], at index [i] with [rest] the values
    [row[i]], [row[i+1]], ... *)
Fixpoint validateRow_from {St} (schema : Schema) (i : nat) (rest : list Value)
    : M St bool :=
  match rest with
  | [] => ret true
  | v :: rest' =>
      let* column := getColumn schema i in
      (* Check null constraints *)
      if negb (nullable column) && isNull v then ret false
      (* Check type compatibility (basic check) *)
      else if negb (isNull v) && negb (DataType_eqb (getType v) (col_type column))
      then ret false
      else validateRow_from schema (S i) rest'
  end.

Definition validateRow {St} (t : Table) (row : Row) : M St bool :=
  if negb (length row =? getColumnCount (schema_ t)) then ret false
  else validateRow_from (schema_ t) 0 row.

Definition insertRow (row : Row) : M Table unit :=
  let* t := get in
  let* valid := validateRow t row in
  if negb valid then throw "Row validation failed"
  else put (mkTable (name_ t) (schema_ t) (rows_ t ++ [row])).

(** [Database]: the member [tables_]. *)
Abbreviation Database := (gmap string Table).

Definition hasTable (n : string) (db : Database) : bool :=
  match db !! n with Some _ => true | None => false end.

Definition createTable (n : string) (schema : Schema) : M Database unit :=
  let* db := get in
  if hasTable n db then throw ("Table already exists: " ++ n)%string
  else put (<[n := Table_new n schema]> db).

Definition getTable (n : string) (db : Database) : option Table := db !! n.

Definition dropTable (n : string) : M Database unit :=
  let* db := get in put (delete n db).

(** [Schema::getColumn(const std::string&)]: [nullptr] is [None]; the
    element of [columns_] at the index found is taken without a check. *)
Definition getColumn_named {St} (s : Schema) (n : string)
    : M St (option Column) :=
  match column_index_ s !! n with
  | None => ret None
  | Some i =>
      match columns_ s !! i with
      | Some col => ret (Some col)
      | None => fun _ => Undefined
      end
  end.

(** [std::string]'s [<=], as a relation. *)
Definition string_le (a b : string) : Prop := String.leb a b = true.

#[global] Instance string_le_dec a b : Decision (string_le a b).
Proof. unfold string_le. apply _. Defined.

(** [Database::getTableNames]: the keys of [tables_], in whatever order the
    map yields them, then [std::sort]ed. *)
Definition getTableNames (db : Database) : list string :=
  merge_sort string_le (map_to_list db).*1.

(** ** llvm_codegen.cpp : the executor

    Only what reaches the database and the result rows is represented.  The
    LLVM side (building the IR of an empty [select_query] function,
    [llvm::verifyModule], the JIT) reads and writes neither, and the model
    follows the run in which the module verifies and no JIT instance was
    created, where [compileAndExecute] returns at once. *)

Record LLVMCodeGenerator : Type := mkCodegen {
  current_database_ : Database;   (* the database the pointer refers to *)
  results_ : list Row
}.

Definition X (A : Type) : Type := M LLVMCodeGenerator A.

(** A call through [current_database_]. *)
Definition on_database {A} (m : M Database A) : X A :=
  fun g =>
    match m (current_database_ g) with
    | Ok a db => Ok a (mkCodegen db (results_ g))
    | Throw w db => Throw w (mkCodegen db (results_ g))
    | Undefined => Undefined
    | OutOfFuel => OutOfFuel
    end.

(** A call through [current_table_], the pointer to the table stored under
    [n]: what the call does to the table is done to the database's table,
    also when it ends in an exception. *)
Definition on_table {A} (n : string) (t : Table) (m : M Table A) : X A :=
  on_database
    (fun db =>
       match m t with
       | Ok a t' => Ok a (<[n := t']> db)
       | Throw w t' => Throw w (<[n := t']> db)
       | Undefined => Undefined
       | OutOfFuel => OutOfFuel
       end).

Definition push_result (row : Row) : X unit :=
  fun g => Ok tt (mkCodegen (current_database_ g) (results_ g ++ [row])).

(** Helper method for WHERE clause evaluation (simplified C++ version) *)
Fixpoint evaluateWhereClause (expr : Expression) (row : Row) : bool :=
  match expr with
  | BinaryExpression left_ op right_ =>
      let left_val := evaluateWhereClause left_ row in
      let right_val := evaluateWhereClause right_ row in
      match op with
      | BinaryExpression.AND => left_val && right_val
      | BinaryExpression.OR => left_val || right_val
      | _ => true (* Simplified *)
      end
  | LiteralExpression (VBoolean b) => b
  | _ => true (* Default to include row *)
  end.

(** [include_row] in [visit(SelectStatement&)]: true without a WHERE
    clause, what [evaluateWhereClause] says with one. *)
Definition include_row (where_clause : option Expression) (row : Row) : bool :=
  match where_clause with
  | Some expr => evaluateWhereClause expr row
  | None => true
  end.

(** The loop of [visit(SelectStatement&)] over the rows of the table. *)
Fixpoint select_rows (where_clause : option Expression) (rows : list Row)
    : X unit :=
  match rows with
  | [] => ret tt
  | row :: rows' =>
      let* _ := (if include_row where_clause row
                 then push_result row else ret tt) in
      select_rows where_clause rows'
  end.

Definition visit_SelectStatement (node : SelectStatement.t) : X unit :=
  let* g := get in
  match getTable (SelectStatement.from_table node) (current_database_ g) with
  | None =>
      throw ("Table not found: " ++ SelectStatement.from_table node)%string
  | Some current_table =>
      select_rows (SelectStatement.where_clause node) (rows_ current_table)
  end.

(** The inner loop of [visit(InsertStatement&)]: the row of one value
    list, literal by literal. *)
Fixpoint insert_row_of {St} (value_list : list Expression) (row : Row)
    : M St Row :=
  match value_list with
  | [] => ret row
  | LiteralExpression v :: value_list' => insert_row_of value_list' (row ++ [v])
  | _ :: _ => throw "Complex expressions in INSERT not yet supported"
  end.

(** The outer loop, as a sequence of calls on [current_table_]: each row is
    inserted before the next value list is looked at. *)
Fixpoint insert_value_lists (values : list (list Expression)) : M Table unit :=
  match values with
  | [] => ret tt
  | value_list :: values' =>
      let* row := insert_row_of value_list [] in
      let* _ := insertRow row in
      insert_value_lists values'
  end.

Definition visit_InsertStatement (node : InsertStatement.t) : X unit :=
  let* g := get in
  match getTable (InsertStatement.table_name node) (current_database_ g) with
  | None =>
      throw ("Table not found: " ++ InsertStatement.table_name node)%string
  | Some current_table =>
      on_table (InsertStatement.table_name node) current_table
        (insert_value_lists (InsertStatement.values node))
  end.

(** [Schema schema; for (const auto& col : columns) schema.addColumn(col);] *)
Definition schema_of (columns : list Column) : Schema :=
  fold_left (fun schema col => addColumn col schema) columns Schema_empty.

Definition visit_CreateTableStatement (node : CreateTableStatement.t)
    : X unit :=
  let schema := schema_of (CreateTableStatement.columns node) in
  on_database (createTable (CreateTableStatement.table_name node) schema).

Definition visit_DropTableStatement (node : DropTableStatement.t) : X unit :=
  on_database (dropTable (DropTableStatement.table_name node)).

(** [statement.accept( *this )] *)
Definition accept (statement : Statement) : X unit :=
  match statement with
  | Select node => visit_SelectStatement node
  | Insert node => visit_InsertStatement node
  | CreateTable node => visit_CreateTableStatement node
  | DropTable node => visit_DropTableStatement node
  end.

Definition generateCode (statement : Statement) : X unit :=
  let* g := get in
  let* _ := put (mkCodegen (current_database_ g) []) in   (* results_.clear() *)
  accept statement.

(** ** query_engine.cpp *)

Record QueryEngine : Type := mkEngine {
  database_ : Database;
  codegen_ : list Row;        (* the [results_] of the code generator *)
  last_error_ : string
}.

Definition QueryEngine_new : QueryEngine := mkEngine ∅ [] "".

Definition clearError (e : QueryEngine) : QueryEngine :=
  mkEngine (database_ e) (codegen_ e) "".

Definition setError (error : string) (e : QueryEngine) : QueryEngine :=
  mkEngine (database_ e) (codegen_ e) error.

(** The [try] block of [execute] from the point where the lexer has
    delivered [tokens], as far as the first exception. *)
Definition execute_tokens (tokens : list Token) : M QueryEngine (list Row) :=
  fun e =>
    match tokens with
    | [] => Ok [] (setError "No tokens found in SQL" e)
    | _ :: _ =>
        (* Step 2: Parse tokens into AST *)
        match Parser.parseStatement tokens with
        | Ok statement _ =>
            (* Step 3: Generate and execute code *)
            match generateCode statement
                    (mkCodegen (database_ e) (codegen_ e)) with
            | Ok _ g =>
                (* Step 4: Return results *)
                Ok (results_ g)
                   (mkEngine (current_database_ g) (results_ g) (last_error_ e))
            | Throw w g =>
                Throw w
                  (mkEngine (current_database_ g) (results_ g) (last_error_ e))
            | Undefined => Undefined
            | OutOfFuel => OutOfFuel
            end
        | Throw w _ => Throw w e
        | Undefined => Undefined
        | OutOfFuel => OutOfFuel
        end
    end.

(** Step 1: Tokenize the SQL, then the rest of the [try] block. *)
Definition execute_try (sql : string) : M QueryEngine (list Row) :=
  fun e =>
    match Lexer.tokenize_opt sql with
    | Some tokens => execute_tokens tokens e
    | None => OutOfFuel
    end.

(** [clearError()] before the [try] block, and its
    [catch (const std::exception& e)], which sets the error to [e.what()]
    and returns no row. *)
Definition catching (body : M QueryEngine (list Row))
    : M QueryEngine (list Row) :=
  fun e =>
    match body (clearError e) with
    | Ok rows e' => Ok rows e'
    | Throw w e' => Ok [] (setError w e')
    | Undefined => Undefined
    | OutOfFuel => OutOfFuel
    end.

(** [QueryEngine::execute] *)
Definition execute (sql : string) : M QueryEngine (list Row) :=
  catching (execute_try sql).

(** [execute] on an input that the lexer turns into [tokens]. *)
Definition execute_on (tokens : list Token) : M QueryEngine (list Row) :=
  catching (execute_tokens tokens).

(** A session: the statements of [sqls] executed in turn on one engine;
    the rows returned by the last one. *)
Fixpoint execute_all (sqls : list string) (last : list Row) : M QueryEngine (list Row) :=
  match sqls with
  | [] => ret last
  | sql :: sqls' => let* rows := execute sql in execute_all sqls' rows
  end.

(** ** Scenarios and predicates used by the statements below *)

Definition engine_table (n : string) (e : QueryEngine) : option Table :=
  getTable n (database_ e).

Definition run_session (sqls : list string) : Outcome QueryEngine (list Row) :=
  execute_all sqls [] QueryEngine_new.

(** A one-column table holding (3), (1), (2), then the query. *)
Definition order_by_session : list string :=
  [ "CREATE TABLE t (c INTEGER)";
    "INSERT INTO t VALUES (3),(1),(2);";
    "SELECT * FROM t ORDER BY c LIMIT 2" ].

Definition projection_session : list string :=
  [ "CREATE TABLE t (a INTEGER, b TEXT)";
    "INSERT INTO t VALUES (1, 'x');";
    "SELECT a FROM t;" ].

Definition where_integer_session : list string :=
  [ "CREATE TABLE t (c INTEGER)";
    "INSERT INTO t VALUES (3),(1),(2);";
    "SELECT * FROM t WHERE 1;" ].

Definition where_not_session : list string :=
  [ "CREATE TABLE t (c INTEGER)";
    "INSERT INTO t VALUES (3),(1),(2);";
    "SELECT * FROM t WHERE NOT true;" ].

Definition failing_insert_session : list string :=
  [ "CREATE TABLE t (c INTEGER)";
    "INSERT INTO t VALUES (3),(1),('x');" ].

Definition column_list_session : list string :=
  [ "CREATE TABLE t (a INTEGER, b INTEGER)";
    "INSERT INTO t (b, a) VALUES (1, 2);";
    "SELECT * FROM t;" ].

Definition duplicate_column_session : list string :=
  [ "CREATE TABLE t (a INTEGER, a TEXT)" ].

(** The rows, and the error message, an outcome hands to the caller. *)
Definition returned_rows {St} (o : Outcome St (list Row)) : option (list Row) :=
  match o with Ok rows _ => Some rows | _ => None end.

Definition returned_error (o : Outcome QueryEngine (list Row)) : option string :=
  match o with Ok _ e => Some (last_error_ e) | _ => None end.

Definition final_rows_of (n : string) (o : Outcome QueryEngine (list Row))
    : option (list Row) :=
  match o with
  | Ok _ e => rows_ <$> engine_table n e
  | _ => None
  end.

(** The database with the single table [t (c INTEGER)] holding
    (3), (1), (2). *)
Definition three_rows : Database :=
  <["t" := mkTable "t" (addColumn (mkColumn "c" INTEGER true false) Schema_empty)
             [[VInteger 3]; [VInteger 1]; [VInteger 2]]]> ∅.

(** What is left for the lexer to read. *)
Definition remaining (l : Lexer.t) : nat := String.length (Lexer.input_ l).

(** Whether a token starts with [c] when [rest] follows it: a quote, a
    digit, a letter or underscore, an operator or punctuation character, or
    an exclamation mark with its equals sign.  (Blanks are skipped before a
    token starts.) *)
Definition starts_token (c : ascii) (rest : string) : bool :=
  Ascii.eqb c "039" || Ascii.eqb c "034" || Lexer.isDigit c || Lexer.isAlpha c
  || existsb (Ascii.eqb c)
       ["("; ")"; ","; ";"; "."; "+"; "-"; "*"; "/"; "="; "<"; ">"]%char
  || (Ascii.eqb c "!"
      && match rest with String c2 _ => Ascii.eqb c2 "=" | _ => false end).

(** No token of the list is an end-of-input token except, possibly, the
    last one. *)
Definition eof_only_last (tokens : list Token) : Prop :=
  exists body,
    Forall (fun token => type token <> EOF_TOKEN) body /\
    (tokens = body \/
     exists eof, type eof = EOF_TOKEN /\ tokens = body ++ [eof]).

(** The tokens the parser has not passed yet. *)
Definition rem (p : Parser.t) : nat :=
  length (Parser.tokens_ p) - Parser.current_ p.

(** [check(ty)] on the token [token] under the cursor. *)
Definition accepts (ty : TokenType) (token : Token) : bool :=
  negb (TokenType_eqb (type token) EOF_TOKEN) && TokenType_eqb (type token) ty.

(** A parser computation that, started with fewer than [n] tokens left,
    does not run out of fuel, keeps the token vector and does not move the
    cursor back ([safe]), or moves it forward ([strict]). *)
Definition safe {A} (n : nat) (m : Parser.P A) : Prop :=
  forall p, rem p < n ->
    match m p with
    | Ok _ p' => Parser.tokens_ p' = Parser.tokens_ p /\ rem p' <= rem p
    | OutOfFuel => False
    | _ => True
    end.

Definition strict {A} (n : nat) (m : Parser.P A) : Prop :=
  forall p, rem p < n ->
    match m p with
    | Ok _ p' => Parser.tokens_ p' = Parser.tokens_ p /\ rem p' < rem p
    | OutOfFuel => False
    | _ => True
    end.

(** The token types with which a SELECT statement can go on once it is
    complete: the clauses that may follow, a further item of a list, and
    the operators that extend its last expression. *)
Definition select_continues (ty : TokenType) : bool :=
  match ty with
  | WHERE | ORDER | LIMIT | COMMA | DESC | ASC | DOT
  | OR | AND | NOT_EQUAL | EQUAL | GREATER_THAN | GREATER_EQUAL | LESS_THAN
  | LESS_EQUAL | MINUS | PLUS | DIVIDE | MULTIPLY => true
  | _ => false
  end.

(** The token types with which a complete statement that began with a
    token of type [first] can go on: an INSERT with a comma and a further
    value list, CREATE TABLE and DROP TABLE with nothing. *)
Definition statement_continues (first ty : TokenType) : bool :=
  match first with
  | SELECT => select_continues ty
  | INSERT => TokenType_eqb ty COMMA
  | _ => false
  end.

(** [m2] on the tokens [T2] does what [m1] does on [T1], wherever [m1]
    starts within the first [k] tokens and returns normally. *)
Definition sim_on {A} (T1 T2 : list Token) (k : nat) (m1 m2 : Parser.P A)
    : Prop :=
  forall c a p1',
    c <= k -> m1 (Parser.mk T1 c) = Ok a p1' ->
    exists c', c' <= k /\ p1' = Parser.mk T1 c' /\
               m2 (Parser.mk T2 c) = Ok a (Parser.mk T2 c').

(** The same, but only as long as [m1] stops before the token at [k]:
    what [m2] does when [m1] stops at [k] is left open. *)
Definition sim_cut {A} (T1 T2 : list Token) (k : nat) (m1 m2 : Parser.P A)
    : Prop :=
  forall c a p1',
    c <= k -> m1 (Parser.mk T1 c) = Ok a p1' ->
    exists c', c <= c' /\ c' <= k /\ p1' = Parser.mk T1 c' /\
               (c' < k -> m2 (Parser.mk T2 c) = Ok a (Parser.mk T2 c')).

(** [m] does not return normally when it starts at the token at [k]. *)
Definition stuck_at {A} (T1 : list Token) (k : nat) (m : Parser.P A) : Prop :=
  forall a p, m (Parser.mk T1 k) <> Ok a p.

(** A statement, and input after it that the parser looks at. *)
Definition trailing_limit_sessions : list string * list string :=
  ( [ "CREATE TABLE t (c INTEGER)"; "INSERT INTO t VALUES (3);";
      "SELECT * FROM t " ],
    [ "CREATE TABLE t (c INTEGER)"; "INSERT INTO t VALUES (3);";
      "SELECT * FROM t LIMIT " ] ).

(** For each token type [ty] with which a statement that begins with
    [first] can go on: the tokens of a complete statement, and tokens that
    follow a token of type [ty] after it and change what is parsed. *)
Definition continuation_example (first ty : TokenType)
    : list Token * list Token :=
  let word ty v := mkToken ty v 0 1 1 in
  let select_from :=
    [word SELECT "SELECT"; word MULTIPLY "*"; word FROM "FROM";
     word IDENTIFIER "t"] in
  let select_where := select_from ++ [word WHERE "WHERE"; word IDENTIFIER "a"] in
  let select_order :=
    select_from ++ [word ORDER "ORDER"; word BY "BY"; word IDENTIFIER "a"] in
  let insert :=
    [word INSERT "INSERT"; word INTO "INTO"; word IDENTIFIER "t";
     word VALUES "VALUES"; word LEFT_PAREN "("; word INTEGER_LITERAL "1";
     word RIGHT_PAREN ")"] in
  let eof := word EOF_TOKEN "" in
  match first, ty with
  | SELECT, WHERE => (select_from, [word IDENTIFIER "a"; eof])
  | SELECT, ORDER => (select_from, [word BY "BY"; word IDENTIFIER "a"; eof])
  | SELECT, LIMIT => (select_from, [word INTEGER_LITERAL "5"; eof])
  | SELECT, COMMA => (select_order, [word IDENTIFIER "b"; eof])
  | SELECT, DESC => (select_order, [eof])
  | SELECT, ASC => (select_order, [word LIMIT "LIMIT"; word INTEGER_LITERAL "5"; eof])
  | SELECT, _ => (select_where, [word IDENTIFIER "b"; eof])
  | _, _ =>
      (insert, [word LEFT_PAREN "("; word INTEGER_LITERAL "2";
                word RIGHT_PAREN ")"; eof])
  end.

(** The row a value list of literals stands for. *)
Definition literal_row (row : Row) : list Expression :=
  map LiteralExpression row.

(** [i] is the position of the last column of [columns] named [n]. *)
Definition last_named (columns : list Column) (n : string) (i : nat) : Prop :=
  (exists col, columns !! i = Some col /\ name col = n) /\
  (forall j col, columns !! j = Some col -> name col = n -> j <= i).

(** The name index of a schema holds exactly the names of its columns, each
    with the position of its last occurrence. *)
Definition index_of_last (s : Schema) : Prop :=
  forall n i, column_index_ s !! n = Some i <-> last_named (columns_ s) n i.

Definition database_indexed (db : Database) : Prop :=
  forall n t, db !! n = Some t -> index_of_last (schema_ t).

(** ** Further predicates *)

(** A row fits a schema: as many values as columns, a null only in a
    nullable column, any other value of the declared type of its column. *)
Definition conforms (schema : Schema) (row : Row) : Prop :=
  Forall2 (fun col v => if isNull v then nullable col = true
                        else getType v = col_type col)
    (columns_ schema) row.

(** Every table is stored under its own name and holds only rows that fit
    its schema. *)
Definition database_conforms (db : Database) : Prop :=
  forall n t, db !! n = Some t ->
    name_ t = n /\ Forall (conforms (schema_ t)) (rows_ t).

Definition is_literal (expr : Expression) : bool :=
  match expr with LiteralExpression _ => true | _ => false end.

(** The database an outcome of the executor leaves. *)
Definition database_after {A} (o : Outcome LLVMCodeGenerator A)
    : option Database :=
  match o with
  | Ok _ g | Throw _ g => Some (current_database_ g)
  | _ => None
  end.

(** The statement [SELECT * FROM n]. *)
Definition select_all (n : string) : Statement :=
  Select (SelectStatement.mk [ColumnExpression1 "*"] n None [] false (-1)).

(** An end-of-input token lies at or after the cursor of the parser. *)
Definition has_sentinel (p : Parser.t) : Prop :=
  exists k token,
    Parser.current_ p <= k /\ Parser.tokens_ p !! k = Some token /\
    type token = EOF_TOKEN.

(** What an exception of the parser says. *)
Definition parse_error (w : string) : Prop :=
  (exists k message,
     w = ("Parse error at token " ++ to_string k ++ ": " ++ message)%string)
  \/ w = "stoll" \/ w = "stod" \/ w = "stoi".

(** A parser computation that keeps the token vector, does not move the
    cursor back or past the end-of-input token, throws only parse errors,
    and, with an end-of-input token ahead and a token behind the cursor,
    reads no element outside the vector. *)
Definition within_tokens {A} (m : Parser.P A) : Prop :=
  forall p,
    match m p with
    | Ok _ p' =>
        Parser.tokens_ p' = Parser.tokens_ p /\
        Parser.current_ p <= Parser.current_ p' /\
        (has_sentinel p -> has_sentinel p')
    | Throw w _ => parse_error w
    | Undefined => has_sentinel p -> 1 <= Parser.current_ p -> False
    | OutOfFuel => True
    end.

(** What an exception of the executor says. *)
Definition execution_error (w : string) : Prop :=
  (exists n, w = ("Table not found: " ++ n)%string) \/
  (exists n, w = ("Table already exists: " ++ n)%string) \/
  w = "Complex expressions in INSERT not yet supported" \/
  w = "Row validation failed".

(** The text of a string literal with the value [v], between quotes
    [quote]: a backslash before every quote and every backslash. *)
Fixpoint quoted (quote : ascii) (v : string) : string :=
  match v with
  | EmptyString => EmptyString
  | String c r =>
      if Ascii.eqb c quote || Ascii.eqb c "092"
      then String "092" (String c (quoted quote r))
      else String c (quoted quote r)
  end.

Fixpoint all_chars (f : ascii -> bool) (s : string) : bool :=
  match s with
  | EmptyString => true
  | String c r => f c && all_chars f r
  end.

(** [s] is not empty and [f] holds of its first character. *)
Definition starts_with (f : ascii -> bool) (s : string) : bool :=
  match s with
  | EmptyString => false
  | String c _ => f c
  end.

(** The cursor [n] characters further on the same line, in front of
    [rest]. *)
Definition moved (n : nat) (rest : string) (pos ln col : nat) : Lexer.t :=
  Lexer.mkLexer rest (pos + n) ln (col + n).

(** A word that the lexer returns as an IDENTIFIER: letters, digits and
    underscores, no digit first, and not a keyword in any case. *)
Definition identifier_word (w : string) : bool :=
  starts_with Lexer.isAlpha w && all_chars Lexer.isAlphaNumeric w
  && bool_decide (Lexer.keywords_ !! Lexer.string_map Lexer.toupper w = None).


(** * Properties *)

(** ** The executor *)

Lemma select_rows_filter where_clause rows g :
  select_rows where_clause rows g =
  Ok tt (mkCodegen (current_database_ g)
           (results_ g ++ List.filter (include_row where_clause) rows)).
Proof.
  revert g. induction rows as [|row rows IH]; intros g; simpl.
  - rewrite app_nil_r. by destruct g.
  - unfold bind. destruct (include_row where_clause row); simpl.
    + rewrite IH. simpl. by rewrite <- app_assoc.
    + apply IH.
Qed.

Lemma generateCode_Select node g :
  generateCode (Select node) g =
  match getTable (SelectStatement.from_table node) (current_database_ g) with
  | Some table =>
      Ok tt (mkCodegen (current_database_ g)
               (List.filter (include_row (SelectStatement.where_clause node))
                  (rows_ table)))
  | None =>
      Throw ("Table not found: " ++ SelectStatement.from_table node)%string
        (mkCodegen (current_database_ g) [])
  end.
Proof.
  unfold generateCode, accept, visit_SelectStatement, bind, get, put; simpl.
  destruct (getTable _ _); [|done].
  by rewrite select_rows_filter.
Qed.

(** C1, as the code has it: ORDER BY and LIMIT are parsed into the
    statement but execution does not use them.  Whatever [order_by],
    [order_desc] and [limit] are, a SELECT on an existing table returns the
    included rows in the order in which the table stores them, all of
    them. *)
Theorem select_keeps_stored_order :
  forall select_list from_table where_clause order_by order_desc limit g table,
    getTable from_table (current_database_ g) = Some table ->
    generateCode
      (Select (SelectStatement.mk select_list from_table where_clause
                 order_by order_desc limit)) g =
    Ok tt (mkCodegen (current_database_ g)
             (List.filter (include_row where_clause) (rows_ table))).
Proof.
  intros * Htable. rewrite generateCode_Select. simpl. by rewrite Htable.
Qed.

Lemma select_keeps_stored_order_witness :
  generateCode
    (Select (SelectStatement.mk [ColumnExpression1 "*"] "t" None ["c"] false 2))
    (mkCodegen three_rows []) =
  Ok tt (mkCodegen three_rows [[VInteger 3]; [VInteger 1]; [VInteger 2]]).
Proof.
  apply (select_keeps_stored_order [ColumnExpression1 "*"] "t" None ["c"]
           false 2 (mkCodegen three_rows [])
           (mkTable "t" (addColumn (mkColumn "c" INTEGER true false) Schema_empty)
              [[VInteger 3]; [VInteger 1]; [VInteger 2]])).
  reflexivity.
Defined.

(** C1 fails as stated: on the table holding (3), (1), (2) the query
    [SELECT * FROM t ORDER BY c LIMIT 2] returns (3), (1), (2), not
    (1), (2). *)
Lemma order_by_limit_not_applied :
  returned_rows (run_session order_by_session) =
    Some [[VInteger 3]; [VInteger 1]; [VInteger 2]] /\
  returned_rows (run_session order_by_session) <>
    Some [[VInteger 1]; [VInteger 2]].
Proof. split; [vm_compute; reflexivity | vm_compute; discriminate]. Qed.

(** C2, as the code has it: the select list is not used by execution.  A
    SELECT returns whole stored rows of the table (which for [*] is every
    column in schema order), and the same rows as [SELECT *] whatever
    expressions the select list holds. *)
Theorem select_returns_whole_rows :
  forall select_list from_table where_clause order_by order_desc limit g table,
    getTable from_table (current_database_ g) = Some table ->
    exists rows,
      generateCode
        (Select (SelectStatement.mk select_list from_table where_clause
                   order_by order_desc limit)) g =
        Ok tt (mkCodegen (current_database_ g) rows) /\
      (forall row, In row rows -> In row (rows_ table)) /\
      generateCode
        (Select (SelectStatement.mk [ColumnExpression1 "*"] from_table
                   where_clause order_by order_desc limit)) g =
        Ok tt (mkCodegen (current_database_ g) rows).
Proof.
  intros * Htable.
  exists (List.filter (include_row where_clause) (rows_ table)).
  rewrite !generateCode_Select. simpl. rewrite Htable.
  split; [done|]. split; [|done].
  intros row Hin. by apply filter_In in Hin as [? _].
Qed.

Lemma select_returns_whole_rows_witness :
  exists rows,
    generateCode
      (Select (SelectStatement.mk [LiteralExpression (VInteger 7)] "t" None
                 [] false (-1))) (mkCodegen three_rows []) =
      Ok tt (mkCodegen three_rows rows) /\
    (forall row, In row rows ->
       In row [[VInteger 3]; [VInteger 1]; [VInteger 2]]) /\
    generateCode
      (Select (SelectStatement.mk [ColumnExpression1 "*"] "t" None
                 [] false (-1))) (mkCodegen three_rows []) =
      Ok tt (mkCodegen three_rows rows).
Proof.
  apply (select_returns_whole_rows [LiteralExpression (VInteger 7)] "t" None
           [] false (-1)%Z (mkCodegen three_rows [])
           (mkTable "t" (addColumn (mkColumn "c" INTEGER true false) Schema_empty)
              [[VInteger 3]; [VInteger 1]; [VInteger 2]])).
  reflexivity.
Defined.

(** C2 fails as stated: [SELECT a FROM t] on a table [t (a, b)] holding
    (1, 'x') returns the stored row (1, 'x'), not the projected (1). *)
Lemma select_list_not_projected :
  returned_rows (run_session projection_session) =
    Some [[VInteger 1; VText "x"]] /\
  returned_rows (run_session projection_session) <> Some [[VInteger 1]].
Proof. split; [vm_compute; reflexivity | vm_compute; discriminate]. Qed.

Lemma evaluateWhereClause_literal v row :
  evaluateWhereClause (LiteralExpression v) row =
  match v with VBoolean b => b | _ => true end.
Proof. by destruct v. Qed.

(** C3, as the code has it: without a WHERE clause every stored row is
    returned; with one, a row is returned exactly when
    [evaluateWhereClause] is true on it, where a boolean literal is its
    value, AND and OR combine their two sides, and every other expression
    (a comparison, arithmetic, NOT, a column, a literal that is not a
    boolean) is true.  A SELECT on an existing table never fails: there is
    no TypeMismatch error. *)
Theorem where_clause_filters :
  forall node g table,
    getTable (SelectStatement.from_table node) (current_database_ g)
      = Some table ->
    exists rows,
      generateCode (Select node) g = Ok tt (mkCodegen (current_database_ g) rows) /\
      (forall row,
         In row rows <->
         In row (rows_ table) /\
         match SelectStatement.where_clause node with
         | None => True
         | Some expr => evaluateWhereClause expr row = true
         end) /\
      (SelectStatement.where_clause node = None -> rows = rows_ table) /\
      (forall v,
         SelectStatement.where_clause node = Some (LiteralExpression v) ->
         rows = match v with VBoolean false => [] | _ => rows_ table end) /\
      (forall a op b row,
         evaluateWhereClause (BinaryExpression a op b) row =
         match op with
         | BinaryExpression.AND =>
             evaluateWhereClause a row && evaluateWhereClause b row
         | BinaryExpression.OR =>
             evaluateWhereClause a row || evaluateWhereClause b row
         | _ => true
         end) /\
      (forall op a row, evaluateWhereClause (UnaryExpression op a) row = true) /\
      (forall tn cn row, evaluateWhereClause (ColumnExpression tn cn) row = true).
Proof.
  intros node g table Htable.
  exists (List.filter (include_row (SelectStatement.where_clause node))
            (rows_ table)).
  rewrite generateCode_Select, Htable.
  split; [done|]. split; [|split; [|split; [|split; [|split]]]].
  - intros row. rewrite filter_In. unfold include_row.
    destruct (SelectStatement.where_clause node); [done|].
    split; [by intros [? _] | by intros [? _]].
  - intros ->. simpl. induction (rows_ table) as [|r rs IH]; [done|].
    simpl. by rewrite IH.
  - intros v ->. simpl.
    assert (forall (f : Row -> bool) b (rs : list Row),
              (forall r, f r = b) ->
              List.filter f rs = if b then rs else []) as Hconst.
    { intros f b rs Hf. induction rs as [|r rs IH]; [by destruct b|].
      simpl. rewrite IH, Hf. by destruct b. }
    destruct v as [| | |[]|];
      by rewrite (Hconst (include_row (Some (LiteralExpression _))) _
                    (rows_ table) (fun r => eq_refl)).
  - intros a op b row. simpl. by destruct op.
  - done.
  - done.
Qed.

Lemma where_clause_filters_witness :
  exists rows,
    generateCode
      (Select (SelectStatement.mk [ColumnExpression1 "*"] "t"
                 (Some (LiteralExpression (VBoolean false))) [] false (-1)))
      (mkCodegen three_rows []) = Ok tt (mkCodegen three_rows rows) /\
    rows = [].
Proof.
  destruct (where_clause_filters
              (SelectStatement.mk [ColumnExpression1 "*"] "t"
                 (Some (LiteralExpression (VBoolean false))) [] false (-1)%Z)
              (mkCodegen three_rows [])
              (mkTable "t"
                 (addColumn (mkColumn "c" INTEGER true false) Schema_empty)
                 [[VInteger 3]; [VInteger 1]; [VInteger 2]]) eq_refl)
    as (rows & Hrun & _ & _ & Hliteral & _).
  exists rows. split; [exact Hrun|].
  exact (Hliteral (VBoolean false) eq_refl).
Defined.

(** C3 fails as stated: [WHERE 1], whose expression is the integer 1 and
    not a boolean, is no TypeMismatch error: the statement succeeds with
    every row of the table and leaves the error empty. *)
Lemma where_integer_is_no_error :
  returned_rows (run_session where_integer_session) =
    Some [[VInteger 3]; [VInteger 1]; [VInteger 2]] /\
  returned_error (run_session where_integer_session) = Some "".
Proof. split; vm_compute; reflexivity. Qed.

(** ** INSERT *)

Lemma validateRow_from_no_state {St} schema i rest (s : St) :
  exists b, validateRow_from schema i rest s = Ok b s \/
            exists w, validateRow_from schema i rest s = Throw w s.
Proof.
  revert i. induction rest as [|v rest IH]; intros i; simpl.
  - exists true. by left.
  - unfold bind, getColumn. destruct (columns_ schema !! i) as [col|]; simpl.
    + destruct (negb (nullable col) && isNull v); [exists false; by left|].
      destruct (negb (isNull v) && negb (DataType_eqb (getType v) (col_type col)));
        [exists false; by left|].
      apply IH.
    + exists false. right. by eexists.
Qed.

Lemma insertRow_outcome row t :
  insertRow row t = Ok tt (mkTable (name_ t) (schema_ t) (rows_ t ++ [row])) \/
  exists w, insertRow row t = Throw w t.
Proof.
  unfold insertRow, bind, get, validateRow. simpl.
  destruct (negb (length row =? getColumnCount (schema_ t))); simpl.
  - right. by eexists.
  - destruct (validateRow_from_no_state (schema_ t) 0 row t)
      as [b [-> | [w ->]]].
    + destruct b; simpl; [by left | right; by eexists].
    + right. by eexists.
Qed.

Lemma insert_row_of_outcome {St} value_list row (s : St) :
  (exists values, value_list = literal_row values /\
                  insert_row_of value_list row s = Ok (row ++ values) s) \/
  exists w, insert_row_of value_list row s = Throw w s.
Proof.
  revert row. induction value_list as [|expr value_list IH]; intros row.
  - left. exists []. simpl. by rewrite app_nil_r.
  - destruct expr as [v| | |]; simpl; try (right; by eexists).
    destruct (IH (row ++ [v])) as [(values & -> & Hrun) | [w Hrun]].
    + left. exists (v :: values). split; [done|].
      rewrite Hrun. by rewrite <- app_assoc.
    + right. by eexists.
Qed.

(** What the loop of INSERT leaves in the table: the rows of the value
    lists before the first one that fails. *)
Lemma insert_value_lists_outcome values t :
  match insert_value_lists values t with
  | Ok _ t' =>
      exists rows,
        values = map literal_row rows /\
        t' = mkTable (name_ t) (schema_ t) (rows_ t ++ rows)
  | Throw _ t' =>
      exists rows,
        length rows < length values /\
        take (length rows) values = map literal_row rows /\
        t' = mkTable (name_ t) (schema_ t) (rows_ t ++ rows)
  | Undefined | OutOfFuel => False
  end.
Proof.
  revert t. induction values as [|value_list values IH]; intros t; simpl.
  - exists []. rewrite app_nil_r. by destruct t.
  - unfold bind.
    destruct (insert_row_of_outcome value_list [] t)
      as [(row & -> & ->) | [w ->]].
    + simpl. destruct (insertRow_outcome row t) as [-> | [w ->]].
      * specialize (IH (mkTable (name_ t) (schema_ t) (rows_ t ++ [row]))).
        destruct (insert_value_lists values _) as [[] t'|w t'| |];
          [| |done|done]; destruct IH as (rows & H1 & H2); simpl in *.
        -- exists (row :: rows). subst. simpl. split; [done|].
           by rewrite <- app_assoc.
        -- destruct H2 as [H2 H3]. exists (row :: rows). simpl.
           split; [lia|]. split; [by rewrite H2|].
           subst. by rewrite <- app_assoc.
      * exists []. simpl. split; [lia|]. split; [done|].
        rewrite app_nil_r. by destruct t.
    + exists []. simpl. split; [lia|]. split; [done|].
      rewrite app_nil_r. by destruct t.
Qed.

Lemma literal_row_inj row row' : literal_row row = literal_row row' -> row = row'.
Proof.
  revert row'. induction row as [|v row IH]; intros [|v' row']; simpl;
    try done.
  intros [= -> Hrest]. f_equal. by apply IH.
Qed.

(** C5, as the code has it: the column list of an INSERT is parsed into
    the statement but execution does not use it.  Whatever the column list
    is, the values of a value list fill the row from left to right, the
    i-th value at position i, and the statement does what the same
    statement without column list does. *)
Theorem insert_ignores_column_list :
  forall table_name columns row g table,
    getTable table_name (current_database_ g) = Some table ->
    validateRow table row table = Ok true table ->
    generateCode
      (Insert (InsertStatement.mk table_name columns [literal_row row])) g =
      Ok tt (mkCodegen
               (<[table_name :=
                    mkTable (name_ table) (schema_ table) (rows_ table ++ [row])]>
                  (current_database_ g)) []) /\
    forall values,
      generateCode (Insert (InsertStatement.mk table_name columns values)) g =
      generateCode (Insert (InsertStatement.mk table_name [] values)) g.
Proof.
  intros table_name columns row g table Htable Hvalid. split; [|done].
  unfold generateCode, accept, visit_InsertStatement, bind, get, put,
    on_table, on_database. simpl. rewrite Htable. simpl.
  destruct (insert_row_of_outcome (literal_row row) [] table)
    as [(row' & Hrow & Hrun) | [w Hrun]].
  - apply literal_row_inj in Hrow as <-.
    unfold bind. rewrite Hrun. simpl.
    unfold insertRow, bind, get. rewrite Hvalid. done.
  - exfalso. clear -Hrun. revert Hrun. generalize (@nil Value).
    induction row as [|v row IH]; intros acc; simpl; [done|]. apply IH.
Qed.

Lemma insert_ignores_column_list_witness :
  generateCode
    (Insert (InsertStatement.mk "t" ["c"] [literal_row [VInteger 4]]))
    (mkCodegen three_rows []) =
  Ok tt (mkCodegen
           (<["t" := mkTable "t"
                       (addColumn (mkColumn "c" INTEGER true false) Schema_empty)
                       [[VInteger 3]; [VInteger 1]; [VInteger 2]; [VInteger 4]]]>
              three_rows) []).
Proof.
  apply (proj1 (insert_ignores_column_list "t" ["c"] [VInteger 4]
                  (mkCodegen three_rows [])
                  (mkTable "t"
                     (addColumn (mkColumn "c" INTEGER true false) Schema_empty)
                     [[VInteger 3]; [VInteger 1]; [VInteger 2]])
                  eq_refl eq_refl)).
Defined.

(** C5 fails as stated: after [INSERT INTO t (b, a) VALUES (1, 2)] the row
    stored in [t (a, b)] is (1, 2), the values in the order in which they
    were written, and not (2, 1), which the column list asks for. *)
Lemma column_list_not_applied :
  returned_rows (run_session column_list_session)
    = Some [[VInteger 1; VInteger 2]] /\
  returned_rows (run_session column_list_session)
    <> Some [[VInteger 2; VInteger 1]].
Proof. split; [vm_compute; reflexivity | vm_compute; discriminate]. Qed.

(** ** Schemas *)

Lemma index_of_last_empty : index_of_last Schema_empty.
Proof.
  intros n i. simpl. rewrite lookup_empty. split; [done|].
  intros [(col & Hcol & _) _]. by rewrite lookup_nil in Hcol.
Qed.

Lemma index_of_last_addColumn col s :
  index_of_last s -> index_of_last (addColumn col s).
Proof.
  intros Hs n i. unfold addColumn; simpl.
  destruct (decide (name col = n)) as [<- | Hne].
  - rewrite lookup_insert_eq. split.
    + intros [= <-]. split.
      * exists col. split; [|done].
        rewrite lookup_app_r by lia. by rewrite Nat.sub_diag.
      * intros j c Hj _. apply lookup_lt_Some in Hj.
        rewrite length_app in Hj. simpl in Hj. lia.
    + intros [(c & Hc & _) Hlast]. f_equal.
      apply lookup_lt_Some in Hc. rewrite length_app in Hc. simpl in Hc.
      assert (length (columns_ s) <= i); [|lia].
      apply (Hlast _ col); [|done].
      rewrite lookup_app_r by lia. by rewrite Nat.sub_diag.
  - rewrite lookup_insert_ne by done. rewrite (Hs n i). split.
    + intros [(c & Hc & Hn) Hlast]. split.
      * exists c. split; [|done]. by apply lookup_app_l_Some.
      * intros j c' Hj Hn'.
        destruct (decide (j < length (columns_ s))) as [Hlt|Hge].
        -- rewrite lookup_app_l in Hj by done. by apply (Hlast j c').
        -- rewrite lookup_app_r in Hj by lia.
           destruct (j - length (columns_ s)); simpl in Hj; [|done].
           by injection Hj as <-.
    + intros [(c & Hc & Hn) Hlast].
      assert (i < length (columns_ s)) as Hlt.
      { destruct (decide (i < length (columns_ s))) as [|Hge]; [done|].
        rewrite lookup_app_r in Hc by lia.
        destruct (i - length (columns_ s)); simpl in Hc; [|done].
        injection Hc as <-. done. }
      rewrite lookup_app_l in Hc by done. split.
      * by exists c.
      * intros j c' Hj Hn'. apply (Hlast j c'); [|done].
        by apply lookup_app_l_Some.
Qed.

Lemma fold_addColumn columns s :
  columns_ (fold_left (fun schema col => addColumn col schema) columns s)
    = columns_ s ++ columns /\
  (index_of_last s ->
   index_of_last (fold_left (fun schema col => addColumn col schema) columns s)).
Proof.
  revert s. induction columns as [|col columns IH]; intros s; simpl.
  - by rewrite app_nil_r.
  - destruct (IH (addColumn col s)) as [Hcols Hidx]. split.
    + rewrite Hcols. simpl. by rewrite <- app_assoc.
    + intros Hs. by apply Hidx, index_of_last_addColumn.
Qed.

Lemma schema_of_columns columns : columns_ (schema_of columns) = columns.
Proof. unfold schema_of. by rewrite (proj1 (fold_addColumn columns _)). Qed.

Lemma schema_of_index columns : index_of_last (schema_of columns).
Proof.
  unfold schema_of. apply (proj2 (fold_addColumn columns _)), index_of_last_empty.
Qed.

Lemma generateCode_CreateTable node g :
  generateCode (CreateTable node) g =
  if hasTable (CreateTableStatement.table_name node) (current_database_ g)
  then Throw ("Table already exists: " ++ CreateTableStatement.table_name node)%string
         (mkCodegen (current_database_ g) [])
  else Ok tt
         (mkCodegen
            (<[CreateTableStatement.table_name node :=
                 Table_new (CreateTableStatement.table_name node)
                   (schema_of (CreateTableStatement.columns node))]>
               (current_database_ g)) []).
Proof.
  unfold generateCode, accept, visit_CreateTableStatement, on_database,
    createTable, bind, get, put; simpl.
  by destruct (hasTable _ _).
Qed.

Lemma generateCode_Insert_schemas node g :
  match generateCode (Insert node) g with
  | Ok _ g' | Throw _ g' =>
      forall n t', current_database_ g' !! n = Some t' ->
        exists t, current_database_ g !! n = Some t /\ schema_ t' = schema_ t
  | Undefined | OutOfFuel => False
  end.
Proof.
  unfold generateCode, accept, visit_InsertStatement, bind, get, put,
    on_table, on_database; simpl.
  destruct (getTable _ _) as [table|] eqn:Htable; simpl; [|by eauto].
  pose proof (insert_value_lists_outcome (InsertStatement.values node) table)
    as Hloop.
  assert (forall t' : Table, schema_ t' = schema_ table ->
            forall n t'',
              <[InsertStatement.table_name node := t']> (current_database_ g)
                !! n = Some t'' ->
              exists t, current_database_ g !! n = Some t /\
                        schema_ t'' = schema_ t) as Hkeep.
  { intros t' Hschema n t''.
    destruct (decide (InsertStatement.table_name node = n)) as [<-|Hne].
    - rewrite lookup_insert_eq. intros [= <-]. by exists table.
    - rewrite lookup_insert_ne by done. by eauto. }
  destruct (insert_value_lists _ table) as [[] t'|w' t'| |]; try done; simpl.
  - destruct Hloop as (rows & _ & ->). by apply Hkeep.
  - destruct Hloop as (rows & _ & _ & ->). by apply Hkeep.
Qed.

(** C8, as the code has it: column names need not be unique.  CREATE TABLE
    refuses only a table name that exists; it keeps every declared column,
    in order, also when names repeat.  After every statement, whether it
    succeeded or failed, the name index of each table's schema holds
    exactly the names of its columns, each with the position of its last
    occurrence; where the declared names are pairwise different, the names
    of the schema are unique and the index gives each column its own
    position. *)
Theorem schema_index_points_to_last_occurrence :
  (forall n columns g,
     current_database_ g !! n = None ->
     generateCode (CreateTable (CreateTableStatement.mk n columns)) g =
       Ok tt (mkCodegen (<[n := Table_new n (schema_of columns)]>
                           (current_database_ g)) []) /\
     columns_ (schema_of columns) = columns /\
     index_of_last (schema_of columns) /\
     (NoDup (map name columns) ->
      forall i col, columns !! i = Some col ->
        column_index_ (schema_of columns) !! name col = Some i)) /\
  (forall statement g,
     database_indexed (current_database_ g) ->
     match generateCode statement g with
     | Ok _ g' | Throw _ g' => database_indexed (current_database_ g')
     | Undefined | OutOfFuel => False
     end).
Proof.
  split.
  - intros n columns g Hfresh. split; [|split; [|split]].
    + rewrite generateCode_CreateTable. unfold hasTable. simpl.
      by rewrite Hfresh.
    + apply schema_of_columns.
    + apply schema_of_index.
    + intros Hnodup i col Hcol.
      apply (schema_of_index columns). rewrite schema_of_columns. split.
      * by exists col.
      * intros j col' Hcol' Hname.
        assert (j = i); [|lia].
        apply (NoDup_lookup (map name columns) j i (name col)); [done| |].
        -- rewrite list_lookup_fmap, Hcol'. simpl. by rewrite Hname.
        -- by rewrite list_lookup_fmap, Hcol.
  - intros statement g Hdb. destruct statement as [node|node|node|node].
    + rewrite generateCode_Select. by destruct (getTable _ _).
    + pose proof (generateCode_Insert_schemas node g) as Hschemas.
      destruct (generateCode (Insert node) g) as [[] g'|w g'| |]; try done;
        intros n t' Ht'; destruct (Hschemas n t' Ht') as (t & Ht & ->);
        by apply (Hdb n t).
    + rewrite generateCode_CreateTable.
      destruct (hasTable _ _); [done|]. simpl. intros n t.
      destruct (decide (CreateTableStatement.table_name node = n)) as [<-|Hne].
      * rewrite lookup_insert_eq. intros [= <-]. apply schema_of_index.
      * rewrite lookup_insert_ne by done. apply Hdb.
    + unfold generateCode, accept, visit_DropTableStatement, on_database,
        dropTable, bind, get, put; simpl.
      intros n t Hlookup. apply lookup_delete_Some in Hlookup as [_ Hlookup].
      by apply (Hdb n t).
Qed.

Lemma schema_index_points_to_last_occurrence_witness :
  column_index_
    (schema_of [mkColumn "a" INTEGER true false; mkColumn "b" TEXT true false])
    !! "b" = Some 1.
Proof.
  destruct (proj1 schema_index_points_to_last_occurrence "t"
              [mkColumn "a" INTEGER true false; mkColumn "b" TEXT true false]
              (mkCodegen ∅ [])) as (_ & _ & _ & Hindex).
  - vm_compute. reflexivity.
  - refine (Hindex _ 1 (mkColumn "b" TEXT true false) eq_refl).
    simpl. apply NoDup_cons. split; [|apply NoDup_singleton].
    intros Hin. apply list_elem_of_singleton in Hin. discriminate Hin.
Defined.

(** C8 fails as stated: [CREATE TABLE t (a INTEGER, a TEXT)] succeeds, the
    schema of [t] then has two columns named [a], and its name index sends
    [a] to position 1 while position 0 holds a column of that name too. *)
Lemma duplicate_column_names_accepted :
  match run_session duplicate_column_session with
  | Ok _ e =>
      last_error_ e = "" /\
      (map name <$> (columns_ <$> (schema_ <$> engine_table "t" e)))
        = Some ["a"; "a"] /\
      ((fun t => column_index_ (schema_ t) !! "a") <$> engine_table "t" e)
        = Some (Some 1)
  | _ => False
  end.
Proof. vm_compute. repeat split. Qed.

(** ** The lexer *)

Lemma TokenType_eqb_eq a b : TokenType_eqb a b = true <-> a = b.
Proof.
  split; [|intros ->; unfold TokenType_eqb; apply Nat.eqb_refl].
  unfold TokenType_eqb. intros H. apply Nat.eqb_eq in H.
  destruct a; (destruct b; (reflexivity || discriminate H)).
Qed.

Lemma TokenType_eqb_neq a b : TokenType_eqb a b = false <-> a <> b.
Proof.
  rewrite <- TokenType_eqb_eq. by destruct (TokenType_eqb a b).
Qed.

Module LexerFacts.
Import Lexer.

Lemma hasNext_remaining l : hasNext l = true <-> 0 < remaining l.
Proof.
  unfold hasNext, remaining. destruct (input_ l); simpl; split; (done || lia).
Qed.

Lemma skipWhitespace_from_remaining s pos ln col :
  remaining (skipWhitespace_from s pos ln col) <= String.length s.
Proof.
  revert pos ln col. induction s as [|c s IH]; intros pos ln col; simpl.
  - done.
  - destruct (isspace c); [|simpl; unfold remaining; simpl; lia].
    destruct (Ascii.eqb c "010"); etrans; (apply IH || lia).
Qed.

Lemma skipWhitespace_remaining l : remaining (skipWhitespace l) <= remaining l.
Proof. apply skipWhitespace_from_remaining. Qed.

Lemma skipComment_from_remaining s pos ln col :
  remaining (skipComment_from s pos ln col) <= String.length s.
Proof.
  revert pos ln col. induction s as [|c s IH]; intros pos ln col; simpl.
  - done.
  - destruct (Ascii.eqb c "010"); [unfold remaining; simpl; lia|].
    etrans; [apply IH | lia].
Qed.

(** A comment starts with a dash, which is not a newline, so skipping it
    consumes something. *)
Lemma skipComment_remaining l :
  peek l = "-"%char -> hasNext l = true ->
  remaining (skipComment l) < remaining l.
Proof.
  unfold peek, hasNext, skipComment, remaining.
  destruct (input_ l) as [|c s]; [done|]. intros -> _. simpl.
  pose proof (skipComment_from_remaining s (S (position_ l)) (line_ l)
                (S (column_ l))) as H.
  unfold remaining in H. lia.
Qed.

Lemma advance_remaining l :
  hasNext l = true -> S (remaining (snd (advance l))) = remaining l.
Proof.
  unfold hasNext, advance, remaining. by destruct (input_ l).
Qed.

Lemma advance_remaining_le l : remaining (snd (advance l)) <= remaining l.
Proof.
  unfold advance, remaining.
  destruct (input_ l) eqn:Hin; simpl; rewrite ?Hin; simpl; lia.
Qed.

Lemma readString_from_remaining quote s v pos ln col :
  remaining (snd (readString_from quote s v pos ln col)) <= String.length s.
Proof.
  remember (String.length s) as n eqn:Hn.
  assert (String.length s <= n) as Hle by lia. rewrite Hn. clear Hn.
  revert s Hle v pos ln col.
  induction n as [|n IH]; intros s Hle v pos ln col;
    (destruct s as [|c r]; simpl in *; [done|]); [lia|].
  destruct (Ascii.eqb c quote); [unfold remaining; simpl; lia|].
  destruct (Ascii.eqb c "092").
  - destruct r as [|escaped r'].
    + simpl. unfold remaining; simpl; lia.
    + etrans; [apply IH; simpl in *; lia | simpl; lia].
  - etrans; [apply IH; lia | lia].
Qed.

Lemma readString_remaining l :
  hasNext l = true -> remaining (snd (readString l)) < remaining l.
Proof.
  intros Hnext. unfold readString.
  pose proof (advance_remaining l Hnext) as Hadv.
  destruct (advance l) as [quote l1]. simpl in Hadv.
  pose proof (readString_from_remaining quote (input_ l1) ""
                (position_ l1) (line_ l1) (column_ l1)) as Hloop.
  destruct (readString_from quote (input_ l1) "" _ _ _) as [v l2].
  simpl in *.
  assert (remaining (if hasNext l2 && Ascii.eqb (peek l2) quote
                     then snd (advance l2) else l2) <= remaining l2) as Hclose.
  { destruct (hasNext l2 && _); [apply advance_remaining_le | done]. }
  unfold remaining in *. lia.
Qed.

Lemma readNumber_from_remaining s v hasDecimal pos ln col :
  remaining (snd (readNumber_from s v hasDecimal pos ln col)) <= String.length s.
Proof.
  revert v hasDecimal pos ln col.
  induction s as [|c s IH]; intros v hasDecimal pos ln col; simpl; [done|].
  destruct (isDigit c || negb hasDecimal && Ascii.eqb c ".");
    [etrans; [apply IH | lia] | unfold remaining; simpl; lia].
Qed.

Lemma readNumber_remaining l :
  hasNext l = true -> isDigit (peek l) = true ->
  remaining (snd (readNumber l)) < remaining l.
Proof.
  unfold readNumber, hasNext, peek.
  destruct l as [s pos ln col]; simpl. destruct s as [|c s]; [done|].
  intros _ Hdigit. simpl. rewrite Hdigit. simpl.
  pose proof (readNumber_from_remaining s (append_char "" c)
                (if Ascii.eqb c "." then true else false) (S pos) ln (S col))
    as Hloop.
  destruct (readNumber_from s _ _ (S pos) ln (S col)) as [[v d] l1].
  simpl in *. unfold remaining in *. simpl. lia.
Qed.

Lemma readIdentifier_from_remaining s v pos ln col :
  remaining (snd (readIdentifier_from s v pos ln col)) <= String.length s.
Proof.
  revert v pos ln col.
  induction s as [|c s IH]; intros v pos ln col; simpl; [done|].
  destruct (isAlphaNumeric c);
    [etrans; [apply IH | lia] | unfold remaining; simpl; lia].
Qed.

Lemma readIdentifier_snd l :
  snd (readIdentifier l) =
  snd (readIdentifier_from (input_ l) "" (position_ l) (line_ l) (column_ l)).
Proof.
  unfold readIdentifier.
  destruct (readIdentifier_from _ _ _ _ _) as [v l1].
  by destruct (keywords_ !! string_map toupper v).
Qed.

Lemma readIdentifier_remaining l :
  hasNext l = true -> isAlpha (peek l) = true ->
  remaining (snd (readIdentifier l)) < remaining l.
Proof.
  rewrite readIdentifier_snd. unfold hasNext, peek, remaining.
  destruct (input_ l) as [|c s]; [done|].
  intros _ Halpha. cbn [readIdentifier_from]. unfold isAlphaNumeric.
  rewrite Halpha. cbn [orb].
  pose proof (readIdentifier_from_remaining s (append_char "" c)
                (S (position_ l)) (line_ l) (S (column_ l))) as Hloop.
  unfold remaining in Hloop. cbn [String.length]. lia.
Qed.

Lemma nextToken_punct_remaining c l :
  hasNext l = true -> remaining (snd (nextToken_punct c l)) < remaining l.
Proof.
  intros Hnext. pose proof (advance_remaining l Hnext) as H1.
  pose proof (advance_remaining_le (snd (advance l))) as H2.
  unfold nextToken_punct.
  repeat match goal with
         | |- context [if ?b then _ else _] => destruct b
         end; simpl; lia.
Qed.

Lemma nextToken_fuel_progress fuel l :
  remaining l < fuel ->
  exists token l',
    nextToken_fuel fuel l = Some (token, l') /\
    (type token = EOF_TOKEN \/ remaining l' < remaining l).
Proof.
  revert l. induction fuel as [|fuel IH]; intros l Hfuel; [lia|].
  cbn [nextToken_fuel].
  pose proof (skipWhitespace_remaining l) as Hskip.
  set (l1 := skipWhitespace l) in *.
  destruct (hasNext l1) eqn:Hnext; cbn [negb].
  - destruct (Ascii.eqb (peek l1) "-" && second_is_dash l1) eqn:Hcomment.
    + apply andb_true_iff in Hcomment as [Hdash _].
      apply Ascii.eqb_eq in Hdash.
      pose proof (skipComment_remaining l1 Hdash Hnext) as Hcom.
      destruct (IH (skipComment l1)) as (token & l' & -> & Hprog); [lia|].
      exists token, l'. split; [done|]. destruct Hprog; [by left | right; lia].
    + destruct (Ascii.eqb (peek l1) "039" || Ascii.eqb (peek l1) "034").
      { exists (fst (readString l1)), (snd (readString l1)).
        split; [by rewrite <- surjective_pairing|].
        right. pose proof (readString_remaining l1 Hnext). lia. }
      destruct (isDigit (peek l1)) eqn:Hdigit.
      { exists (fst (readNumber l1)), (snd (readNumber l1)).
        split; [by rewrite <- surjective_pairing|].
        right. pose proof (readNumber_remaining l1 Hnext Hdigit). lia. }
      destruct (isAlpha (peek l1)) eqn:Halpha.
      { exists (fst (readIdentifier l1)), (snd (readIdentifier l1)).
        split; [by rewrite <- surjective_pairing|].
        right. pose proof (readIdentifier_remaining l1 Hnext Halpha). lia. }
      exists (fst (nextToken_punct (peek l1) l1)),
             (snd (nextToken_punct (peek l1) l1)).
      split; [by rewrite <- surjective_pairing|].
      right. pose proof (nextToken_punct_remaining (peek l1) l1 Hnext). lia.
  - exists (makeToken l1 EOF_TOKEN ""), l1. split; [done|]. by left.
Qed.

Lemma nextToken_progress l :
  exists token l',
    nextToken l = Some (token, l') /\
    (type token = EOF_TOKEN \/ remaining l' < remaining l).
Proof. apply nextToken_fuel_progress. unfold remaining. lia. Qed.

(** The loop of [tokenize] ends within the fuel of one unit per character;
    it pushes no INVALID token, and an end-of-input token only as the last
    one. *)
Lemma tokenize_loop_outcome fuel l acc :
  remaining l <= fuel ->
  Forall (fun token => type token <> INVALID) acc ->
  Forall (fun token => type token <> EOF_TOKEN) acc ->
  exists tokens,
    tokenize_loop fuel l acc = Some tokens /\
    Forall (fun token => type token <> INVALID) tokens /\
    eof_only_last tokens.
Proof.
  revert l acc. induction fuel as [|fuel IH]; intros l acc Hfuel Hinv Heof.
  - cbn [tokenize_loop].
    destruct (hasNext l) eqn:Hnext.
    + apply hasNext_remaining in Hnext. lia.
    + exists acc. repeat split; [done|]. exists acc. split; [done | by left].
  - cbn [tokenize_loop].
    destruct (hasNext l) eqn:Hnext; cbn [negb].
    2:{ exists acc. repeat split; [done|]. exists acc. split; [done | by left]. }
    destruct (nextToken_progress l) as (token & l' & -> & Hprog).
    destruct (TokenType_eqb (type token) EOF_TOKEN) eqn:Htype.
    + apply TokenType_eqb_eq in Htype. rewrite Htype. cbn.
      exists (acc ++ [token]). split; [done|]. split.
      * apply Forall_app. split; [done|]. constructor; [|done].
        by rewrite Htype.
      * exists acc. split; [done|]. right. by exists token.
    + apply TokenType_eqb_neq in Htype.
      destruct Hprog as [Habs | Hprog]; [done|].
      destruct (TokenType_eqb (type token) INVALID) eqn:Hinvalid; cbn [negb].
      * apply IH; [lia | done | done].
      * apply TokenType_eqb_neq in Hinvalid.
        apply IH; [lia | |]; apply Forall_app; (split; [done|]);
          by constructor.
Qed.

Lemma tokenize_opt_total input :
  exists tokens,
    tokenize_opt input = Some tokens /\
    tokenize input = tokens /\
    Forall (fun token => type token <> INVALID) tokens /\
    eof_only_last tokens.
Proof.
  destruct (tokenize_loop_outcome (String.length input) (Lexer.new input) [])
    as (tokens & Hrun & Hinv & Heof); [done | done | done |].
  exists tokens. unfold tokenize, tokenize_opt. by rewrite Hrun.
Qed.

End LexerFacts.

(** ** The parser: its primitives in closed form *)

Module ParserFacts.
Import Parser.

Lemma peek_eq p :
  peek p = match tokens_ p !! current_ p with
           | Some token => Ok token p
           | None => Undefined
           end.
Proof. done. Qed.

Lemma check_eq ty p :
  check ty p = match tokens_ p !! current_ p with
               | Some token => Ok (accepts ty token) p
               | None => Undefined
               end.
Proof.
  unfold check, isAtEnd, bind, peek, ret, accepts.
  destruct (tokens_ p !! current_ p) as [token|] eqn:Hlook; [|done].
  destruct (TokenType_eqb (type token) EOF_TOKEN); [done|].
  by rewrite Hlook.
Qed.

Lemma advance_eq p token :
  tokens_ p !! current_ p = Some token ->
  TokenType_eqb (type token) EOF_TOKEN = false ->
  advance p = Ok token (mk (tokens_ p) (S (current_ p))).
Proof.
  intros Hlook Heof. unfold advance, isAtEnd, bind, peek, ret, previous.
  rewrite Hlook, Heof. simpl. by rewrite Hlook.
Qed.

Lemma match__eq ty p :
  match_ ty p =
  match tokens_ p !! current_ p with
  | Some token =>
      if accepts ty token then Ok true (mk (tokens_ p) (S (current_ p)))
      else Ok false p
  | None => Undefined
  end.
Proof.
  unfold match_, bind. rewrite check_eq.
  destruct (tokens_ p !! current_ p) as [token|] eqn:Hlook; [|done].
  destruct (accepts ty token) eqn:Hacc; [|done].
  apply andb_true_iff in Hacc as [Heof _]. apply negb_true_iff in Heof.
  by rewrite (advance_eq p token Hlook Heof).
Qed.

Lemma match_any_eq types p :
  match_any types p =
  match types, tokens_ p !! current_ p with
  | [], _ => Ok false p
  | _ :: _, Some token =>
      if existsb (fun ty => accepts ty token) types
      then Ok true (mk (tokens_ p) (S (current_ p)))
      else Ok false p
  | _ :: _, None => Undefined
  end.
Proof.
  induction types as [|ty types IH]; [done|].
  cbn [match_any]. unfold bind. rewrite check_eq.
  destruct (tokens_ p !! current_ p) as [token|] eqn:Hlook; [|done].
  cbn [existsb]. destruct (accepts ty token) eqn:Hacc.
  - apply andb_true_iff in Hacc as [Heof _]. apply negb_true_iff in Heof.
    by rewrite (advance_eq p token Hlook Heof).
  - rewrite IH. cbn [orb]. by destruct types.
Qed.

Lemma error_eq {A} message p :
  @error A message p =
  match tokens_ p !! current_ p with
  | Some token =>
      let error_msg :=
        ("Parse error at token " ++ to_string (current_ p) ++ ": " ++ message)%string in
      Throw (if TokenType_eqb (type token) EOF_TOKEN then error_msg
             else (error_msg ++ " (got '" ++ value token ++ "')")%string) p
  | None => Undefined
  end.
Proof.
  unfold error, isAtEnd, peek. unfold bind, get, ret, throw.
  destruct (tokens_ p !! current_ p) as [token|] eqn:Hlook; [|done].
  cbv beta iota.
  destruct (TokenType_eqb (type token) EOF_TOKEN); [done|].
  by rewrite Hlook.
Qed.

Lemma consume_eq ty message p :
  consume ty message p =
  match tokens_ p !! current_ p with
  | Some token =>
      if accepts ty token then Ok tt (mk (tokens_ p) (S (current_ p)))
      else @error unit message p
  | None => Undefined
  end.
Proof.
  unfold consume, bind. rewrite check_eq.
  destruct (tokens_ p !! current_ p) as [token|] eqn:Hlook; [|done].
  destruct (accepts ty token) eqn:Hacc; [|done].
  apply andb_true_iff in Hacc as [Heof _]. apply negb_true_iff in Heof.
  by rewrite (advance_eq p token Hlook Heof).
Qed.

Lemma previous_eq p :
  previous p = match current_ p with
               | 0 => Undefined
               | S k => match tokens_ p !! k with
                        | Some token => Ok token p
                        | None => Undefined
                        end
               end.
Proof. done. Qed.

(** *** No parser runs out of fuel *)

Lemma rem_step p token :
  tokens_ p !! current_ p = Some token ->
  rem (mk (tokens_ p) (S (current_ p))) < rem p.
Proof. intros H%lookup_lt_Some. unfold rem. simpl. lia. Qed.

Lemma strict_safe {A} n (m : P A) : strict n m -> safe n m.
Proof.
  intros Hm p Hp. specialize (Hm p Hp).
  destruct (m p); try done. destruct Hm. split; [done | lia].
Qed.

Lemma safe_le {A} n n' (m : P A) : n' <= n -> safe n m -> safe n' m.
Proof. intros Hle Hm p Hp. apply Hm. lia. Qed.

Lemma strict_le {A} n n' (m : P A) : n' <= n -> strict n m -> strict n' m.
Proof. intros Hle Hm p Hp. apply Hm. lia. Qed.

Lemma safe_ret {A} n (a : A) : safe n (ret a).
Proof. intros p _. simpl. done. Qed.

Lemma strict_throw {A} n w : strict n (@throw t A w).
Proof. by intros p _. Qed.

Lemma strict_error {A} n message : strict n (@error A message).
Proof. intros p _. rewrite error_eq. by destruct (tokens_ p !! current_ p). Qed.

Lemma safe_previous n : safe n previous.
Proof.
  intros p _. rewrite previous_eq. destruct (current_ p); [done|].
  by destruct (tokens_ p !! _).
Qed.

Lemma strict_consume n ty message : strict n (consume ty message).
Proof.
  intros p _. rewrite consume_eq.
  destruct (tokens_ p !! current_ p) as [token|] eqn:Hlook; [|done].
  destruct (accepts ty token).
  - split; [done|]. by apply (rem_step p token).
  - rewrite error_eq, Hlook. done.
Qed.

Lemma safe_bind {A B} n (m : P A) (k : A -> P B) :
  safe n m -> (forall a, safe n (k a)) -> safe n (bind m k).
Proof.
  intros Hm Hk p Hp. unfold bind. specialize (Hm p Hp).
  destruct (m p) as [a p'| | |]; try done. destruct Hm as [Htok Hrem].
  specialize (Hk a p' ltac:(lia)).
  destruct (k a p'); try done. destruct Hk. split; [congruence | lia].
Qed.

Lemma strict_bind_l {A B} n (m : P A) (k : A -> P B) :
  strict n m -> (forall a, safe (n - 1) (k a)) -> strict n (bind m k).
Proof.
  intros Hm Hk p Hp. unfold bind. specialize (Hm p Hp).
  destruct (m p) as [a p'| | |]; try done. destruct Hm as [Htok Hrem].
  specialize (Hk a p' ltac:(lia)).
  destruct (k a p'); try done. destruct Hk. split; [congruence | lia].
Qed.

Lemma strict_bind_r {A B} n (m : P A) (k : A -> P B) :
  safe n m -> (forall a, strict n (k a)) -> strict n (bind m k).
Proof.
  intros Hm Hk p Hp. unfold bind. specialize (Hm p Hp).
  destruct (m p) as [a p'| | |]; try done. destruct Hm as [Htok Hrem].
  specialize (Hk a p' ltac:(lia)).
  destruct (k a p'); try done. destruct Hk. split; [congruence | lia].
Qed.

(** After a successful [match] a token is gone: the branch taken then may
    count on one token less. *)
Lemma safe_match {B} n ty (kt kf : P B) :
  safe (n - 1) kt -> safe n kf ->
  safe n (bind (match_ ty) (fun b => if b then kt else kf)).
Proof.
  intros Ht Hf p Hp. unfold bind. rewrite match__eq.
  destruct (tokens_ p !! current_ p) as [token|] eqn:Hlook; [|done].
  pose proof (rem_step p token Hlook) as Hstep.
  destruct (accepts ty token).
  - specialize (Ht (mk (tokens_ p) (S (current_ p))) ltac:(lia)).
    destruct (kt _); try done. destruct Ht. split; [done | lia].
  - by apply Hf.
Qed.

Lemma strict_match {B} n ty (kt kf : P B) :
  safe (n - 1) kt -> strict n kf ->
  strict n (bind (match_ ty) (fun b => if b then kt else kf)).
Proof.
  intros Ht Hf p Hp. unfold bind. rewrite match__eq.
  destruct (tokens_ p !! current_ p) as [token|] eqn:Hlook; [|done].
  pose proof (rem_step p token Hlook) as Hstep.
  destruct (accepts ty token).
  - specialize (Ht (mk (tokens_ p) (S (current_ p))) ltac:(lia)).
    destruct (kt _); try done. destruct Ht. split; [done | lia].
  - by apply Hf.
Qed.

Lemma safe_match_any {B} n types (kt kf : P B) :
  safe (n - 1) kt -> safe n kf ->
  safe n (bind (match_any types) (fun b => if b then kt else kf)).
Proof.
  intros Ht Hf p Hp. unfold bind. rewrite match_any_eq.
  destruct types as [|ty types]; [by apply Hf|].
  destruct (tokens_ p !! current_ p) as [token|] eqn:Hlook; [|done].
  pose proof (rem_step p token Hlook) as Hstep.
  destruct (existsb _ _).
  - specialize (Ht (mk (tokens_ p) (S (current_ p))) ltac:(lia)).
    destruct (kt _); try done. destruct Ht. split; [done | lia].
  - by apply Hf.
Qed.

Lemma strict_match_any {B} n types (kt kf : P B) :
  safe (n - 1) kt -> strict n kf ->
  strict n (bind (match_any types) (fun b => if b then kt else kf)).
Proof.
  intros Ht Hf p Hp. unfold bind. rewrite match_any_eq.
  destruct types as [|ty types]; [by apply Hf|].
  destruct (tokens_ p !! current_ p) as [token|] eqn:Hlook; [|done].
  pose proof (rem_step p token Hlook) as Hstep.
  destruct (existsb _ _).
  - specialize (Ht (mk (tokens_ p) (S (current_ p))) ltac:(lia)).
    destruct (kt _); try done. destruct Ht. split; [done | lia].
  - by apply Hf.
Qed.

Lemma safe_match_ n ty : safe n (match_ ty).
Proof.
  intros p _. rewrite match__eq.
  destruct (tokens_ p !! current_ p) as [token|] eqn:Hlook; [|done].
  pose proof (rem_step p token Hlook).
  destruct (accepts ty token); (split; [done | lia]).
Qed.

Lemma safe_match_any_ n types : safe n (match_any types).
Proof.
  intros p _. rewrite match_any_eq. destruct types as [|ty types]; [done|].
  destruct (tokens_ p !! current_ p) as [token|] eqn:Hlook; [|done].
  pose proof (rem_step p token Hlook).
  destruct (existsb _ _); (split; [done | lia]).
Qed.

Lemma strict_out_of_range {A} (m : P A) : strict 0 m.
Proof. intros p Hp. lia. Qed.

Create HintDb safety.

(** Goals [safe n m] and [strict n m], by the shape of [m]. *)
Ltac safety :=
  lazymatch goal with
  | |- forall _, _ => intros; safety
  | |- safe _ (ret _) => apply safe_ret
  | |- safe _ previous => apply safe_previous
  | |- safe _ (match_ _) => apply safe_match_
  | |- safe _ (match_any _) => apply safe_match_any_
  | |- strict _ (consume _ _) => apply strict_consume
  | |- strict _ (error _) => apply strict_error
  | |- strict _ (throw _) => apply strict_throw
  | |- safe _ (bind _ _) =>
      first [ apply safe_match; safety
            | apply safe_match_any; safety
            | apply safe_bind; safety
            | apply strict_safe; safety ]
  | |- strict _ (bind _ _) =>
      first [ apply strict_match; safety
            | apply strict_match_any; safety
            | apply strict_bind_l; safety
            | apply strict_bind_r; safety ]
  | |- safe _ (if ?b then _ else _) => destruct b; safety
  | |- strict _ (if ?b then _ else _) => destruct b; safety
  | |- safe _ (match ?x with _ => _ end) => destruct x; safety
  | |- strict _ (match ?x with _ => _ end) => destruct x; safety
  | |- safe _ _ =>
      first [ eassumption
            | solve [eauto with safety]
            | apply strict_safe; safety ]
  | |- strict _ _ => first [ eassumption | solve [eauto with safety] ]
  end.

Lemma strict_do_while_comma {A} fuel n (body : P A) acc :
  n <= fuel -> strict n body -> strict n (do_while_comma fuel body acc).
Proof.
  revert n acc. induction fuel as [|fuel IH]; intros n acc Hn Hbody.
  - replace n with 0 by lia. apply strict_out_of_range.
  - cbn [do_while_comma]. apply strict_bind_l; [done|]. intros x.
    apply safe_match; [|apply safe_ret].
    apply strict_safe, IH; [lia|]. by apply (strict_le n); [lia|].
Qed.

Lemma safe_parseValue n token : safe n (parseValue token).
Proof.
  unfold parseValue.
  destruct (type token); try (apply strict_safe, strict_error);
    try apply safe_ret.
  - destruct (stoll _); [apply safe_ret | apply strict_safe, strict_throw].
  - destruct (stod _); [apply safe_ret | apply strict_safe, strict_throw].
Qed.

Lemma strict_parseDataType n : strict n parseDataType.
Proof. unfold parseDataType. safety. Qed.

Lemma safe_binary_loop fuel n types op_of operand expr :
  n <= fuel -> strict n operand ->
  safe n (binary_loop fuel types op_of operand expr).
Proof.
  revert n expr. induction fuel as [|fuel IH]; intros n expr Hn Hoperand.
  - replace n with 0 by lia. apply strict_safe, strict_out_of_range.
  - cbn [binary_loop]. apply safe_match_any; [|apply safe_ret].
    apply safe_bind; [apply safe_previous|]. intros token.
    apply strict_safe, strict_bind_l; [by apply (strict_le n); [lia|]|].
    intros right_. apply IH; [lia|]. by apply (strict_le n); [lia|].
Qed.

Section LevelsSafe.
Variables (fuel n : nat) (unary : P Expression).
Hypothesis Hn : n <= fuel.
Hypothesis Hunary : strict n unary.

Local Ltac level sub :=
  apply strict_bind_l; [exact sub|]; intros expr;
  apply safe_binary_loop; [lia|]; apply (strict_le n); [lia | exact sub].

Lemma strict_parseFactorExpression :
  strict n (parseFactorExpression fuel unary).
Proof. level Hunary. Qed.

Lemma strict_parseTermExpression :
  strict n (parseTermExpression fuel unary).
Proof. level strict_parseFactorExpression. Qed.

Lemma strict_parseComparisonExpression :
  strict n (parseComparisonExpression fuel unary).
Proof. level strict_parseTermExpression. Qed.

Lemma strict_parseEqualityExpression :
  strict n (parseEqualityExpression fuel unary).
Proof. level strict_parseComparisonExpression. Qed.

Lemma strict_parseAndExpression :
  strict n (parseAndExpression fuel unary).
Proof. level strict_parseEqualityExpression. Qed.

Lemma strict_parseOrExpression :
  strict n (parseOrExpression fuel unary).
Proof. level strict_parseAndExpression. Qed.
End LevelsSafe.

Lemma strict_parsePrimaryExpression n parseExpression :
  strict (n - 1) parseExpression ->
  strict n (parsePrimaryExpression parseExpression).
Proof.
  intros Hrec. unfold parsePrimaryExpression.
  apply strict_match_any; [safety|].
  apply strict_match; [safety|].
  apply strict_match_any.
  { apply safe_bind; [apply safe_previous|]. intros token.
    apply safe_bind; [apply safe_parseValue | safety]. }
  apply strict_match.
  { apply safe_bind; [apply safe_previous|]. intros token. cbv zeta.
    apply safe_match; [|safety].
    apply strict_safe, strict_bind_l; [apply strict_consume | safety]. }
  apply strict_match; [|apply strict_error].
  apply strict_safe, strict_bind_l; [exact Hrec|]. intros expr.
  apply strict_safe, strict_bind_l; [apply strict_consume | safety].
Qed.

Lemma strict_parseUnaryExpression fuel n :
  n <= fuel -> strict n (parseUnaryExpression fuel).
Proof.
  revert n. induction fuel as [|fuel IH]; intros n Hn.
  - replace n with 0 by lia. apply strict_out_of_range.
  - cbn [parseUnaryExpression]. apply strict_match_any.
    + apply safe_bind; [apply safe_previous|]. intros token. cbv zeta.
      apply safe_bind; [apply strict_safe, IH; lia | safety].
    + apply strict_parsePrimaryExpression.
      apply strict_parseOrExpression; [lia | apply IH; lia].
Qed.

Lemma strict_parseExpression fuel n :
  n <= fuel -> strict n (parseExpression fuel).
Proof.
  intros Hn. apply strict_parseOrExpression; [done|].
  by apply strict_parseUnaryExpression.
Qed.

Lemma safe_parseColumnConstraints fuel n nullable primary_key :
  n <= fuel -> safe n (parseColumnConstraints fuel nullable primary_key).
Proof.
  revert n nullable primary_key.
  induction fuel as [|fuel IH]; intros n nullable primary_key Hn.
  - replace n with 0 by lia. apply strict_safe, strict_out_of_range.
  - cbn [parseColumnConstraints]. apply safe_match_any; [|apply safe_ret].
    apply safe_bind; [apply safe_previous|]. intros token.
    assert (forall a b, safe (n - 1) (parseColumnConstraints fuel a b)) as Hrec
      by (intros; apply IH; lia).
    destruct (String.eqb (value token) "NOT"); [safety|].
    destruct (String.eqb (value token) "PRIMARY"); [|safety].
    apply strict_safe, strict_bind_l; [apply strict_consume|]. intros _.
    apply safe_bind; [apply safe_previous|]. intros key.
    apply safe_bind; [|intros; apply (safe_le (n - 1)); [lia | apply Hrec]].
    destruct (negb _); [apply strict_safe, strict_error | apply safe_ret].
Qed.

#[local] Hint Resolve strict_parseExpression strict_do_while_comma
  strict_parseDataType safe_parseColumnConstraints : safety.

Lemma safe_parseSelectStatement fuel n :
  n <= fuel -> safe n (parseSelectStatement fuel).
Proof.
  intros Hn. unfold parseSelectStatement.
  apply strict_safe, strict_bind_l.
  { apply strict_do_while_comma; [done|].
    apply strict_match; [safety | by apply strict_parseExpression]. }
  intros select_list.
  apply strict_safe, strict_bind_l; [apply strict_consume|]. intros _.
  apply strict_safe, strict_bind_l; [apply strict_consume|]. intros _.
  apply safe_bind; [apply safe_previous|]. intros table.
  assert (forall m, m <= n -> strict m (parseExpression fuel)) as Hexpr
    by (intros; apply strict_parseExpression; lia).
  apply safe_bind; [apply safe_match_|]. intros has_where.
  apply safe_bind.
  { destruct has_where; [|apply safe_ret].
    apply strict_safe, strict_bind_l; [apply Hexpr; lia | safety]. }
  intros where_clause.
  apply safe_bind; [apply safe_match_|]. intros has_order.
  apply safe_bind.
  { destruct has_order; [|apply safe_ret].
    apply strict_safe, strict_bind_l; [apply strict_consume|]. intros _.
    apply safe_bind.
    { apply strict_safe, strict_do_while_comma; [lia|].
      apply strict_bind_l; [apply strict_consume | safety]. }
    intros order_by. safety. }
  intros order.
  apply safe_bind; [apply safe_match_|]. intros has_limit.
  apply safe_bind; [|safety].
  destruct has_limit; [|apply safe_ret].
  apply strict_safe, strict_bind_l; [apply strict_consume|]. intros _.
  apply safe_bind; [apply safe_previous|]. intros number.
  destruct (stoi _); [apply safe_ret | apply strict_safe, strict_throw].
Qed.

Lemma safe_parseInsertStatement fuel n :
  n <= fuel -> safe n (parseInsertStatement fuel).
Proof.
  intros Hn. unfold parseInsertStatement.
  apply strict_safe, strict_bind_l; [apply strict_consume|]. intros _.
  apply strict_safe, strict_bind_l; [apply strict_consume|]. intros _.
  apply safe_bind; [apply safe_previous|]. intros table.
  apply safe_bind; [apply safe_match_|]. intros has_columns.
  apply safe_bind.
  { destruct has_columns; [|apply safe_ret].
    apply strict_safe, strict_bind_l.
    { apply strict_do_while_comma; [lia|].
      apply strict_bind_l; [apply strict_consume | safety]. }
    intros columns.
    apply strict_safe, strict_bind_l; [apply strict_consume | safety]. }
  intros columns.
  apply strict_safe, strict_bind_l; [apply strict_consume|]. intros _.
  apply safe_bind; [|safety].
  apply strict_safe, strict_do_while_comma; [lia|].
  apply strict_bind_l; [apply strict_consume|]. intros _.
  apply safe_bind.
  { apply strict_safe, strict_do_while_comma; [lia|].
    apply strict_parseExpression. lia. }
  intros values.
  apply strict_safe, strict_bind_l; [apply strict_consume | safety].
Qed.

Lemma safe_parseCreateTableStatement fuel n :
  n <= fuel -> safe n (parseCreateTableStatement fuel).
Proof.
  intros Hn. unfold parseCreateTableStatement.
  apply strict_safe, strict_bind_l; [apply strict_consume|]. intros _.
  apply strict_safe, strict_bind_l; [apply strict_consume|]. intros _.
  apply safe_bind; [apply safe_previous|]. intros table.
  apply strict_safe, strict_bind_l; [apply strict_consume|]. intros _.
  apply safe_bind.
  { apply strict_safe, strict_do_while_comma; [lia|].
    apply strict_bind_l; [apply strict_consume|]. intros _.
    apply safe_bind; [apply safe_previous|]. intros column.
    apply strict_safe, strict_bind_l; [apply strict_parseDataType|].
    intros data_type.
    apply safe_bind; [apply safe_parseColumnConstraints; lia | safety]. }
  intros columns.
  apply strict_safe, strict_bind_l; [apply strict_consume | safety].
Qed.

Lemma safe_parseDropTableStatement n : safe n parseDropTableStatement.
Proof. unfold parseDropTableStatement. safety. Qed.

Lemma safe_parseStatement_fuel fuel n :
  n <= fuel -> safe n (parseStatement_fuel fuel).
Proof.
  intros Hn. unfold parseStatement_fuel.
  apply safe_match; [apply safe_parseSelectStatement; lia|].
  apply safe_match; [apply safe_parseInsertStatement; lia|].
  apply safe_match; [apply safe_parseCreateTableStatement; lia|].
  apply safe_match; [apply safe_parseDropTableStatement|].
  apply strict_safe, strict_error.
Qed.

(** The fuel [parseStatement] supplies is enough, whatever the tokens. *)
Lemma parseStatement_terminates tokens :
  parseStatement tokens <> OutOfFuel.
Proof.
  unfold parseStatement.
  pose proof (safe_parseStatement_fuel (S (length tokens)) (S (length tokens))
                ltac:(lia) (new tokens)) as Hsafe.
  intros Hout. rewrite Hout in Hsafe. apply Hsafe. unfold rem. simpl. lia.
Qed.

End ParserFacts.

(** ** Tokens after a statement *)

Module Trailing.
Import Parser ParserFacts.

Section Simulation.
(** [ts] followed by end-of-input on one side, by [x] and anything else
    on the other. *)
Variables (ts : list Token) (eof x : Token) (rest : list Token).
Hypothesis Heof : type eof = EOF_TOKEN.

Local Abbreviation T1 := (ts ++ [eof]).
Local Abbreviation T2 := (ts ++ x :: rest).
Local Abbreviation sim := (sim_on T1 T2 (length ts)).
Local Abbreviation cut := (sim_cut T1 T2 (length ts)).
Local Abbreviation stuck := (stuck_at T1 (length ts)).

Lemma lookup_inside c : c < length ts -> T1 !! c = ts !! c /\ T2 !! c = ts !! c.
Proof. intros Hc. by rewrite !lookup_app_l. Qed.

Lemma lookup_end : T1 !! length ts = Some eof /\ T2 !! length ts = Some x.
Proof.
  split; (rewrite lookup_app_r by lia); by rewrite Nat.sub_diag.
Qed.

Lemma accepts_eof ty : accepts ty eof = false.
Proof. unfold accepts. by rewrite Heof. Qed.

Lemma accepts_none (tok : Token) types :
  (forall ty, In ty types -> accepts ty tok = false) ->
  existsb (fun ty => accepts ty tok) types = false.
Proof.
  intros Hall. apply not_true_is_false. intros Hex.
  apply existsb_exists in Hex as (ty & Hin & Hacc).
  rewrite (Hall ty Hin) in Hacc. done.
Qed.

(** The two sides of a cursor within [ts] or at its end. *)
Lemma cursor_cases c :
  c <= length ts ->
  (exists token, c < length ts /\ T1 !! c = Some token /\ T2 !! c = Some token)
  \/ (c = length ts /\ T1 !! c = Some eof /\ T2 !! c = Some x).
Proof.
  intros Hc. destruct (decide (c < length ts)) as [Hlt|Hge].
  - left. destruct (lookup_lt_is_Some_2 ts c Hlt) as [token Htoken].
    exists token. destruct (lookup_inside c Hlt) as [-> ->]. done.
  - right. assert (c = length ts) as -> by lia.
    split; [done|]. apply lookup_end.
Qed.

(** *** Computations that fail at the end of [ts] *)

Lemma stuck_error {A} message : stuck (@error A message).
Proof.
  intros a p. rewrite error_eq. simpl. by destruct (_ !! length ts).
Qed.

Lemma stuck_bind {A B} (m : P A) (k : A -> P B) : stuck m -> stuck (bind m k).
Proof.
  intros Hm b p. unfold bind.
  destruct (m (mk T1 (length ts))) as [a p1| | |] eqn:Hrun; try done.
  by destruct (Hm a p1).
Qed.

Lemma stuck_consume ty message : stuck (consume ty message).
Proof.
  intros a p. rewrite consume_eq. simpl.
  rewrite (proj1 lookup_end), accepts_eof.
  apply stuck_error.
Qed.

Lemma stuck_ret_bind {A B} (a : A) (k : A -> P B) :
  stuck (k a) -> stuck (bind (ret a) k).
Proof. intros Hk b p. apply Hk. Qed.

Lemma stuck_match_bind {B} ty (k : bool -> P B) :
  stuck (k false) -> stuck (bind (match_ ty) k).
Proof.
  intros Hk b p. unfold bind. rewrite match__eq. simpl.
  rewrite (proj1 lookup_end), accepts_eof. apply Hk.
Qed.

Lemma stuck_match_any_bind {B} types (k : bool -> P B) :
  stuck (k false) -> stuck (bind (match_any types) k).
Proof.
  intros Hk b p. unfold bind. rewrite match_any_eq. simpl.
  destruct types as [|ty types]; [apply Hk|].
  rewrite (proj1 lookup_end).
  rewrite (accepts_none eof) by (intros; apply accepts_eof). apply Hk.
Qed.

Ltac stuck_here :=
  cbv beta iota;
  lazymatch goal with
  | |- stuck_at _ _ (error _) => apply stuck_error
  | |- stuck_at _ _ (consume _ _) => apply stuck_consume
  | |- stuck_at _ _ (bind (consume _ _) _) => apply stuck_bind, stuck_consume
  | |- stuck_at _ _ (bind (ret _) _) => apply stuck_ret_bind; stuck_here
  | |- stuck_at _ _ (bind (match_ _) _) => apply stuck_match_bind; stuck_here
  | |- stuck_at _ _ (bind (match_any _) _) =>
      apply stuck_match_any_bind; stuck_here
  | |- _ => solve [eauto]
  end.

Lemma stuck_parsePrimaryExpression pe : stuck (parsePrimaryExpression pe).
Proof. unfold parsePrimaryExpression. stuck_here. Qed.

(** *** Computations that agree up to the end of [ts] *)

Lemma sim_ret {A} (a : A) : sim (ret a) (ret a).
Proof. intros c a' p1' Hc [= <- <-]. by exists c. Qed.

Lemma sim_throw {A} w : sim (@throw t A w) (throw w).
Proof. by intros c a p1' Hc. Qed.

Lemma sim_out_of_fuel {A} (m2 : P A) : sim out_of_fuel m2.
Proof. by intros c a p1' Hc. Qed.

Lemma sim_bind {A B} (m1 m2 : P A) (k1 k2 : A -> P B) :
  sim m1 m2 -> (forall a, sim (k1 a) (k2 a)) -> sim (bind m1 k1) (bind m2 k2).
Proof.
  intros Hm Hk c b p1' Hc. unfold bind.
  destruct (m1 (mk T1 c)) as [a p1| | |] eqn:Hm1; try done.
  destruct (Hm c a p1 Hc Hm1) as (c1 & Hc1 & -> & ->).
  intros Hk1. by apply (Hk a c1 b p1' Hc1).
Qed.

(** [match] agrees on both sides when [x] is not of the type it tests. *)
Lemma sim_match_ ty : accepts ty x = false -> sim (match_ ty) (match_ ty).
Proof.
  intros Hty c b p1' Hc. rewrite !match__eq. simpl.
  destruct (cursor_cases c Hc)
    as [(token & Hlt & -> & ->) | (-> & -> & ->)].
  - destruct (accepts ty token); intros [= <- <-];
      [exists (S c) | exists c]; (split; [lia | done]).
  - rewrite accepts_eof, Hty. intros [= <- <-].
    by exists (length ts).
Qed.

Lemma sim_match_any types :
  existsb (fun ty => accepts ty x) types = false ->
  sim (match_any types) (match_any types).
Proof.
  intros Htypes c b p1' Hc. rewrite !match_any_eq. simpl.
  destruct types as [|ty types]; [intros [= <- <-]; by exists c|].
  destruct (cursor_cases c Hc)
    as [(token & Hlt & -> & ->) | (-> & -> & ->)].
  - destruct (existsb (fun ty' => accepts ty' token) _); intros [= <- <-];
      [exists (S c) | exists c]; (split; [lia | done]).
  - rewrite (accepts_none eof) by (intros; apply accepts_eof).
    rewrite Htypes. intros [= <- <-]. by exists (length ts).
Qed.

(** [match] needs no condition on [x] where the branch taken when nothing
    matches fails at the end of [ts]: the first side then returns only if
    it matched, which it does within [ts]. *)
Lemma sim_match_guarded {B} ty (k1 k2 : bool -> P B) :
  (forall b, sim (k1 b) (k2 b)) -> stuck (k1 false) ->
  sim (bind (match_ ty) k1) (bind (match_ ty) k2).
Proof.
  intros Hk Hstuck c b p1' Hc. unfold bind. rewrite !match__eq. simpl.
  destruct (cursor_cases c Hc)
    as [(token & Hlt & -> & ->) | (-> & -> & ->)].
  - destruct (accepts ty token); apply Hk; lia.
  - rewrite accepts_eof. intros Hrun. by destruct (Hstuck b p1').
Qed.

Lemma sim_match_any_guarded {B} types (k1 k2 : bool -> P B) :
  (forall b, sim (k1 b) (k2 b)) -> stuck (k1 false) ->
  sim (bind (match_any types) k1) (bind (match_any types) k2).
Proof.
  intros Hk Hstuck c b p1' Hc. unfold bind. rewrite !match_any_eq. simpl.
  destruct types as [|ty types]; [by apply Hk|].
  destruct (cursor_cases c Hc)
    as [(token & Hlt & -> & ->) | (-> & -> & ->)].
  - destruct (existsb _ _); apply Hk; lia.
  - rewrite (accepts_none eof) by (intros; apply accepts_eof).
    intros Hrun. by destruct (Hstuck b p1').
Qed.

(** [consume] needs no condition: at the end of [ts] it fails on the
    first side. *)
Lemma sim_consume ty message : sim (consume ty message) (consume ty message).
Proof.
  intros c b p1' Hc. rewrite !consume_eq. simpl.
  destruct (cursor_cases c Hc)
    as [(token & Hlt & -> & ->) | (-> & -> & ->)].
  - destruct (accepts ty token).
    + intros [= <- <-]. exists (S c). split; [lia | done].
    + rewrite error_eq. simpl. by destruct (_ !! c).
  - rewrite accepts_eof, error_eq. simpl. by destruct (_ !! length ts).
Qed.

Lemma sim_error {A} message : sim (@error A message) (error message).
Proof.
  intros c b p1' Hc. rewrite error_eq. simpl. by destruct (_ !! c).
Qed.

Lemma sim_previous : sim previous previous.
Proof.
  intros c b p1' Hc. rewrite !previous_eq. simpl.
  destruct c as [|k]; [done|].
  destruct (lookup_inside k ltac:(lia)) as [-> ->].
  destruct (ts !! k); [|done]. intros [= <- <-]. by exists (S k).
Qed.

(** *** Computations that agree as long as they stop within [ts] *)

Lemma cut_ret {A} (a : A) : cut (ret a) (ret a).
Proof. intros c a' p1' Hc [= <- <-]. by exists c. Qed.

Lemma cut_throw {A} w : cut (@throw t A w) (throw w).
Proof. by intros c a p1' Hc. Qed.

Lemma cut_out_of_fuel {A} (m2 : P A) : cut out_of_fuel m2.
Proof. by intros c a p1' Hc. Qed.

Lemma cut_bind {A B} (m1 m2 : P A) (k1 k2 : A -> P B) :
  cut m1 m2 -> (forall a, cut (k1 a) (k2 a)) -> cut (bind m1 k1) (bind m2 k2).
Proof.
  intros Hm Hk c b p1' Hc. unfold bind.
  destruct (m1 (mk T1 c)) as [a p1| | |] eqn:Hm1; try done.
  destruct (Hm c a p1 Hc Hm1) as (c1 & Hle & Hc1 & -> & Hm2).
  intros Hk1.
  destruct (Hk a c1 b p1' Hc1 Hk1) as (c2 & Hle2 & Hc2 & -> & Hk2).
  exists c2. split; [lia|]. split; [done|]. split; [done|].
  intros Hlt. rewrite Hm2 by lia. by apply Hk2.
Qed.

Lemma cut_match_ ty : cut (match_ ty) (match_ ty).
Proof.
  intros c b p1' Hc. rewrite !match__eq. simpl.
  destruct (cursor_cases c Hc)
    as [(token & Hlt & -> & ->) | (-> & -> & ->)].
  - destruct (accepts ty token); intros [= <- <-];
      [exists (S c) | exists c]; (split; [lia | split; [lia | done]]).
  - rewrite accepts_eof. intros [= <- <-].
    exists (length ts). split; [lia | split; [lia | split; [done | lia]]].
Qed.

Lemma cut_match_any types : cut (match_any types) (match_any types).
Proof.
  intros c b p1' Hc. rewrite !match_any_eq. simpl.
  destruct types as [|ty types];
    [intros [= <- <-]; by exists c|].
  destruct (cursor_cases c Hc)
    as [(token & Hlt & -> & ->) | (-> & -> & ->)].
  - destruct (existsb _ _); intros [= <- <-];
      [exists (S c) | exists c]; (split; [lia | split; [lia | done]]).
  - rewrite (accepts_none eof) by (intros; apply accepts_eof).
    intros [= <- <-].
    exists (length ts). split; [lia | split; [lia | split; [done | lia]]].
Qed.

Lemma cut_consume ty message : cut (consume ty message) (consume ty message).
Proof.
  intros c b p1' Hc Hrun.
  destruct (sim_consume ty message c b p1' Hc Hrun) as (c' & Hc' & -> & Hrun2).
  exists c'. split; [|done].
  revert Hrun. rewrite consume_eq. simpl.
  destruct (_ !! c) as [token|]; [|done].
  destruct (accepts ty token).
  - intros [= _ <-]. lia.
  - rewrite error_eq. simpl. by destruct (_ !! c).
Qed.

Lemma cut_error {A} message : cut (@error A message) (error message).
Proof.
  intros c b p1' Hc. rewrite error_eq. simpl. by destruct (_ !! c).
Qed.

Lemma cut_previous : cut previous previous.
Proof.
  intros c b p1' Hc Hrun.
  destruct (sim_previous c b p1' Hc Hrun) as (c' & Hc' & -> & Hrun2).
  exists c'. split; [|done].
  revert Hrun. rewrite previous_eq. simpl.
  destruct c as [|k]; [done|]. destruct (_ !! k); [|done].
  intros [= _ <-]. lia.
Qed.

(** What agrees as long as it stops within [ts] agrees altogether when
    it is followed by something that fails at the end of [ts]. *)
Lemma sim_after_cut {A B} (m1 m2 : P A) (k1 k2 : A -> P B) :
  cut m1 m2 -> (forall a, sim (k1 a) (k2 a)) -> (forall a, stuck (k1 a)) ->
  sim (bind m1 k1) (bind m2 k2).
Proof.
  intros Hm Hk Hstuck c b p1' Hc. unfold bind.
  destruct (m1 (mk T1 c)) as [a p1| | |] eqn:Hm1; try done.
  destruct (Hm c a p1 Hc Hm1) as (c1 & Hle & Hc1 & -> & Hm2).
  intros Hk1.
  destruct (decide (c1 < length ts)) as [Hlt|Hge].
  - rewrite Hm2 by done. by apply (Hk a c1 b p1' Hc1).
  - assert (c1 = length ts) as -> by lia.
    by destruct (Hstuck a b p1').
Qed.

Ltac cutting :=
  lazymatch goal with
  | |- forall _, _ => intros; cutting
  | |- sim_cut _ _ _ (ret _) _ => apply cut_ret
  | |- sim_cut _ _ _ (throw _) _ => apply cut_throw
  | |- sim_cut _ _ _ (error _) _ => apply cut_error
  | |- sim_cut _ _ _ previous _ => apply cut_previous
  | |- sim_cut _ _ _ (consume _ _) _ => apply cut_consume
  | |- sim_cut _ _ _ (match_ _) _ => apply cut_match_
  | |- sim_cut _ _ _ (match_any _) _ => apply cut_match_any
  | |- sim_cut _ _ _ (bind _ _) _ => apply cut_bind; cutting
  | |- sim_cut _ _ _ (if ?b then _ else _) _ => destruct b; cutting
  | |- sim_cut _ _ _ (match ?v with _ => _ end) _ => destruct v; cutting
  | |- sim_cut _ _ _ (let _ := _ in _) _ => cbv zeta; cutting
  | |- _ => solve [eauto]
  end.

Lemma cut_do_while_comma {A} f1 f2 (b1 b2 : P A) acc :
  f1 <= f2 -> cut b1 b2 ->
  cut (do_while_comma f1 b1 acc) (do_while_comma f2 b2 acc).
Proof.
  revert f2 acc. induction f1 as [|f1 IH]; intros f2 acc Hf Hb.
  - apply cut_out_of_fuel.
  - destruct f2 as [|f2]; [lia|]. cbn [do_while_comma].
    assert (forall acc', cut (do_while_comma f1 b1 acc')
                             (do_while_comma f2 b2 acc')) as Hrec
      by (intros; apply IH; [lia | done]).
    cutting.
Qed.

Lemma cut_parseValue token : cut (parseValue token) (parseValue token).
Proof. unfold parseValue. cutting. Qed.

Lemma cut_parseDataType : cut parseDataType parseDataType.
Proof. unfold parseDataType. cutting. Qed.

Lemma cut_binary_loop f1 f2 types op_of o1 o2 expr :
  f1 <= f2 -> cut o1 o2 ->
  cut (binary_loop f1 types op_of o1 expr)
      (binary_loop f2 types op_of o2 expr).
Proof.
  revert f2 expr. induction f1 as [|f1 IH]; intros f2 expr Hf Ho.
  - apply cut_out_of_fuel.
  - destruct f2 as [|f2]; [lia|]. cbn [binary_loop].
    assert (forall e, cut (binary_loop f1 types op_of o1 e)
                          (binary_loop f2 types op_of o2 e)) as Hrec
      by (intros; apply IH; [lia | done]).
    cutting.
Qed.

Section LevelsCut.
Variables (f1 f2 : nat) (u1 u2 : P Expression).
Hypothesis Hf : f1 <= f2.
Hypothesis Hu : cut u1 u2.

Local Ltac level sub :=
  apply cut_bind; [exact sub|]; intros expr;
  apply cut_binary_loop; [exact Hf | exact sub].

Lemma cut_parseFactorExpression :
  cut (parseFactorExpression f1 u1) (parseFactorExpression f2 u2).
Proof. level Hu. Qed.

Lemma cut_parseTermExpression :
  cut (parseTermExpression f1 u1) (parseTermExpression f2 u2).
Proof. level cut_parseFactorExpression. Qed.

Lemma cut_parseComparisonExpression :
  cut (parseComparisonExpression f1 u1) (parseComparisonExpression f2 u2).
Proof. level cut_parseTermExpression. Qed.

Lemma cut_parseEqualityExpression :
  cut (parseEqualityExpression f1 u1) (parseEqualityExpression f2 u2).
Proof. level cut_parseComparisonExpression. Qed.

Lemma cut_parseAndExpression :
  cut (parseAndExpression f1 u1) (parseAndExpression f2 u2).
Proof. level cut_parseEqualityExpression. Qed.

Lemma cut_parseOrExpression :
  cut (parseOrExpression f1 u1) (parseOrExpression f2 u2).
Proof. level cut_parseAndExpression. Qed.
End LevelsCut.

Lemma cut_parsePrimaryExpression pe1 pe2 :
  cut pe1 pe2 ->
  cut (parsePrimaryExpression pe1) (parsePrimaryExpression pe2).
Proof.
  intros Hpe. unfold parsePrimaryExpression.
  pose proof cut_parseValue as Hvalue. cutting.
Qed.

Lemma cut_parseUnaryExpression f1 f2 :
  f1 <= f2 -> cut (parseUnaryExpression f1) (parseUnaryExpression f2).
Proof.
  revert f2. induction f1 as [|f1 IH]; intros f2 Hf.
  - apply cut_out_of_fuel.
  - destruct f2 as [|f2]; [lia|]. cbn [parseUnaryExpression].
    specialize (IH f2 ltac:(lia)).
    apply cut_bind; [apply cut_match_any|]. intros [|].
    + cutting.
    + apply cut_parsePrimaryExpression, cut_parseOrExpression; [lia|done].
Qed.

Lemma cut_parseExpression f1 f2 :
  f1 <= f2 -> cut (parseExpression f1) (parseExpression f2).
Proof.
  intros Hf. apply cut_parseOrExpression; [done|].
  by apply cut_parseUnaryExpression.
Qed.

Lemma cut_parseColumnConstraints f1 f2 nullable primary_key :
  f1 <= f2 ->
  cut (parseColumnConstraints f1 nullable primary_key)
      (parseColumnConstraints f2 nullable primary_key).
Proof.
  revert f2 nullable primary_key.
  induction f1 as [|f1 IH]; intros f2 nullable primary_key Hf.
  - apply cut_out_of_fuel.
  - destruct f2 as [|f2]; [lia|]. cbn [parseColumnConstraints].
    assert (forall a b, cut (parseColumnConstraints f1 a b)
                            (parseColumnConstraints f2 a b)) as Hrec
      by (intros; apply IH; lia).
    cutting.
Qed.

(** *** Statements *)

Section Statements.
Variables f1 f2 : nat.
Hypothesis Hf : f1 <= f2.

(** DROP TABLE and CREATE TABLE end with a token they require: nothing
    that follows can belong to them. *)
Lemma sim_parseDropTableStatement :
  sim parseDropTableStatement parseDropTableStatement.
Proof.
  unfold parseDropTableStatement.
  repeat (apply sim_bind; [first [apply sim_consume | apply sim_previous]|];
          intros ?).
  apply sim_ret.
Qed.

Lemma sim_parseCreateTableStatement :
  sim (parseCreateTableStatement f1) (parseCreateTableStatement f2).
Proof.
  unfold parseCreateTableStatement.
  apply sim_bind; [apply sim_consume|]. intros _.
  apply sim_bind; [apply sim_consume|]. intros _.
  apply sim_bind; [apply sim_previous|]. intros table.
  apply sim_bind; [apply sim_consume|]. intros _.
  apply sim_after_cut.
  - apply cut_do_while_comma; [done|].
    pose proof cut_parseDataType as Htype.
    pose proof (fun a b => cut_parseColumnConstraints f1 f2 a b Hf) as Hcons.
    cutting.
  - intros columns. apply sim_bind; [apply sim_consume|]. intros _.
    apply sim_ret.
  - intros columns. stuck_here.
Qed.

(** INSERT goes on with a comma only. *)
Lemma sim_parseInsertStatement :
  accepts COMMA x = false ->
  sim (parseInsertStatement f1) (parseInsertStatement f2).
Proof.
  intros Hcomma.
  assert (forall A f1 f2 (b1 b2 : P A) acc,
            f1 <= f2 -> sim b1 b2 ->
            sim (do_while_comma f1 b1 acc) (do_while_comma f2 b2 acc))
    as Hloop.
  { intros A g1. induction g1 as [|g1 IH]; intros g2 b1 b2 acc Hg Hb.
    - apply sim_out_of_fuel.
    - destruct g2 as [|g2]; [lia|]. cbn [do_while_comma].
      apply sim_bind; [done|]. intros a.
      apply sim_bind; [by apply sim_match_|]. intros [|].
      + apply IH; [lia | done].
      + apply sim_ret. }
  unfold parseInsertStatement.
  apply sim_bind; [apply sim_consume|]. intros _.
  apply sim_bind; [apply sim_consume|]. intros _.
  apply sim_bind; [apply sim_previous|]. intros table.
  assert (forall columns,
    sim (let* _ := consume VALUES "Expected 'VALUES'" in
         let* values :=
           do_while_comma f1
             (let* _ := consume LEFT_PAREN "Expected '(' before values" in
              let* values := do_while_comma f1 (parseExpression f1) [] in
              let* _ := consume RIGHT_PAREN "Expected ')' after values" in
              ret values) [] in
         ret (Insert (InsertStatement.mk (value table) columns values)))
        (let* _ := consume VALUES "Expected 'VALUES'" in
         let* values :=
           do_while_comma f2
             (let* _ := consume LEFT_PAREN "Expected '(' before values" in
              let* values := do_while_comma f2 (parseExpression f2) [] in
              let* _ := consume RIGHT_PAREN "Expected ')' after values" in
              ret values) [] in
         ret (Insert (InsertStatement.mk (value table) columns values))))
    as Hvalues.
  { intros columns. apply sim_bind; [apply sim_consume|]. intros _.
    apply sim_bind; [|intros; apply sim_ret].
    apply Hloop; [done|].
    apply sim_bind; [apply sim_consume|]. intros _.
    apply sim_after_cut.
    - apply cut_do_while_comma; [done|]. by apply cut_parseExpression.
    - intros values. apply sim_bind; [apply sim_consume|]. intros _.
      apply sim_ret.
    - intros values. stuck_here. }
  apply sim_match_guarded.
  - intros has_columns. apply sim_bind; [|exact Hvalues].
    destruct has_columns; [|apply sim_ret].
    apply sim_after_cut.
    + apply cut_do_while_comma; [done|]. cutting.
    + intros columns. apply sim_bind; [apply sim_consume|]. intros _.
      apply sim_ret.
    + intros columns. stuck_here.
  - stuck_here.
Qed.

(** SELECT goes on with the token types of [select_continues]. *)
Section Select.
Hypothesis Hx : select_continues (type x) = false.

Lemma accepts_x ty : select_continues ty = true -> accepts ty x = false.
Proof.
  intros Hty. unfold accepts. apply andb_false_iff. right.
  apply TokenType_eqb_neq. intros Heq. rewrite Heq in Hx. congruence.
Qed.

Lemma accepts_x_any types :
  forallb select_continues types = true ->
  existsb (fun ty => accepts ty x) types = false.
Proof.
  intros Htypes. apply accepts_none. intros ty Hin. apply accepts_x.
  by apply (proj1 (forallb_forall _ _) Htypes).
Qed.

Ltac simulate :=
  lazymatch goal with
  | |- forall _, _ => intros; simulate
  | |- sim_on _ _ _ (ret _) _ => apply sim_ret
  | |- sim_on _ _ _ (throw _) _ => apply sim_throw
  | |- sim_on _ _ _ (error _) _ => apply sim_error
  | |- sim_on _ _ _ previous _ => apply sim_previous
  | |- sim_on _ _ _ (consume _ _) _ => apply sim_consume
  | |- sim_on _ _ _ (match_ _) _ => apply sim_match_, accepts_x; reflexivity
  | |- sim_on _ _ _ (bind _ _) _ => apply sim_bind; simulate
  | |- sim_on _ _ _ (if ?b then _ else _) _ => destruct b; simulate
  | |- sim_on _ _ _ (match ?v with _ => _ end) _ => destruct v; simulate
  | |- sim_on _ _ _ (let _ := _ in _) _ => cbv zeta; simulate
  | |- _ => solve [eauto]
  end.

Lemma sim_do_while_comma {A} g1 g2 (b1 b2 : P A) acc :
  g1 <= g2 -> sim b1 b2 ->
  sim (do_while_comma g1 b1 acc) (do_while_comma g2 b2 acc).
Proof.
  revert g2 acc. induction g1 as [|g1 IH]; intros g2 acc Hg Hb.
  - apply sim_out_of_fuel.
  - destruct g2 as [|g2]; [lia|]. cbn [do_while_comma].
    assert (forall acc', sim (do_while_comma g1 b1 acc')
                             (do_while_comma g2 b2 acc')) as Hrec
      by (intros; apply IH; [lia | done]).
    simulate.
Qed.

Lemma sim_parseValue token : sim (parseValue token) (parseValue token).
Proof. unfold parseValue. simulate. Qed.

Lemma sim_binary_loop g1 g2 types op_of o1 o2 expr :
  g1 <= g2 -> forallb select_continues types = true -> sim o1 o2 ->
  sim (binary_loop g1 types op_of o1 expr)
      (binary_loop g2 types op_of o2 expr).
Proof.
  revert g2 expr. induction g1 as [|g1 IH]; intros g2 expr Hg Htypes Ho.
  - apply sim_out_of_fuel.
  - destruct g2 as [|g2]; [lia|]. cbn [binary_loop].
    assert (forall e, sim (binary_loop g1 types op_of o1 e)
                          (binary_loop g2 types op_of o2 e)) as Hrec
      by (intros; apply IH; [lia | done | done]).
    apply sim_bind; [by apply sim_match_any, accepts_x_any|]. simulate.
Qed.

Section LevelsSim.
Variables (g1 g2 : nat) (u1 u2 : P Expression).
Hypothesis Hg : g1 <= g2.
Hypothesis Hu : sim u1 u2.

Local Ltac level sub :=
  apply sim_bind; [exact sub|]; intros expr;
  apply sim_binary_loop; [exact Hg | reflexivity | exact sub].

Lemma sim_parseFactorExpression :
  sim (parseFactorExpression g1 u1) (parseFactorExpression g2 u2).
Proof. level Hu. Qed.

Lemma sim_parseTermExpression :
  sim (parseTermExpression g1 u1) (parseTermExpression g2 u2).
Proof. level sim_parseFactorExpression. Qed.

Lemma sim_parseComparisonExpression :
  sim (parseComparisonExpression g1 u1) (parseComparisonExpression g2 u2).
Proof. level sim_parseTermExpression. Qed.

Lemma sim_parseEqualityExpression :
  sim (parseEqualityExpression g1 u1) (parseEqualityExpression g2 u2).
Proof. level sim_parseComparisonExpression. Qed.

Lemma sim_parseAndExpression :
  sim (parseAndExpression g1 u1) (parseAndExpression g2 u2).
Proof. level sim_parseEqualityExpression. Qed.

Lemma sim_parseOrExpression :
  sim (parseOrExpression g1 u1) (parseOrExpression g2 u2).
Proof. level sim_parseAndExpression. Qed.
End LevelsSim.

(** A primary expression starts with a token: each test for one is
    followed, when it fails, by the next test and in the end by an error,
    so that no condition on [x] is needed but for the dot of a qualified
    column name. *)
Lemma sim_parsePrimaryExpression pe1 pe2 :
  sim pe1 pe2 ->
  sim (parsePrimaryExpression pe1) (parsePrimaryExpression pe2).
Proof.
  intros Hpe. unfold parsePrimaryExpression.
  pose proof sim_parseValue as Hvalue.
  apply sim_match_any_guarded; [intros [|]; [simulate|] | stuck_here].
  apply sim_match_guarded; [intros [|]; [simulate|] | stuck_here].
  apply sim_match_any_guarded; [intros [|]; [simulate|] | stuck_here].
  apply sim_match_guarded; [intros [|]; [simulate|] | stuck_here].
  apply sim_match_guarded; [intros [|]; simulate | stuck_here].
Qed.

Lemma sim_parseUnaryExpression g1 g2 :
  g1 <= g2 -> sim (parseUnaryExpression g1) (parseUnaryExpression g2).
Proof.
  revert g2. induction g1 as [|g1 IH]; intros g2 Hg.
  - apply sim_out_of_fuel.
  - destruct g2 as [|g2]; [lia|]. cbn [parseUnaryExpression].
    specialize (IH g2 ltac:(lia)).
    apply sim_match_any_guarded.
    + intros [|]; [simulate|].
      apply sim_parsePrimaryExpression, sim_parseOrExpression; [lia|done].
    + apply stuck_parsePrimaryExpression.
Qed.

Lemma sim_parseExpression g1 g2 :
  g1 <= g2 -> sim (parseExpression g1) (parseExpression g2).
Proof.
  intros Hg. apply sim_parseOrExpression; [done|].
  by apply sim_parseUnaryExpression.
Qed.

Lemma sim_parseSelectStatement :
  sim (parseSelectStatement f1) (parseSelectStatement f2).
Proof.
  pose proof (sim_parseExpression f1 f2 Hf) as Hexpr.
  unfold parseSelectStatement.
  apply sim_after_cut.
  { apply cut_do_while_comma; [done|].
    pose proof (cut_parseExpression f1 f2 Hf) as Hcut. cutting. }
  2: { intros select_list. stuck_here. }
  intros select_list.
  apply sim_bind; [simulate|]. intros _.
  apply sim_bind; [simulate|]. intros _.
  apply sim_bind; [simulate|]. intros table.
  apply sim_bind; [simulate|]. intros has_where.
  apply sim_bind; [simulate|]. intros where_clause.
  apply sim_bind; [simulate|]. intros has_order.
  apply sim_bind.
  { destruct has_order; [|simulate].
    apply sim_bind; [simulate|]. intros _.
    apply sim_bind; [|simulate].
    apply sim_do_while_comma; [done|]. simulate. }
  simulate.
Qed.
End Select.

(** The dispatch on the first token happens inside [ts]: a statement
    that parses is not empty. What [x] may not be depends on that first
    token. *)
Lemma sim_parseStatement_fuel statement p1' :
  (forall first, ts !! 0 = Some first ->
                 statement_continues (type first) (type x) = false) ->
  parseStatement_fuel f1 (mk T1 0) = Ok statement p1' ->
  exists c', parseStatement_fuel f2 (mk T2 0) = Ok statement (mk T2 c').
Proof.
  intros Hx.
  assert (forall (m1 m2 : P Statement) c,
            c <= length ts -> sim m1 m2 ->
            m1 (mk T1 c) = Ok statement p1' ->
            exists c', m2 (mk T2 c) = Ok statement (mk T2 c')) as Huse.
  { intros m1 m2 c Hc Hm Hrun.
    destruct (Hm c statement p1' Hc Hrun) as (c' & _ & _ & Hrun2).
    by exists c'. }
  assert (forall ty token, accepts ty token = true -> type token = ty)
    as Htype.
  { intros ty token [_ Heq]%andb_true_iff. by apply TokenType_eqb_eq. }
  unfold parseStatement_fuel, bind. rewrite !match__eq. simpl.
  destruct (cursor_cases 0 ltac:(lia))
    as [(token & Hlt & Hl1 & Hl2) | (Hempty & Hl1 & Hl2)];
    rewrite Hl1, Hl2.
  - assert (ts !! 0 = Some token) as Hfirst
      by (by rewrite <- (proj1 (lookup_inside 0 Hlt))).
    specialize (Hx token Hfirst).
    destruct (accepts SELECT token) eqn:Hselect.
    { rewrite (Htype _ _ Hselect) in Hx.
      apply Huse; [lia | by apply sim_parseSelectStatement]. }
    rewrite !match__eq. simpl. rewrite Hl1, Hl2.
    destruct (accepts INSERT token) eqn:Hinsert.
    { rewrite (Htype _ _ Hinsert) in Hx.
      apply Huse; [lia | apply sim_parseInsertStatement].
      unfold statement_continues in Hx. unfold accepts.
      by rewrite Hx, andb_false_r. }
    rewrite !match__eq. simpl. rewrite Hl1, Hl2.
    destruct (accepts CREATE token);
      [apply Huse; [lia | apply sim_parseCreateTableStatement]|].
    rewrite !match__eq. simpl. rewrite Hl1, Hl2.
    destruct (accepts DROP token);
      [apply Huse; [lia | apply sim_parseDropTableStatement]|].
    rewrite error_eq. simpl. by rewrite Hl1.
  - rewrite !accepts_eof. rewrite !match__eq. simpl.
    rewrite Hl1, !accepts_eof. rewrite !match__eq. simpl.
    rewrite Hl1, !accepts_eof. rewrite !match__eq. simpl.
    rewrite Hl1, !accepts_eof. rewrite error_eq. simpl.
    by rewrite Hl1.
Qed.
End Statements.

End Simulation.

End Trailing.

(** ** End to end: lexer, parser and query engine *)

(** C6, as the code has it: lexing never raises and always ends; a
    character that starts no token makes [nextToken] return an INVALID
    token that carries that one character; [tokenize] leaves every INVALID
    token out of the sequence it returns, so that the parser never sees
    one. *)
Theorem invalid_tokens_are_dropped :
  (forall input,
     exists tokens,
       Lexer.tokenize_opt input = Some tokens /\
       Lexer.tokenize input = tokens /\
       Forall (fun token => type token <> INVALID) tokens) /\
  (forall l c rest,
     Lexer.input_ (Lexer.skipWhitespace l) = String c rest ->
     starts_token c rest = false ->
     let l' := snd (Lexer.advance (Lexer.skipWhitespace l)) in
     Lexer.nextToken l =
       Some (Lexer.makeToken l' INVALID (String c EmptyString), l') /\
     Lexer.input_ l' = rest).
Proof.
  split.
  - intros input.
    destruct (LexerFacts.tokenize_opt_total input) as (tokens & H1 & H2 & H3 & _).
    by exists tokens.
  - intros l c rest Hinput Hstart l'.
    unfold starts_token in Hstart. cbn [existsb] in Hstart.
    repeat (apply orb_false_iff in Hstart as [Hstart ?]).
    repeat match goal with
           | H : (_ || _) = false |- _ => apply orb_false_iff in H as [? ?]
           end.
    assert (Lexer.input_ l' = rest) as Hrest.
    { unfold l', Lexer.advance. by rewrite Hinput. }
    split; [|done].
    unfold Lexer.nextToken. cbn [Lexer.nextToken_fuel].
    fold l'. set (l1 := Lexer.skipWhitespace l) in *.
    assert (Lexer.hasNext l1 = true) as -> by (unfold Lexer.hasNext; by rewrite Hinput).
    assert (Lexer.peek l1 = c) as -> by (unfold Lexer.peek; by rewrite Hinput).
    cbn [negb].
    repeat match goal with
           | H : ?b = false |- context [?b] => rewrite H
           end.
    cbn [andb orb]. f_equal.
    unfold Lexer.nextToken_punct. fold l'.
    repeat match goal with
           | H : ?b = false |- context [?b] => rewrite H
           end.
    destruct (Ascii.eqb c "!") eqn:Hbang; [|done].
    apply Ascii.eqb_eq in Hbang as ->.
    assert (Lexer.hasNext l' && Ascii.eqb (Lexer.peek l') "=" = false) as ->;
      [|done].
    unfold Lexer.hasNext, Lexer.peek. rewrite Hrest.
    destruct rest as [|c2 rest']; [done|]. simpl in *. done.
Qed.

Lemma invalid_tokens_are_dropped_witness :
  Lexer.nextToken (Lexer.new "@") =
    Some (mkToken INVALID "@" 1 1 2, Lexer.mkLexer "" 1 1 2).
Proof.
  apply (proj2 invalid_tokens_are_dropped (Lexer.new "@") "@"%char ""
           eq_refl eq_refl).
Defined.

(** C6 fails as stated: the INVALID token that [nextToken] makes of [@] is
    not in what [tokenize] returns, and [SELECT @ * FROM t;] is executed as
    if the [@] were not there, not rejected. *)
Lemma invalid_token_not_returned :
  (fst <$> Lexer.nextToken (Lexer.new "@")) = Some (mkToken INVALID "@" 1 1 2) /\
  Lexer.tokenize "@" = [] /\
  returned_error
    (run_session [ "CREATE TABLE t (c INTEGER)"; "SELECT @ * FROM t;" ])
    = Some "".
Proof. repeat split; vm_compute; reflexivity. Qed.

(** C7 at its failing inputs: [tokenize] returns no end-of-input token for
    [DROP TABLE t], nor for the empty input; it returns one when a blank
    follows the last token.  Whatever the input, an end-of-input token can
    only be the last token.  The parser, which relies on that token to
    stop, reads past the end of the token vector of [SELECT * FROM t]. *)
Theorem tokenize_may_omit_end_of_input :
  map type (Lexer.tokenize "DROP TABLE t") = [DROP; TABLE; IDENTIFIER] /\
  Lexer.tokenize "" = [] /\
  map type (Lexer.tokenize "DROP TABLE t ")
    = [DROP; TABLE; IDENTIFIER; EOF_TOKEN] /\
  (forall input, eof_only_last (Lexer.tokenize input)) /\
  Parser.parseStatement (Lexer.tokenize "SELECT * FROM t") = Undefined.
Proof.
  split; [vm_compute; reflexivity|].
  split; [vm_compute; reflexivity|].
  split; [vm_compute; reflexivity|].
  split; [|vm_compute; reflexivity].
  intros input.
  destruct (LexerFacts.tokenize_opt_total input) as (tokens & _ & -> & _ & H).
  exact H.
Qed.

Lemma execute_tokenized sql :
  execute sql = execute_on (Lexer.tokenize sql).
Proof.
  unfold execute, execute_on, execute_try, catching.
  destruct (LexerFacts.tokenize_opt_total sql) as (tokens & -> & -> & _).
  reflexivity.
Qed.

(** C10, as the code has it: [execute] parses one statement and does not
    check that the input ends after it, so input after a statement is not
    by itself an error.  When tokens followed by the end of the input parse
    as a statement, the same tokens followed by further tokens parse as the
    same statement, and the call has the same result and effect, provided
    the first further token is none the statement can go on with: after
    CREATE TABLE and DROP TABLE any token, after INSERT any token but a
    comma, after SELECT any token but WHERE, ORDER, LIMIT, DESC, ASC, a
    comma, a dot and the binary operators.  So a semicolon, a stray word, a
    number, a string, a parenthesis or a second statement after a complete
    statement changes nothing: the parser looks at the first further token
    only, and does not accept it.  Each token type excepted does matter:
    for each there is a statement that parses differently when a token of
    that type and more input follow it. *)
Theorem trailing_tokens_ignored :
  (forall first ts eof x rest statement p e,
     type eof = EOF_TOKEN ->
     statement_continues (type first) (type x) = false ->
     Parser.parseStatement (first :: ts ++ [eof]) = Ok statement p ->
     (exists p', Parser.parseStatement (first :: ts ++ x :: rest)
                 = Ok statement p') /\
     execute_on (first :: ts ++ x :: rest) e
       = execute_on (first :: ts ++ [eof]) e) /\
  (forall first ty,
     statement_continues first ty = true ->
     exists token ts eof x rest statement p statement' p',
       type token = first /\ type eof = EOF_TOKEN /\ type x = ty /\
       Parser.parseStatement (token :: ts ++ [eof]) = Ok statement p /\
       Parser.parseStatement (token :: ts ++ x :: rest) = Ok statement' p' /\
       statement' <> statement).
Proof.
  split.
  - intros first ts eof x rest statement p e Heof Hx Hparse.
    assert (exists p', Parser.parseStatement (first :: ts ++ x :: rest)
                       = Ok statement p') as [p' Hparse'].
    { unfold Parser.parseStatement, Parser.new in *.
      destruct (Trailing.sim_parseStatement_fuel (first :: ts) eof x rest Heof
                  (S (length (first :: ts ++ [eof])))
                  (S (length (first :: ts ++ x :: rest)))
                  ltac:(simpl; rewrite !length_app; simpl; lia) statement p
                  ltac:(by intros ? [= <-]) Hparse)
        as [c' Hrun].
      by eexists. }
    split; [by exists p'|].
    unfold execute_on, catching, execute_tokens.
    by rewrite Hparse, Hparse'.
  - intros first ty Hty.
    assert (exists token ts, fst (continuation_example first ty) = token :: ts
                             /\ type token = first)
      as (token & ts & Hts & Hfirst).
    { destruct first; try discriminate Hty;
        destruct ty; try discriminate Hty; by eexists _, _. }
    exists token, ts, (mkToken EOF_TOKEN "" 0 1 1), (mkToken ty "" 0 1 1),
      (snd (continuation_example first ty)).
    destruct (Parser.parseStatement
                (token :: ts ++ [mkToken EOF_TOKEN "" 0 1 1]))
      as [statement p| | |] eqn:H1;
    destruct (Parser.parseStatement
                (token :: ts ++ mkToken ty "" 0 1 1
                                :: snd (continuation_example first ty)))
      as [statement' p'| | |] eqn:H2;
    try (exfalso; rewrite app_comm_cons, <- Hts in H1, H2; clear Hts Hfirst;
         destruct first; try discriminate Hty;
         destruct ty; try discriminate Hty;
         vm_compute in H1, H2; congruence).
    exists statement, p, statement', p'.
    repeat split; try done.
    rewrite app_comm_cons, <- Hts in H1, H2. clear Hts Hfirst.
    destruct first; try discriminate Hty;
      destruct ty; try discriminate Hty;
      vm_compute in H1, H2; congruence.
Qed.

Lemma trailing_tokens_ignored_witness :
  execute "SELECT * FROM t stray words 42 'x' " (mkEngine three_rows [] "") =
  execute "SELECT * FROM t " (mkEngine three_rows [] "").
Proof.
  rewrite !execute_tokenized.
  change (Lexer.tokenize "SELECT * FROM t stray words 42 'x' ")
    with (mkToken SELECT "SELECT" 6 1 7
          :: [mkToken MULTIPLY "*" 8 1 9; mkToken FROM "FROM" 13 1 14;
              mkToken IDENTIFIER "t" 15 1 16]
          ++ mkToken IDENTIFIER "stray" 21 1 22
             :: [mkToken IDENTIFIER "words" 27 1 28;
                 mkToken INTEGER_LITERAL "42" 30 1 31;
                 mkToken STRING_LITERAL "x" 34 1 35;
                 mkToken EOF_TOKEN "" 35 1 36]).
  change (Lexer.tokenize "SELECT * FROM t ")
    with (mkToken SELECT "SELECT" 6 1 7
          :: [mkToken MULTIPLY "*" 8 1 9; mkToken FROM "FROM" 13 1 14;
              mkToken IDENTIFIER "t" 15 1 16]
          ++ [mkToken EOF_TOKEN "" 16 1 17]).
  apply (proj2 (proj1 trailing_tokens_ignored
                  (mkToken SELECT "SELECT" 6 1 7)
                  [mkToken MULTIPLY "*" 8 1 9; mkToken FROM "FROM" 13 1 14;
                   mkToken IDENTIFIER "t" 15 1 16]
                  (mkToken EOF_TOKEN "" 16 1 17)
                  (mkToken IDENTIFIER "stray" 21 1 22)
                  [mkToken IDENTIFIER "words" 27 1 28;
                   mkToken INTEGER_LITERAL "42" 30 1 31;
                   mkToken STRING_LITERAL "x" 34 1 35;
                   mkToken EOF_TOKEN "" 35 1 36]
                  (Select (SelectStatement.mk [ColumnExpression1 "*"] "t" None
                             [] false (-1)))
                  (Parser.mk
                     [mkToken SELECT "SELECT" 6 1 7;
                      mkToken MULTIPLY "*" 8 1 9; mkToken FROM "FROM" 13 1 14;
                      mkToken IDENTIFIER "t" 15 1 16;
                      mkToken EOF_TOKEN "" 16 1 17] 4)
                  (mkEngine three_rows [] "") eq_refl eq_refl eq_refl)).
Defined.

(** C10 fails as stated: [SELECT * FROM t ] returns the row of [t]; with
    the further word LIMIT after it the call returns no row and reports a
    parse error, so the word was examined. *)
Lemma trailing_limit_is_examined :
  returned_rows (run_session (fst trailing_limit_sessions))
    = Some [[VInteger 3]] /\
  returned_rows (run_session (snd trailing_limit_sessions)) = Some [] /\
  returned_error (run_session (snd trailing_limit_sessions))
    = Some "Parse error at token 5: Expected number after LIMIT".
Proof. repeat split; vm_compute; reflexivity. Qed.

(** * Further properties of the storage and the executor *)

Lemma DataType_eqb_eq a b : DataType_eqb a b = true <-> a = b.
Proof. destruct a, b; simpl; split; (done || discriminate). Qed.

Lemma validateRow_from_conforms {St} schema i rest (s : St) :
  i + length rest = length (columns_ schema) ->
  exists b,
    validateRow_from schema i rest s = Ok b s /\
    (b = true <->
     Forall2 (fun col v => if isNull v then nullable col = true
                           else getType v = col_type col)
       (drop i (columns_ schema)) rest).
Proof.
  revert i. induction rest as [|v rest IH]; intros i Hlen; simpl in *.
  - exists true. split; [done|]. split; [|done]. intros _.
    rewrite drop_ge by lia. constructor.
  - unfold bind, getColumn.
    destruct (columns_ schema !! i) as [col|] eqn:Hcol.
    2:{ apply lookup_ge_None in Hcol. lia. }
    rewrite (drop_S _ _ _ Hcol). cbn [ret].
    destruct (IH (S i) ltac:(lia)) as (b & Hrun & Hb).
    destruct (isNull v) eqn:Hnullv.
    + rewrite andb_true_r. cbn [negb andb].
      destruct (nullable col) eqn:Hnull; cbn [negb].
      * exists b. split; [done|]. rewrite Hb. split.
        -- intros H. constructor; [by rewrite Hnullv|done].
        -- by inversion 1.
      * exists false. split; [done|]. split; [done|].
        inversion 1 as [|? ? ? ? Hhead]; subst. rewrite Hnullv in Hhead.
        congruence.
    + rewrite andb_false_r. cbn [negb andb].
      destruct (DataType_eqb (getType v) (col_type col)) eqn:Htype; cbn [negb].
      * apply DataType_eqb_eq in Htype.
        exists b. split; [done|]. rewrite Hb. split.
        -- intros H. constructor; [by rewrite Hnullv|done].
        -- by inversion 1.
      * exists false. split; [done|]. split; [done|].
        inversion 1 as [|? ? ? ? Hhead]; subst. rewrite Hnullv in Hhead.
        apply DataType_eqb_eq in Hhead. congruence.
Qed.

Lemma validateRow_accepts_conforming_rows_aux {St} (t : Table) (row : Row)
    (s : St) :
  exists b,
    validateRow t row s = Ok b s /\ (b = true <-> conforms (schema_ t) row).
Proof.
  unfold validateRow, getColumnCount, conforms.
  destruct (length row =? length (columns_ (schema_ t))) eqn:Hlen; simpl.
  - apply Nat.eqb_eq in Hlen.
    destruct (validateRow_from_conforms (schema_ t) 0 row s ltac:(simpl; lia))
      as (b & Hrun & Hb).
    exists b. by rewrite drop_0 in Hb.
  - apply Nat.eqb_neq in Hlen. exists false. split; [done|].
    split; [done|]. intros H. apply Forall2_length in H. lia.
Qed.

(** X1: [validateRow] never throws, and it accepts a row exactly when the
    row has one value per column, each of them either a null in a nullable
    column or a value whose type is the declared type of its column (a null
    fits a nullable column of any type). *)
Theorem validateRow_accepts_conforming_rows :
  forall (t : Table) (row : Row) (s : Table),
    exists b,
      validateRow t row s = Ok b s /\
      (b = true <-> conforms (schema_ t) row).
Proof. intros t row s. apply validateRow_accepts_conforming_rows_aux. Qed.

Lemma insertRow_conforms row t :
  (conforms (schema_ t) row ->
   insertRow row t = Ok tt (mkTable (name_ t) (schema_ t) (rows_ t ++ [row]))) /\
  (~ conforms (schema_ t) row ->
   insertRow row t = Throw "Row validation failed" t).
Proof.
  unfold insertRow, bind, get. cbv beta.
  destruct (validateRow_accepts_conforming_rows_aux t row t) as (b & -> & Hb).
  destruct b; simpl.
  - split; [done|]. intros Hn. by destruct Hn; apply Hb.
  - split; [|done]. intros Hc. apply Hb in Hc. discriminate.
Qed.

Lemma conforms_dec schema row : conforms schema row \/ ~ conforms schema row.
Proof.
  destruct (validateRow_accepts_conforming_rows_aux
              (mkTable "" schema []) row tt) as ([] & _ & Hb); simpl in Hb.
  - left. by apply Hb.
  - right. intros Hc. apply Hb in Hc. discriminate.
Qed.

Lemma insert_row_of_literals {St} row acc (s : St) :
  insert_row_of (literal_row row) acc s = Ok (acc ++ row) s.
Proof.
  revert acc. induction row as [|v row IH]; intros acc; simpl.
  - by rewrite app_nil_r.
  - rewrite IH. by rewrite <- app_assoc.
Qed.

Lemma insert_row_of_complex {St} value_list acc (s : St) :
  forallb is_literal value_list = false ->
  insert_row_of value_list acc s =
    Throw "Complex expressions in INSERT not yet supported" s.
Proof.
  revert acc. induction value_list as [|expr value_list IH]; intros acc;
    simpl; [done|].
  destruct expr; simpl; try done. apply IH.
Qed.

(** What the loop of INSERT does, in full: it appends the rows of the value
    lists in order and stops at the first value list that is not made of
    literals or whose row does not fit the schema. *)
Lemma insert_value_lists_spec values t :
  match insert_value_lists values t with
  | Ok _ t' =>
      exists rows,
        values = map literal_row rows /\
        Forall (conforms (schema_ t)) rows /\
        t' = mkTable (name_ t) (schema_ t) (rows_ t ++ rows)
  | Throw w t' =>
      exists rows value_list,
        values !! length rows = Some value_list /\
        take (length rows) values = map literal_row rows /\
        Forall (conforms (schema_ t)) rows /\
        t' = mkTable (name_ t) (schema_ t) (rows_ t ++ rows) /\
        ((forallb is_literal value_list = false /\
          w = "Complex expressions in INSERT not yet supported") \/
         (exists row, value_list = literal_row row /\
                      ~ conforms (schema_ t) row /\
                      w = "Row validation failed"))
  | Undefined | OutOfFuel => False
  end.
Proof.
  revert t. induction values as [|value_list values IH]; intros t; simpl.
  - exists []. rewrite app_nil_r. by destruct t.
  - unfold bind.
    destruct (forallb is_literal value_list) eqn:Hlit.
    + assert (exists row, value_list = literal_row row) as [row ->].
      { clear -Hlit. induction value_list as [|expr vl IHvl].
        - by exists [].
        - simpl in Hlit. apply andb_true_iff in Hlit as [Hexpr Hvl].
          destruct (IHvl Hvl) as [row ->].
          destruct expr as [v| | |]; try done. by exists (v :: row). }
      rewrite insert_row_of_literals. simpl.
      destruct (conforms_dec (schema_ t) row) as [Hc|Hn].
      * rewrite (proj1 (insertRow_conforms row t) Hc).
        specialize (IH (mkTable (name_ t) (schema_ t) (rows_ t ++ [row]))).
        destruct (insert_value_lists values _) as [[] t'|w t'| |];
          [| |done|done]; simpl in IH.
        -- destruct IH as (rows & -> & Hrows & ->).
           exists (row :: rows). split; [done|]. split; [by constructor|].
           by rewrite <- app_assoc.
        -- destruct IH as (rows & vl & Hvl & Htake & Hrows & -> & Hwhy).
           exists (row :: rows), vl. simpl.
           split; [done|]. split; [by rewrite Htake|].
           split; [by constructor|]. split; [by rewrite <- app_assoc|done].
      * rewrite (proj2 (insertRow_conforms row t) Hn).
        exists [], (literal_row row). simpl. split; [done|]. split; [done|].
        split; [done|]. split; [rewrite app_nil_r; by destruct t|].
        right. by exists row.
    + rewrite insert_row_of_complex by done.
      exists [], value_list. simpl. split; [done|]. split; [done|].
      split; [done|]. split; [rewrite app_nil_r; by destruct t|]. by left.
Qed.

Lemma generateCode_Insert node g :
  generateCode (Insert node) g =
  match getTable (InsertStatement.table_name node) (current_database_ g) with
  | None =>
      Throw ("Table not found: " ++ InsertStatement.table_name node)%string
        (mkCodegen (current_database_ g) [])
  | Some table =>
      match insert_value_lists (InsertStatement.values node) table with
      | Ok a t' =>
          Ok a (mkCodegen (<[InsertStatement.table_name node := t']>
                             (current_database_ g)) [])
      | Throw w t' =>
          Throw w (mkCodegen (<[InsertStatement.table_name node := t']>
                                (current_database_ g)) [])
      | Undefined => Undefined
      | OutOfFuel => OutOfFuel
      end
  end.
Proof.
  unfold generateCode, accept, visit_InsertStatement, bind, get, put,
    on_table, on_database; simpl.
  destruct (getTable _ _) as [table|]; [|done].
  by destruct (insert_value_lists _ table).
Qed.

(** C4, as the code has it: INSERT is atomic per value list, not per
    statement.  When an INSERT fails on a table that exists, the statement
    has a first value list that fails, either because it holds an
    expression that is no literal or because its row does not fit the
    schema; the rows of the value lists before that one all fit the schema
    and have been appended, in order, and stay in the table; the failing
    value list and those after it add nothing, and no other table changes.
    The database is unchanged when the table is missing or when the
    statement has a single value list. *)
Theorem failing_insert_keeps_earlier_rows :
  forall node g w g',
    generateCode (Insert node) g = Throw w g' ->
    match getTable (InsertStatement.table_name node) (current_database_ g) with
    | None =>
        w = ("Table not found: " ++ InsertStatement.table_name node)%string /\
        current_database_ g' = current_database_ g
    | Some table =>
        exists rows value_list,
          InsertStatement.values node !! length rows = Some value_list /\
          length rows < length (InsertStatement.values node) /\
          take (length rows) (InsertStatement.values node)
            = map literal_row rows /\
          Forall (conforms (schema_ table)) rows /\
          ((forallb is_literal value_list = false /\
            w = "Complex expressions in INSERT not yet supported") \/
           (exists row, value_list = literal_row row /\
                        ~ conforms (schema_ table) row /\
                        w = "Row validation failed")) /\
          current_database_ g' =
            <[InsertStatement.table_name node :=
                mkTable (name_ table) (schema_ table) (rows_ table ++ rows)]>
              (current_database_ g) /\
          (length (InsertStatement.values node) = 1 ->
           current_database_ g' = current_database_ g)
    end.
Proof.
  intros node g w g'. rewrite generateCode_Insert.
  destruct (getTable _ _) as [table|] eqn:Htable.
  - pose proof (insert_value_lists_spec (InsertStatement.values node) table)
      as Hloop.
    destruct (insert_value_lists _ table) as [[] t'|w' t'| |]; try done.
    intros [= <- <-]. simpl.
    destruct Hloop as (rows & value_list & Hlook & Htake & Hrows & -> & Hwhy).
    pose proof (lookup_lt_Some _ _ _ Hlook) as Hlen.
    exists rows, value_list. repeat split; try done.
    intros Hone. destruct rows as [|row rows]; [|simpl in Hlen; lia].
    rewrite app_nil_r. apply insert_id. by destruct table.
  - by intros [= <- <-].
Qed.

Lemma failing_insert_keeps_earlier_rows_witness :
  exists rows value_list,
    [[LiteralExpression (VInteger 4)]; [LiteralExpression (VText "x")]]
      !! length rows = Some value_list /\
    take (length rows)
      [[LiteralExpression (VInteger 4)]; [LiteralExpression (VText "x")]]
      = map literal_row rows /\
    (exists row, value_list = literal_row row /\
                 ~ conforms (addColumn (mkColumn "c" INTEGER true false)
                               Schema_empty) row) /\
    <["t" := mkTable "t"
               (addColumn (mkColumn "c" INTEGER true false) Schema_empty)
               [[VInteger 3]; [VInteger 1]; [VInteger 2]; [VInteger 4]]]>
      three_rows =
    <["t" := mkTable "t"
               (addColumn (mkColumn "c" INTEGER true false) Schema_empty)
               ([[VInteger 3]; [VInteger 1]; [VInteger 2]] ++ rows)]>
      three_rows.
Proof.
  destruct (failing_insert_keeps_earlier_rows
              (InsertStatement.mk "t" []
                 [[LiteralExpression (VInteger 4)];
                  [LiteralExpression (VText "x")]])
              (mkCodegen three_rows [])
              "Row validation failed"
              (mkCodegen
                 (<["t" := mkTable "t"
                     (addColumn (mkColumn "c" INTEGER true false) Schema_empty)
                     [[VInteger 3]; [VInteger 1]; [VInteger 2]; [VInteger 4]]]>
                    three_rows) [])
              eq_refl)
    as (rows & value_list & Hlook & _ & Htake & _ & Hwhy & Hdb & _).
  exists rows, value_list.
  refine (conj Hlook (conj Htake (conj _ Hdb))).
  destruct Hwhy as [[_ Hw] | (row & Hrow & Hfit & _)]; [discriminate Hw|].
  exists row. exact (conj Hrow Hfit).
Defined.

(** C4 fails as stated: [INSERT INTO t VALUES (3),(1),('x')] into an empty
    table [t (c INTEGER)] fails on its third value list, and the table then
    holds two rows, not none. *)
Lemma failing_insert_changes_row_count :
  returned_error (run_session failing_insert_session)
    = Some "Row validation failed" /\
  final_rows_of "t" (run_session failing_insert_session)
    = Some [[VInteger 3]; [VInteger 1]] /\
  final_rows_of "t" (run_session [ "CREATE TABLE t (c INTEGER)" ]) = Some [].
Proof. repeat split; vm_compute; reflexivity. Qed.

Lemma generateCode_DropTable node g :
  generateCode (DropTable node) g =
  Ok tt (mkCodegen (delete (DropTableStatement.table_name node)
                      (current_database_ g)) []).
Proof. done. Qed.

(** What a statement does to one table of the database. *)
Lemma generateCode_table statement g n t :
  current_database_ g !! n = Some t ->
  match generateCode statement g with
  | Ok _ g' | Throw _ g' =>
      (exists rows,
         Forall (conforms (schema_ t)) rows /\
         current_database_ g' !! n
           = Some (mkTable (name_ t) (schema_ t) (rows_ t ++ rows))) \/
      (statement = DropTable (DropTableStatement.mk n) /\
       current_database_ g' !! n = None)
  | Undefined | OutOfFuel => False
  end.
Proof.
  intros Hn.
  assert (current_database_ g !! n
          = Some (mkTable (name_ t) (schema_ t) (rows_ t ++ []))) as Hsame
    by (rewrite app_nil_r; by destruct t).
  destruct statement as [node|node|node|node].
  - rewrite generateCode_Select.
    destruct (getTable _ _); simpl; left; by exists [].
  - rewrite generateCode_Insert.
    destruct (getTable _ _) as [table|] eqn:Htable; simpl;
      [|left; by exists []].
    pose proof (insert_value_lists_spec (InsertStatement.values node) table)
      as Hloop.
    assert (forall rows,
              Forall (conforms (schema_ table)) rows ->
              exists rows',
                Forall (conforms (schema_ t)) rows' /\
                <[InsertStatement.table_name node :=
                    mkTable (name_ table) (schema_ table)
                      (rows_ table ++ rows)]> (current_database_ g) !! n
                = Some (mkTable (name_ t) (schema_ t) (rows_ t ++ rows')))
      as Hkeep.
    { intros rows Hrows.
      destruct (decide (InsertStatement.table_name node = n)) as [Heq|Hne].
      - rewrite Heq, lookup_insert_eq. unfold getTable in Htable.
        rewrite Heq, Hn in Htable. injection Htable as <-. by exists rows.
      - rewrite lookup_insert_ne by done. by exists []. }
    destruct (insert_value_lists _ table) as [[] t'|w t'| |]; try done; simpl.
    + destruct Hloop as (rows & _ & Hrows & ->). left. by apply Hkeep.
    + destruct Hloop as (rows & vl & _ & _ & Hrows & -> & _).
      left. by apply Hkeep.
  - rewrite generateCode_CreateTable. unfold hasTable.
    destruct (current_database_ g !! CreateTableStatement.table_name node)
      as [existing|] eqn:Hexists; simpl; left; exists [];
      (split; [done|]); [done|].
    rewrite lookup_insert_ne; [done|]. intros Heq. congruence.
  - rewrite generateCode_DropTable. simpl.
    destruct (decide (DropTableStatement.table_name node = n)) as [Heq|Hne].
    + right. split; [destruct node; simpl in *; by subst|].
      by rewrite Heq, lookup_delete_eq.
    + left. exists []. split; [done|]. by rewrite lookup_delete_ne.
Qed.

Lemma generateCode_conforms statement g :
  database_conforms (current_database_ g) ->
  match generateCode statement g with
  | Ok _ g' | Throw _ g' => database_conforms (current_database_ g')
  | Undefined | OutOfFuel => False
  end.
Proof.
  intros Hdb. destruct statement as [node|node|node|node].
  - rewrite generateCode_Select. by destruct (getTable _ _).
  - rewrite generateCode_Insert.
    destruct (getTable _ _) as [table|] eqn:Htable; simpl; [|done].
    destruct (Hdb _ _ Htable) as [Hname Hrows].
    pose proof (insert_value_lists_spec (InsertStatement.values node) table)
      as Hloop.
    assert (forall rows,
              Forall (conforms (schema_ table)) rows ->
              database_conforms
                (<[InsertStatement.table_name node :=
                     mkTable (name_ table) (schema_ table)
                       (rows_ table ++ rows)]> (current_database_ g)))
      as Hkeep.
    { intros rows Hnew n t.
      destruct (decide (InsertStatement.table_name node = n)) as [Heq|Hne].
      - rewrite Heq, lookup_insert_eq. intros [= <-]. simpl.
        split; [congruence|]. by apply Forall_app.
      - rewrite lookup_insert_ne by done. apply Hdb. }
    destruct (insert_value_lists _ table) as [[] t'|w t'| |]; try done; simpl.
    + destruct Hloop as (rows & _ & Hnew & ->). by apply Hkeep.
    + destruct Hloop as (rows & vl & _ & _ & Hnew & -> & _). by apply Hkeep.
  - rewrite generateCode_CreateTable.
    destruct (hasTable _ _); [done|]. simpl. intros n t.
    destruct (decide (CreateTableStatement.table_name node = n)) as [Heq|Hne].
    + rewrite Heq, lookup_insert_eq. intros [= <-]. simpl. by split.
    + rewrite lookup_insert_ne by done. apply Hdb.
  - rewrite generateCode_DropTable. simpl. intros n t Hlookup.
    apply lookup_delete_Some in Hlookup as [_ Hlookup]. by apply Hdb.
Qed.

(** The database a call of [execute] leaves is the one it found, or the
    one the executor left for the statement parsed. *)
Lemma execute_database sql e rows e' :
  execute sql e = Ok rows e' ->
  database_ e' = database_ e \/
  exists statement,
    database_after
      (generateCode statement (mkCodegen (database_ e) (codegen_ e)))
    = Some (database_ e').
Proof.
  rewrite execute_tokenized. unfold execute_on, catching, execute_tokens.
  destruct (Lexer.tokenize sql) as [|token tokens]; simpl.
  { intros [= <- <-]. by left. }
  destruct (Parser.parseStatement (token :: tokens))
    as [statement p|w p| |]; try done; simpl.
  - destruct (generateCode statement _) as [[] g|w g| |] eqn:Hgen; try done;
      intros [= <- <-]; right; exists statement; by rewrite Hgen.
  - intros [= <- <-]. by left.
Qed.

Lemma execute_all_conforms sqls last e rows e' :
  database_conforms (database_ e) ->
  execute_all sqls last e = Ok rows e' ->
  database_conforms (database_ e').
Proof.
  revert last e. induction sqls as [|sql sqls IH]; intros last e Hdb; simpl.
  - by intros [= <- <-].
  - unfold bind. destruct (execute sql e) as [rows1 e1| | |] eqn:Hrun;
      try done.
    apply IH.
    destruct (execute_database sql e rows1 e1 Hrun) as [-> | [statement Hst]];
      [done|].
    pose proof (generateCode_conforms statement
                  (mkCodegen (database_ e) (codegen_ e)) Hdb) as Hgen.
    destruct (generateCode statement _) as [[] g|w g| |]; try done;
      simpl in Hst; by injection Hst as <-.
Qed.

(** X2: the stored rows always fit their schema.  If every table of the
    database is stored under its own name and every stored row has one
    value per column, nulls only in nullable columns and other values of
    the declared type, then this still holds after any statement is
    executed, whether it succeeds or throws; so it holds after any sequence
    of calls of [execute] on a new engine. *)
Theorem stored_rows_conform :
  (forall statement g,
     database_conforms (current_database_ g) ->
     match generateCode statement g with
     | Ok _ g' | Throw _ g' => database_conforms (current_database_ g')
     | Undefined | OutOfFuel => False
     end) /\
  (forall sqls rows e,
     run_session sqls = Ok rows e -> database_conforms (database_ e)).
Proof.
  split; [apply generateCode_conforms|].
  intros sqls rows e Hrun.
  apply (execute_all_conforms sqls [] QueryEngine_new rows e); [|done].
  intros n t. simpl. by rewrite lookup_empty.
Qed.

Lemma stored_rows_conform_witness :
  database_conforms
    (<["t" := Table_new "t" (schema_of [mkColumn "c" INTEGER true false])]> ∅).
Proof.
  pose proof (proj1 stored_rows_conform
                (CreateTable (CreateTableStatement.mk "t"
                                [mkColumn "c" INTEGER true false]))
                (mkCodegen ∅ [])) as H.
  rewrite generateCode_CreateTable in H. unfold hasTable in H. simpl in H.
  rewrite lookup_empty in H. apply H.
  intros n t. by rewrite lookup_empty.
Defined.

(** X3: tables are append-only and their schema never changes.  Whatever
    statement is executed and whether it succeeds or throws, a table that
    existed before is afterwards either there with the same name, the same
    schema and its old rows in their old order, followed by the rows newly
    inserted (which fit the schema), or it is gone, and then the statement
    was the DROP TABLE of that very table. *)
Theorem tables_are_append_only :
  forall statement g n t,
    current_database_ g !! n = Some t ->
    match generateCode statement g with
    | Ok _ g' | Throw _ g' =>
        (exists rows,
           Forall (conforms (schema_ t)) rows /\
           current_database_ g' !! n
             = Some (mkTable (name_ t) (schema_ t) (rows_ t ++ rows))) \/
        (statement = DropTable (DropTableStatement.mk n) /\
         current_database_ g' !! n = None)
    | Undefined | OutOfFuel => False
    end.
Proof. intros statement g n t. apply generateCode_table. Qed.

Lemma tables_are_append_only_witness :
  (exists rows,
     Forall (conforms (addColumn (mkColumn "c" INTEGER true false) Schema_empty))
       rows /\
     delete "u" three_rows !! "t"
       = Some (mkTable "t"
                 (addColumn (mkColumn "c" INTEGER true false) Schema_empty)
                 ([[VInteger 3]; [VInteger 1]; [VInteger 2]] ++ rows))) \/
  (DropTable (DropTableStatement.mk "u") = DropTable (DropTableStatement.mk "t")
   /\ delete "u" three_rows !! "t" = None).
Proof.
  exact (tables_are_append_only
           (DropTable (DropTableStatement.mk "u")) (mkCodegen three_rows [])
           "t"
           (mkTable "t"
              (addColumn (mkColumn "c" INTEGER true false) Schema_empty)
              [[VInteger 3]; [VInteger 1]; [VInteger 2]])
           eq_refl).
Defined.

(** X4: DROP TABLE never fails: the table is removed if it is there and
    nothing happens if it is not; dropping twice is dropping once; no other
    table is touched; afterwards SELECT and INSERT on that name throw
    "Table not found" and leave the database as it is. *)
Theorem drop_table_is_idempotent :
  forall n g,
    let dropped := mkCodegen (delete n (current_database_ g)) [] in
    generateCode (DropTable (DropTableStatement.mk n)) g = Ok tt dropped /\
    generateCode (DropTable (DropTableStatement.mk n)) dropped
      = Ok tt dropped /\
    (current_database_ g !! n = None ->
     current_database_ dropped = current_database_ g) /\
    (forall n', n' <> n ->
       current_database_ dropped !! n' = current_database_ g !! n') /\
    (forall select_list where_clause order_by order_desc limit,
       generateCode
         (Select (SelectStatement.mk select_list n where_clause order_by
                    order_desc limit)) dropped
       = Throw ("Table not found: " ++ n)%string dropped) /\
    (forall columns values,
       generateCode (Insert (InsertStatement.mk n columns values)) dropped
       = Throw ("Table not found: " ++ n)%string dropped).
Proof.
  intros n g dropped. unfold dropped.
  split; [done|]. split.
  { rewrite generateCode_DropTable. simpl. by rewrite delete_delete_eq. }
  split; [intros Hnone; simpl; by apply delete_id|].
  split; [intros n' Hne; simpl; by rewrite lookup_delete_ne|].
  split.
  - intros. rewrite generateCode_Select. unfold getTable. simpl.
    by rewrite lookup_delete_eq.
  - intros. rewrite generateCode_Insert. unfold getTable. simpl.
    by rewrite lookup_delete_eq.
Qed.

Lemma drop_table_is_idempotent_witness :
  delete "u" three_rows = three_rows.
Proof.
  apply (proj1 (proj2 (proj2 (drop_table_is_idempotent "u"
                                (mkCodegen three_rows []))))).
  vm_compute. reflexivity.
Defined.

(** X5: CREATE TABLE on a name that exists throws "Table already exists"
    and changes nothing, the existing table keeps its schema and rows; on a
    new name it adds a table without rows whose columns are the declared
    ones in their order, and touches no other table; dropping the new table
    gives the database back. *)
Theorem create_table_refuses_existing_name :
  forall n columns g,
    (forall t,
       current_database_ g !! n = Some t ->
       generateCode (CreateTable (CreateTableStatement.mk n columns)) g
       = Throw ("Table already exists: " ++ n)%string
           (mkCodegen (current_database_ g) [])) /\
    (current_database_ g !! n = None ->
     exists g',
       generateCode (CreateTable (CreateTableStatement.mk n columns)) g
         = Ok tt g' /\
       (exists t, current_database_ g' !! n = Some t /\
                  name_ t = n /\ rows_ t = [] /\
                  columns_ (schema_ t) = columns) /\
       (forall n', n' <> n ->
          current_database_ g' !! n' = current_database_ g !! n') /\
       database_after (generateCode (DropTable (DropTableStatement.mk n)) g')
         = Some (current_database_ g)).
Proof.
  intros n columns g. split.
  - intros t Ht. rewrite generateCode_CreateTable. unfold hasTable. simpl.
    by rewrite Ht.
  - intros Hnone. eexists. split.
    { rewrite generateCode_CreateTable. unfold hasTable. simpl.
      by rewrite Hnone. }
    simpl. split; [|split].
    + eexists. rewrite lookup_insert_eq. split; [done|]. simpl.
      by rewrite schema_of_columns.
    + intros n' Hne. by rewrite lookup_insert_ne.
    + by rewrite delete_insert_id.
Qed.

Lemma create_table_refuses_existing_name_witness :
  generateCode
    (CreateTable (CreateTableStatement.mk "t" [mkColumn "x" TEXT true false]))
    (mkCodegen three_rows [])
  = Throw "Table already exists: t" (mkCodegen three_rows []).
Proof.
  apply (proj1 (create_table_refuses_existing_name "t"
                  [mkColumn "x" TEXT true false] (mkCodegen three_rows []))
           (mkTable "t"
              (addColumn (mkColumn "c" INTEGER true false) Schema_empty)
              [[VInteger 3]; [VInteger 1]; [VInteger 2]])).
  reflexivity.
Defined.

Lemma insert_value_lists_app values1 values2 t :
  insert_value_lists (values1 ++ values2) t =
  match insert_value_lists values1 t with
  | Ok _ t1 => insert_value_lists values2 t1
  | other => other
  end.
Proof.
  revert t. induction values1 as [|vl values1 IH]; intros t; simpl; [done|].
  unfold bind. destruct (insert_row_of vl [] t) as [row t0| | |]; try done.
  destruct (insertRow row t0) as [[] t1|w t1| |]; try done.
Qed.

(** X6: an INSERT with several value lists does to the database what the
    INSERTs of its parts do one after the other: executing
    [VALUES vs, ws] is executing [VALUES vs] and, if that did not throw,
    [VALUES ws] on the result. *)
Theorem insert_splits_into_single_inserts :
  forall n columns values1 values2 g,
    generateCode (Insert (InsertStatement.mk n columns (values1 ++ values2))) g =
    match generateCode (Insert (InsertStatement.mk n columns values1)) g with
    | Ok _ g1 => generateCode (Insert (InsertStatement.mk n columns values2)) g1
    | other => other
    end.
Proof.
  intros n columns values1 values2 g. rewrite !generateCode_Insert. simpl.
  destruct (getTable n (current_database_ g)) as [table|] eqn:Htable; [|done].
  rewrite insert_value_lists_app.
  destruct (insert_value_lists values1 table) as [[] t1|w t1| |]; try done.
  rewrite generateCode_Insert. unfold getTable. simpl.
  rewrite lookup_insert_eq.
  destruct (insert_value_lists values2 t1) as [[] t2|w t2| |]; try done;
    by rewrite insert_insert_eq.
Qed.

(** X7: INSERT succeeds exactly on literal rows that fit the schema, and
    SELECT then reads them back: on an existing table, a statement whose
    value lists are literals forming rows that all fit the schema succeeds,
    and [SELECT * FROM] that table then returns the old rows followed by
    the new ones, in the order written; any other INSERT throws. *)
Theorem insert_then_select_reads_back :
  forall n columns values g table,
    getTable n (current_database_ g) = Some table ->
    (forall rows,
       values = map literal_row rows ->
       Forall (conforms (schema_ table)) rows ->
       exists g1,
         generateCode (Insert (InsertStatement.mk n columns values)) g
           = Ok tt g1 /\
         generateCode (select_all n) g1
           = Ok tt (mkCodegen (current_database_ g1) (rows_ table ++ rows))) /\
    (forall g1,
       generateCode (Insert (InsertStatement.mk n columns values)) g
         = Ok tt g1 ->
       exists rows,
         values = map literal_row rows /\
         Forall (conforms (schema_ table)) rows).
Proof.
  intros n columns values g table Htable. split.
  - intros rows -> Hrows. rewrite generateCode_Insert. simpl. rewrite Htable.
    pose proof (insert_value_lists_spec (map literal_row rows) table) as Hloop.
    destruct (insert_value_lists _ table) as [[] t'|w t'| |]; try done.
    + destruct Hloop as (rows' & Heq & _ & ->).
      assert (rows' = rows) as ->.
      { clear -Heq. revert rows' Heq.
        induction rows as [|r rows IH]; intros [|r' rows']; simpl; try done.
        intros [= Hr Hrest]. apply literal_row_inj in Hr as ->.
        f_equal. by apply IH. }
      eexists. split; [done|].
      unfold select_all. rewrite generateCode_Select. unfold getTable. simpl.
      rewrite lookup_insert_eq. simpl.
      f_equal. f_equal. clear. induction (rows_ table ++ rows) as [|r l IH];
        [done|]. simpl. by rewrite IH.
    + exfalso.
      destruct Hloop as (rows' & vl & Hvl & Htake & _ & _ & Hwhy).
      assert (exists row, rows !! length rows' = Some row /\
                          vl = literal_row row) as (row & Hrow & ->).
      { rewrite list_lookup_fmap in Hvl.
        destruct (rows !! length rows') as [row|]; [|done].
        injection Hvl as <-. by exists row. }
      destruct Hwhy as [[Hlit _] | (row' & Heq & Hn & _)].
      * clear -Hlit. induction row as [|v row IH]; [done|]. by apply IH.
      * apply literal_row_inj in Heq as <-.
        apply Hn. by apply (Forall_lookup_1 _ _ _ _ Hrows Hrow).
  - intros g1. rewrite generateCode_Insert. simpl. rewrite Htable.
    pose proof (insert_value_lists_spec values table) as Hloop.
    destruct (insert_value_lists _ table) as [[] t'|w t'| |]; try done.
    intros _. destruct Hloop as (rows & -> & Hrows & _). by exists rows.
Qed.

Lemma insert_then_select_reads_back_witness :
  exists g1,
    generateCode
      (Insert (InsertStatement.mk "t" []
                 (map literal_row [[VInteger 4]; [VNull]])))
      (mkCodegen three_rows []) = Ok tt g1 /\
    generateCode (select_all "t") g1
      = Ok tt (mkCodegen (current_database_ g1)
                 ([[VInteger 3]; [VInteger 1]; [VInteger 2]]
                  ++ [[VInteger 4]; [VNull]])).
Proof.
  apply (proj1 (insert_then_select_reads_back "t" []
                  (map literal_row [[VInteger 4]; [VNull]])
                  (mkCodegen three_rows [])
                  (mkTable "t"
                     (addColumn (mkColumn "c" INTEGER true false) Schema_empty)
                     [[VInteger 3]; [VInteger 1]; [VInteger 2]])
                  eq_refl) [[VInteger 4]; [VNull]] eq_refl).
  repeat constructor.
Defined.

Lemma generateCode_exceptions :
  forall statement g w g',
    generateCode statement g = Throw w g' ->
    results_ g' = [] /\
    match statement with
    | Select node =>
        getTable (SelectStatement.from_table node) (current_database_ g) = None
        /\ w = ("Table not found: " ++ SelectStatement.from_table node)%string
        /\ current_database_ g' = current_database_ g
    | Insert node =>
        (getTable (InsertStatement.table_name node) (current_database_ g) = None
         /\ w = ("Table not found: " ++ InsertStatement.table_name node)%string
         /\ current_database_ g' = current_database_ g) \/
        (hasTable (InsertStatement.table_name node) (current_database_ g) = true
         /\ (w = "Complex expressions in INSERT not yet supported"
             \/ w = "Row validation failed"))
    | CreateTable node =>
        hasTable (CreateTableStatement.table_name node) (current_database_ g)
          = true
        /\ w = ("Table already exists: "
                  ++ CreateTableStatement.table_name node)%string
        /\ current_database_ g' = current_database_ g
    | DropTable _ => False
    end.
Proof.
  intros statement g w g'. destruct statement as [node|node|node|node].
  - rewrite generateCode_Select. destruct (getTable _ _); [done|].
    by intros [= <- <-].
  - rewrite generateCode_Insert. unfold hasTable, getTable.
    destruct (current_database_ g !! InsertStatement.table_name node)
      as [table|]; [|intros [= <- <-]; split; [done|]; by left].
    pose proof (insert_value_lists_spec (InsertStatement.values node) table)
      as Hloop.
    destruct (insert_value_lists _ table) as [[] t'|w' t'| |]; try done.
    intros [= <- <-]. split; [done|]. right. split; [done|].
    destruct Hloop as (rows & vl & _ & _ & _ & _ & [[_ ->]|(row & _ & _ & ->)]);
      [by left|by right].
  - rewrite generateCode_CreateTable. destruct (hasTable _ _); [|done].
    by intros [= <- <-].
  - by rewrite generateCode_DropTable.
Qed.

(** X8: the exceptions of the executor.  A statement that throws leaves no
    result rows, and: a SELECT throws only "Table not found" for a missing
    table, a CREATE TABLE only "Table already exists" for an existing one,
    both without touching the database; an INSERT throws "Table not found"
    for a missing table (database untouched) and otherwise only "Complex
    expressions in INSERT not yet supported" or "Row validation failed";
    DROP TABLE never throws. *)
Theorem executor_exceptions :
  forall statement g w g',
    generateCode statement g = Throw w g' ->
    results_ g' = [] /\
    match statement with
    | Select node =>
        getTable (SelectStatement.from_table node) (current_database_ g) = None
        /\ w = ("Table not found: " ++ SelectStatement.from_table node)%string
        /\ current_database_ g' = current_database_ g
    | Insert node =>
        (getTable (InsertStatement.table_name node) (current_database_ g) = None
         /\ w = ("Table not found: " ++ InsertStatement.table_name node)%string
         /\ current_database_ g' = current_database_ g) \/
        (hasTable (InsertStatement.table_name node) (current_database_ g) = true
         /\ (w = "Complex expressions in INSERT not yet supported"
             \/ w = "Row validation failed"))
    | CreateTable node =>
        hasTable (CreateTableStatement.table_name node) (current_database_ g)
          = true
        /\ w = ("Table already exists: "
                  ++ CreateTableStatement.table_name node)%string
        /\ current_database_ g' = current_database_ g
    | DropTable _ => False
    end.
Proof. apply generateCode_exceptions. Qed.

Lemma executor_exceptions_witness :
  results_ (mkCodegen three_rows []) = [] /\
  hasTable "t" three_rows = true /\
  "Table already exists: t" = ("Table already exists: " ++ "t")%string /\
  three_rows = three_rows.
Proof.
  exact (executor_exceptions
           (CreateTable (CreateTableStatement.mk "t"
                           [mkColumn "x" TEXT true false]))
           (mkCodegen three_rows [[VNull]])
           "Table already exists: t" (mkCodegen three_rows []) eq_refl).
Defined.

Lemma evaluateWhereClause_constant expr row row' :
  evaluateWhereClause expr row = evaluateWhereClause expr row'.
Proof.
  induction expr as [v|tn cn|left_ IHl op right_ IHr|op operand IH]; simpl;
    try done.
  by rewrite IHl, IHr.
Qed.

Lemma filter_constant {A} (f : A -> bool) (l : list A) :
  (forall x y, f x = f y) -> List.filter f l = l \/ List.filter f l = [].
Proof.
  intros Hf. destruct l as [|x l]; [by left|].
  destruct (f x) eqn:Hx; [left|right].
  - apply forallb_filter_id. apply forallb_forall. intros y _.
    by rewrite (Hf y x).
  - assert (forall l', List.filter f l' = []) as Hnone; [|apply Hnone].
    induction l' as [|y l' IH]; [done|]. simpl. by rewrite (Hf y x), Hx.
Qed.

(** X9: the WHERE clause never looks at the row.  What
    [evaluateWhereClause] yields for an expression is the same for every
    row, so a SELECT on an existing table returns either every stored row
    or none at all, whatever its WHERE clause is. *)
Theorem where_clause_is_all_or_nothing :
  (forall expr row row',
     evaluateWhereClause expr row = evaluateWhereClause expr row') /\
  (forall node g table,
     getTable (SelectStatement.from_table node) (current_database_ g)
       = Some table ->
     generateCode (Select node) g
       = Ok tt (mkCodegen (current_database_ g) (rows_ table)) \/
     generateCode (Select node) g = Ok tt (mkCodegen (current_database_ g) [])).
Proof.
  split; [apply evaluateWhereClause_constant|].
  intros node g table Htable. rewrite generateCode_Select, Htable.
  destruct (filter_constant (include_row (SelectStatement.where_clause node))
              (rows_ table)) as [-> | ->]; [|by left|by right].
  intros row row'. destruct (SelectStatement.where_clause node); [|done].
  apply evaluateWhereClause_constant.
Qed.

Lemma where_clause_is_all_or_nothing_witness :
  generateCode
    (Select (SelectStatement.mk [ColumnExpression1 "*"] "t"
               (Some (BinaryExpression (ColumnExpression1 "c")
                        BinaryExpression.GREATER_THAN
                        (LiteralExpression (VInteger 1))))
               [] false (-1)))
    (mkCodegen three_rows [])
  = Ok tt (mkCodegen three_rows [[VInteger 3]; [VInteger 1]; [VInteger 2]]) \/
  generateCode
    (Select (SelectStatement.mk [ColumnExpression1 "*"] "t"
               (Some (BinaryExpression (ColumnExpression1 "c")
                        BinaryExpression.GREATER_THAN
                        (LiteralExpression (VInteger 1))))
               [] false (-1)))
    (mkCodegen three_rows [])
  = Ok tt (mkCodegen three_rows []).
Proof.
  exact (proj2 where_clause_is_all_or_nothing
           (SelectStatement.mk [ColumnExpression1 "*"] "t"
              (Some (BinaryExpression (ColumnExpression1 "c")
                       BinaryExpression.GREATER_THAN
                       (LiteralExpression (VInteger 1))))
              [] false (-1))
           (mkCodegen three_rows [])
           (mkTable "t"
              (addColumn (mkColumn "c" INTEGER true false) Schema_empty)
              [[VInteger 3]; [VInteger 1]; [VInteger 2]])
           eq_refl).
Defined.

(** X10: what a statement leaves behind.  The rows of an earlier statement
    never reach the result of the next one ([results_] is cleared first);
    a SELECT never changes the database; INSERT, CREATE TABLE and DROP
    TABLE never return a row. *)
Theorem results_belong_to_one_statement :
  forall statement g,
    generateCode statement g
      = generateCode statement (mkCodegen (current_database_ g) []) /\
    match generateCode statement g with
    | Ok _ g' | Throw _ g' =>
        match statement with
        | Select _ => current_database_ g' = current_database_ g
        | _ => results_ g' = []
        end
    | Undefined | OutOfFuel => False
    end.
Proof.
  intros statement g. split; [done|].
  destruct statement as [node|node|node|node].
  - rewrite generateCode_Select. by destruct (getTable _ _).
  - rewrite generateCode_Insert. destruct (getTable _ _) as [table|]; [|done].
    pose proof (insert_value_lists_spec (InsertStatement.values node) table)
      as Hloop.
    by destruct (insert_value_lists _ table) as [[] t'|w' t'| |].
  - rewrite generateCode_CreateTable. by destruct (hasTable _ _).
  - by rewrite generateCode_DropTable.
Qed.

(** ** Lookups in a schema *)

(** X11: looking a column up by name.  In the schema that CREATE TABLE
    builds from any column list, [getColumn(name)] never reads outside
    [columns_]: it returns the last column of that name, which is also what
    [getColumn(getColumnIndex(name))] returns, or [nullptr] when no column
    has the name, which is exactly when [getColumnIndex] throws "Column not
    found"; [getColumn(index)] throws exactly for an index that is not
    below the column count. *)
Theorem column_lookup_by_name :
  forall (columns : list Column) (n : string) (St : Type) (s0 : St),
    let schema := schema_of columns in
    match getColumn_named schema n s0 with
    | Ok (Some col) s1 =>
        s1 = s0 /\ name col = n /\
        exists i,
          last_named columns n i /\
          getColumnIndex schema n s0 = Ok i s0 /\
          getColumn schema i s0 = Ok col s0
    | Ok None s1 =>
        s1 = s0 /\ Forall (fun col => name col <> n) columns /\
        getColumnIndex schema n s0 = Throw ("Column not found: " ++ n)%string s0
    | Throw _ _ | Undefined | OutOfFuel => False
    end /\
    (forall i,
       getColumnCount schema <= i <->
       getColumn schema i s0 = Throw "Column index out of range" s0).
Proof.
  intros columns n St s0 schema. split.
  - pose proof (schema_of_index columns n) as Hindex.
    fold schema in Hindex.
    unfold getColumn_named, getColumnIndex, getColumn.
    destruct (column_index_ schema !! n) as [i|] eqn:Hi.
    + destruct (proj1 (Hindex i) eq_refl) as [(col & Hcol & Hname) Hlast].
      rewrite Hcol. simpl. split; [done|]. split; [done|].
      exists i. unfold schema in Hcol. rewrite schema_of_columns in Hcol.
      split; [|split; [done|]].
      * split; [by exists col|].
        intros j col' Hj. apply Hlast.
        unfold schema. by rewrite schema_of_columns.
      * unfold schema. rewrite schema_of_columns. by rewrite Hcol.
    + simpl. split; [done|]. split; [|done].
      apply Forall_forall. intros col Hin Hname.
      apply list_elem_of_lookup in Hin as [j Hj].
      assert (exists i, last_named (columns_ schema) n i) as [i Hlast].
      { unfold schema. rewrite schema_of_columns.
        clear -Hj Hname. revert j col Hj Hname.
        induction columns as [|c columns IH] using rev_ind; intros j col Hj Hn.
        - done.
        - destruct (decide (name c = n)) as [Hc|Hc].
          + exists (length columns). split.
            * exists c. split; [|done].
              by rewrite lookup_app_r, Nat.sub_diag by lia.
            * intros k col' Hk _. apply lookup_lt_Some in Hk.
              rewrite length_app in Hk. simpl in Hk. lia.
          + assert (columns !! j = Some col) as Hj'.
            { destruct (decide (j < length columns)) as [Hlt|Hge].
              - by rewrite lookup_app_l in Hj.
              - rewrite lookup_app_r in Hj by lia.
                destruct (j - length columns) as [|k]; simpl in Hj;
                  [|done]. injection Hj as ->. done. }
            destruct (IH j col Hj' Hn) as [i [(ci & Hci & Hni) Hmax]].
            exists i. split.
            * exists ci. split; [|done]. apply lookup_app_l_Some. done.
            * intros k col' Hk Hnk.
              destruct (decide (k < length columns)) as [Hlt|Hge].
              -- rewrite lookup_app_l in Hk by done. by apply (Hmax k col').
              -- rewrite lookup_app_r in Hk by lia.
                 destruct (k - length columns) as [|k']; simpl in Hk;
                   [|done]. injection Hk as ->. done. }
      apply Hindex in Hlast. congruence.
  - intros i. unfold getColumn, getColumnCount.
    destruct (columns_ schema !! i) as [col|] eqn:Hcol.
    + apply lookup_lt_Some in Hcol. split; [lia|done].
    + apply lookup_ge_None in Hcol. by split.
Qed.

(** ** The table names *)

Lemma ascii_compare_eq a b : Ascii.compare a b = Eq -> a = b.
Proof.
  unfold Ascii.compare. intros H. apply N.compare_eq in H.
  rewrite <- (ascii_N_embedding a), <- (ascii_N_embedding b). by rewrite H.
Qed.

Lemma string_compare_trans a b c :
  String.compare a b <> Gt -> String.compare b c <> Gt ->
  String.compare a c <> Gt.
Proof.
  revert b c. induction a as [|x a IH]; intros [|y b] [|z c]; simpl;
    try done.
  unfold Ascii.compare.
  destruct (N.compare_spec (N_of_ascii x) (N_of_ascii y)) as [Hxy|Hxy|Hxy];
    destruct (N.compare_spec (N_of_ascii y) (N_of_ascii z)) as [Hyz|Hyz|Hyz];
    try done;
    destruct (N.compare_spec (N_of_ascii x) (N_of_ascii z)) as [Hxz|Hxz|Hxz];
    try done; try lia.
  apply IH.
Qed.

Lemma string_leb_compare a b :
  String.leb a b = true <-> String.compare a b <> Gt.
Proof. unfold String.leb. by destruct (String.compare a b). Qed.

#[global] Instance string_le_trans : Transitive string_le.
Proof.
  intros a b c. unfold string_le. rewrite !string_leb_compare.
  apply string_compare_trans.
Qed.

#[global] Instance string_le_total : Total string_le.
Proof. intros a b. apply String.leb_total. Qed.

Lemma getTableNames_elem_of db n :
  n ∈ getTableNames db <-> hasTable n db = true.
Proof.
  unfold getTableNames, hasTable.
  rewrite merge_sort_Permutation, list_elem_of_fmap. split.
  - intros ([n' t] & -> & Hin). apply elem_of_map_to_list in Hin.
    simpl. by rewrite Hin.
  - destruct (db !! n) as [t|] eqn:Ht; [|done]. intros _.
    exists (n, t). split; [done|]. by apply elem_of_map_to_list.
Qed.

(** X12: [getTableNames] lists the tables in order.  The list holds exactly
    the names for which [hasTable] is true, each once, and it is strictly
    ascending in the byte-wise order of [std::string]; so the list is
    determined by the set of table names alone. *)
Theorem table_names_are_sorted :
  forall db : Database,
    (forall n, n ∈ getTableNames db <-> hasTable n db = true) /\
    NoDup (getTableNames db) /\
    length (getTableNames db) = size db /\
    StronglySorted (fun a b => string_le a b /\ a <> b) (getTableNames db) /\
    (forall db' : Database,
       (forall n, hasTable n db' = hasTable n db) ->
       getTableNames db' = getTableNames db).
Proof.
  intros db.
  assert (forall d : Database, NoDup (getTableNames d)) as Hnodup.
  { intros d. unfold getTableNames. rewrite merge_sort_Permutation.
    apply NoDup_fst_map_to_list. }
  assert (forall d : Database, StronglySorted string_le (getTableNames d))
    as Hsorted.
  { intros d. apply (StronglySorted_merge_sort string_le); apply _. }
  split; [apply getTableNames_elem_of|]. split; [apply Hnodup|].
  split.
  { unfold getTableNames. rewrite merge_sort_Permutation, length_fmap.
    by rewrite length_map_to_list. }
  split.
  - specialize (Hnodup db). specialize (Hsorted db).
    induction Hsorted as [|a l Hl IH Ha]; [constructor|].
    apply NoDup_cons in Hnodup as [Hnotin Hnodup].
    constructor; [by apply IH|].
    apply Forall_forall. intros b Hb. split.
    + by apply (proj1 (Forall_forall _ _) Ha).
    + intros ->. done.
  - intros db' Hsame.
    assert (getTableNames db' ≡ₚ getTableNames db) as Hperm.
    { apply NoDup_Permutation; [apply Hnodup|apply Hnodup|].
      intros n. rewrite !getTableNames_elem_of. by rewrite Hsame. }
    pose proof (Hsorted db) as Hs. pose proof (Hsorted db') as Hs'.
    pose proof (Hnodup db') as Hn'.
    revert Hperm Hs Hs' Hn'.
    generalize (getTableNames db). generalize (getTableNames db').
    intros l1 l2 Hperm H2 H1 _.
    apply (StronglySorted_unique_strong string_le); try done.
    intros a b _ _ Hab Hba. by apply String.leb_antisym.
Qed.

Lemma table_names_are_sorted_witness :
  getTableNames (<["b" := Table_new "b" Schema_empty]> three_rows)
  = getTableNames (<["b" := Table_new "a" (schema_of [])]> three_rows).
Proof.
  apply (proj2 (proj2 (proj2 (proj2
           (table_names_are_sorted
              (<["b" := Table_new "a" (schema_of [])]> three_rows)))))).
  intros n. unfold hasTable.
  destruct (decide (n = "b")) as [->|Hne].
  - by rewrite !lookup_insert_eq.
  - by rewrite !lookup_insert_ne.
Defined.

(** ** Comparing values *)

Lemma string_compare_refl s : String.compare s s = Eq.
Proof.
  pose proof (String.compare_antisym s s) as H.
  by destruct (String.compare s s).
Qed.

Lemma string_eqb_compare s t :
  String.eqb s t = match String.compare s t with Eq => true | _ => false end.
Proof.
  destruct (String.eqb_spec s t) as [->|Hne].
  - by rewrite string_compare_refl.
  - destruct (String.compare s t) eqn:Hc; [|done|done].
    by apply String.compare_eq_iff in Hc.
Qed.

Lemma string_compare_lt_trans a b c :
  String.compare a b = Lt -> String.compare b c = Lt -> String.compare a c = Lt.
Proof.
  intros Hab Hbc.
  pose proof (string_compare_trans a b c) as Hle.
  rewrite Hab, Hbc in Hle.
  destruct (String.compare a c) eqn:Hac; [|done|by destruct Hle].
  apply String.compare_eq_iff in Hac as ->.
  rewrite String.compare_antisym, Hbc in Hab. done.
Qed.

(** X13: the comparison operators of [Value] on two values that are not
    both REAL, whatever [==] and [<] do on doubles.  [==] holds exactly for
    identical values; exactly one of [a < b], [a == b], [b < a] holds;
    [>], [>=] and [!=] are [<], [<=] and "[<] one way or the other" with
    the operands as written; values of different types are ordered by
    type, INTEGER before REAL before TEXT before BOOLEAN before NULL, so
    every value is [<=] NULL; and [<] is transitive. *)
Theorem value_comparison_is_a_total_order :
  forall (double_eq double_lt : double -> double -> bool) (a b : Value),
    getType a <> REAL \/ getType b <> REAL ->
    let lt := operator_lt double_lt in
    let eq := operator_eq double_eq in
    (eq a b = true <-> a = b) /\
    (lt a b = true /\ eq a b = false /\ lt b a = false \/
     lt a b = false /\ eq a b = true /\ lt b a = false \/
     lt a b = false /\ eq a b = false /\ lt b a = true) /\
    operator_gt double_eq double_lt a b = lt b a /\
    operator_ge double_lt a b = operator_le double_eq double_lt b a /\
    operator_ne double_eq a b = lt a b || lt b a /\
    (getType a <> getType b ->
     lt a b = (DataType_code (getType a) <? DataType_code (getType b))) /\
    (isNull b = true -> operator_le double_eq double_lt a b = true) /\
    (forall c, lt a b = true -> lt b c = true -> lt c a = false /\
               lt a c = true).
Proof.
  intros double_eq double_lt a b Hreal lt eq. unfold lt, eq.
  unfold operator_gt, operator_ge, operator_ne, operator_le, operator_lt,
    operator_eq.
  destruct a as [i|x|s|p|], b as [j|y|t|q|]; simpl;
    try (destruct Hreal as [Hreal|Hreal]; by destruct Hreal);
    try (repeat split; try done; intros; try discriminate;
         try (by right; right); try (by left);
         match goal with
         | c : Value |- _ => destruct c; simpl in *; try done
         end; fail).
  - (* two integers *)
    destruct (Z.ltb_spec i j), (Z.ltb_spec j i), (Z.eqb_spec i j) as [Heq|Hne];
      try lia; repeat split; try done; try congruence; try lia;
      try (by left); try (by right; left); try (by right; right);
      match goal with
      | c : Value |- _ => destruct c as [k| | | |]; simpl in *; try done
      end;
      match goal with
      | Hjk : (_ <? _)%Z = true |- _ => apply Z.ltb_lt in Hjk
      end;
      first [apply Z.ltb_ge; lia | apply Z.ltb_lt; lia].
  - (* two texts *)
    rewrite (string_eqb_compare s t), (string_eqb_compare t s).
    unfold String.ltb. rewrite (String.compare_antisym s t).
    destruct (String.compare t s) eqn:Hts; simpl.
    + apply String.compare_eq_iff in Hts as ->.
      repeat split; try done; by right; left.
    + repeat split; try done; try (intros [= ->]);
        try (by rewrite string_compare_refl in Hts); by right; right.
    + assert (forall u, String.compare t u = Lt -> String.compare s u = Lt)
        as Htrans.
      { intros u. apply string_compare_lt_trans.
        by rewrite String.compare_antisym, Hts. }
      repeat split; try done; try (intros [= ->]);
        try (by rewrite string_compare_refl in Hts); try (by left);
        match goal with
        | c : Value |- _ => destruct c as [| |u| |]; simpl in *; try done
        end;
        unfold String.ltb in *;
        match goal with
        | Htu : context [String.compare t ?u] |- _ =>
            try rewrite (String.compare_antisym u s);
            rewrite (Htrans u); [done|by destruct (String.compare t u)]
        end.
  - (* two booleans *)
    destruct p, q; simpl; repeat split; try done;
      try (by left); try (by right; left); try (by right; right);
      match goal with
      | c : Value |- _ => destruct c as [| | |[]|]; simpl in *; done
      end.
  - (* two nulls *)
    repeat split; try done. by right; left.
Qed.

Lemma value_comparison_is_a_total_order_witness :
  operator_gt (fun _ _ => false) (fun _ _ => false)
    (VText "b") (VReal (mkDouble 15 1))
  = operator_lt (fun _ _ => false) (VReal (mkDouble 15 1)) (VText "b").
Proof.
  assert (getType (VText "b") <> REAL \/ getType (VReal (mkDouble 15 1)) <> REAL)
    as Hreal by (left; discriminate).
  destruct (value_comparison_is_a_total_order
              (fun _ _ => false) (fun _ _ => false)
              (VText "b") (VReal (mkDouble 15 1)) Hreal)
    as (_ & _ & Hgt & _).
  exact Hgt.
Defined.

(** ** The parser and the end-of-input token *)

Module ParserBounds.
Import Parser ParserFacts.

Lemma string_append_assoc (a b c : string) :
  ((a ++ b) ++ c)%string = (a ++ (b ++ c))%string.
Proof.
  induction a as [|x a IH]; [done|].
  change (String x ((a ++ b) ++ c) = String x (a ++ b ++ c))%string.
  by f_equal.
Qed.

Lemma error_message_assoc (a b c message r : string) :
  ((a ++ b ++ c ++ message) ++ r)%string
  = (a ++ b ++ c ++ message ++ r)%string.
Proof. by rewrite !string_append_assoc. Qed.

Lemma sentinel_lookup p :
  has_sentinel p -> exists token, tokens_ p !! current_ p = Some token.
Proof.
  intros (k & eof & Hk & Hlook & _). apply lookup_lt_is_Some.
  apply lookup_lt_Some in Hlook. lia.
Qed.

Lemma sentinel_step p token ty :
  has_sentinel p -> tokens_ p !! current_ p = Some token ->
  accepts ty token = true ->
  has_sentinel (mk (tokens_ p) (S (current_ p))).
Proof.
  intros (k & eof & Hk & Hlook & Heof) Htoken Hacc.
  exists k, eof. simpl. split; [|done].
  destruct (decide (k = current_ p)) as [->|Hne]; [|lia].
  rewrite Htoken in Hlook. injection Hlook as ->.
  unfold accepts in Hacc. rewrite Heof in Hacc. done.
Qed.

Lemma within_ret {A} (a : A) : within_tokens (ret a).
Proof. intros p. simpl. done. Qed.

Lemma within_throw {A} w : parse_error w -> within_tokens (@throw t A w).
Proof. by intros Hw p. Qed.

Lemma within_out_of_fuel {A} : within_tokens (@out_of_fuel t A).
Proof. by intros p. Qed.

Lemma within_error {A} message : within_tokens (@error A message).
Proof.
  intros p. rewrite error_eq.
  destruct (tokens_ p !! current_ p) as [token|] eqn:Hlook.
  - left. destruct (TokenType_eqb (type token) EOF_TOKEN).
    + by exists (current_ p), message.
    + exists (current_ p), (message ++ " (got '" ++ value token ++ "')")%string.
      cbv zeta.
      exact (error_message_assoc "Parse error at token "
               (to_string (current_ p)) ": " message _).
  - intros Hs _. apply sentinel_lookup in Hs as [token Htoken]. congruence.
Qed.

Lemma within_previous : within_tokens previous.
Proof.
  intros p. rewrite previous_eq.
  destruct (current_ p) as [|k] eqn:Hcur.
  - intros _ Hpos. lia.
  - destruct (tokens_ p !! k) as [token|] eqn:Hlook;
      [split; [done|]; split; [lia|done]|].
    intros (j & eof & Hj & Hlookj & _) _.
    apply lookup_lt_Some in Hlookj. apply lookup_ge_None in Hlook. lia.
Qed.

Lemma within_match_ ty : within_tokens (match_ ty).
Proof.
  intros p. rewrite match__eq.
  destruct (tokens_ p !! current_ p) as [token|] eqn:Hlook.
  - destruct (accepts ty token) eqn:Hacc; simpl; [|done].
    split; [done|]. split; [lia|]. intros Hs.
    by apply (sentinel_step p token ty).
  - intros Hs _. apply sentinel_lookup in Hs as [token Htoken]. congruence.
Qed.

Lemma within_match_any types : within_tokens (match_any types).
Proof.
  intros p. rewrite match_any_eq. destruct types as [|ty types]; [done|].
  destruct (tokens_ p !! current_ p) as [token|] eqn:Hlook.
  - destruct (existsb _ _) eqn:Hacc; simpl; [|done].
    split; [done|]. split; [lia|]. intros Hs.
    apply existsb_exists in Hacc as (ty' & _ & Hacc).
    by apply (sentinel_step p token ty').
  - intros Hs _. apply sentinel_lookup in Hs as [token Htoken]. congruence.
Qed.

Lemma within_consume ty message : within_tokens (consume ty message).
Proof.
  intros p. rewrite consume_eq.
  destruct (tokens_ p !! current_ p) as [token|] eqn:Hlook.
  - destruct (accepts ty token) eqn:Hacc; simpl.
    + split; [done|]. split; [lia|]. intros Hs.
      by apply (sentinel_step p token ty).
    + apply within_error.
  - intros Hs _. apply sentinel_lookup in Hs as [token Htoken]. congruence.
Qed.

Lemma within_bind {A B} (m : P A) (k : A -> P B) :
  within_tokens m -> (forall a, within_tokens (k a)) ->
  within_tokens (bind m k).
Proof.
  intros Hm Hk p. unfold bind. specialize (Hm p).
  destruct (m p) as [a p'|w p'| |]; try done.
  destruct Hm as (Htok & Hcur & Hsent). specialize (Hk a p').
  destruct (k a p') as [b p''|w p''| |]; try done.
  - destruct Hk as (Htok' & Hcur' & Hsent').
    split; [congruence|]. split; [lia|]. auto.
  - intros Hs Hpos. apply Hk; [auto | lia].
Qed.

Lemma within_do_while_comma {A} fuel (body : P A) acc :
  within_tokens body -> within_tokens (do_while_comma fuel body acc).
Proof.
  intros Hbody. revert acc.
  induction fuel as [|fuel IH]; intros acc; cbn [do_while_comma];
    [apply within_out_of_fuel|].
  apply within_bind; [done|]. intros x.
  apply within_bind; [apply within_match_|].
  intros [|]; [apply IH | apply within_ret].
Qed.

Create HintDb within.

(** Goals [within_tokens m], by the shape of [m]. *)
Ltac within :=
  lazymatch goal with
  | |- forall _, _ => intros; within
  | |- within_tokens (ret _) => apply within_ret
  | |- within_tokens previous => apply within_previous
  | |- within_tokens (match_ _) => apply within_match_
  | |- within_tokens (match_any _) => apply within_match_any
  | |- within_tokens (consume _ _) => apply within_consume
  | |- within_tokens (error _) => apply within_error
  | |- within_tokens out_of_fuel => apply within_out_of_fuel
  | |- within_tokens (throw _) =>
      apply within_throw; unfold parse_error; tauto
  | |- within_tokens (bind _ _) => apply within_bind; within
  | |- within_tokens (do_while_comma _ _ _) =>
      apply within_do_while_comma; within
  | |- within_tokens (if ?b then _ else _) => destruct b; within
  | |- within_tokens (match ?x with _ => _ end) => destruct x; within
  | |- within_tokens _ => first [ eassumption | solve [eauto with within] ]
  end.

Lemma within_parseValue token : within_tokens (parseValue token).
Proof. unfold parseValue. within. Qed.

Lemma within_parseDataType : within_tokens parseDataType.
Proof. unfold parseDataType. within. Qed.

Lemma within_binary_loop fuel types op_of operand expr :
  within_tokens operand ->
  within_tokens (binary_loop fuel types op_of operand expr).
Proof.
  intros Hoperand. revert expr.
  induction fuel as [|fuel IH]; intros expr; cbn [binary_loop]; within.
Qed.

#[local] Hint Resolve within_parseValue
  within_parseDataType within_binary_loop : within.

Lemma within_parseOrExpression fuel unary :
  within_tokens unary -> within_tokens (parseOrExpression fuel unary).
Proof.
  intros Hunary.
  assert (forall types op_of (operand : P Expression),
            within_tokens operand ->
            within_tokens
              (bind operand (binary_loop fuel types op_of operand))) as Hlevel.
  { intros types op_of operand Hoperand.
    apply within_bind; [done|]. intros expr. by apply within_binary_loop. }
  unfold parseOrExpression, parseAndExpression, parseEqualityExpression,
    parseComparisonExpression, parseTermExpression, parseFactorExpression.
  do 6 apply Hlevel. done.
Qed.

Lemma within_parsePrimaryExpression parseExpression :
  within_tokens parseExpression ->
  within_tokens (parsePrimaryExpression parseExpression).
Proof. intros Hrec. unfold parsePrimaryExpression. within. Qed.

Lemma within_parseUnaryExpression fuel :
  within_tokens (parseUnaryExpression fuel).
Proof.
  induction fuel as [|fuel IH]; cbn [parseUnaryExpression]; [within|].
  apply within_bind; [within|]. intros [|]; [within|].
  apply within_parsePrimaryExpression. by apply within_parseOrExpression.
Qed.

Lemma within_parseExpression fuel : within_tokens (parseExpression fuel).
Proof.
  apply within_parseOrExpression, within_parseUnaryExpression.
Qed.

Lemma within_parseColumnConstraints fuel nullable primary_key :
  within_tokens (parseColumnConstraints fuel nullable primary_key).
Proof.
  revert nullable primary_key.
  induction fuel as [|fuel IH]; intros nullable primary_key;
    cbn [parseColumnConstraints]; within.
Qed.

#[local] Hint Resolve within_parseExpression within_parseColumnConstraints
  : within.

Lemma within_parseSelectStatement fuel :
  within_tokens (parseSelectStatement fuel).
Proof. unfold parseSelectStatement. within. Qed.

Lemma within_parseInsertStatement fuel :
  within_tokens (parseInsertStatement fuel).
Proof. unfold parseInsertStatement. within. Qed.

Lemma within_parseCreateTableStatement fuel :
  within_tokens (parseCreateTableStatement fuel).
Proof. unfold parseCreateTableStatement. within. Qed.

Lemma within_parseDropTableStatement : within_tokens parseDropTableStatement.
Proof. unfold parseDropTableStatement. within. Qed.

(** [parseStatement] starts with no token behind the cursor; it reads
    [previous()] only after the first token was consumed. *)
Lemma parseStatement_fuel_new fuel tokens :
  match parseStatement_fuel fuel (new tokens) with
  | Ok _ p' => tokens_ p' = tokens
  | Throw w _ => parse_error w
  | Undefined => ~ has_sentinel (new tokens)
  | OutOfFuel => True
  end.
Proof.
  assert (forall ty (m : P Statement) (rest : P Statement),
            within_tokens m ->
            match rest (new tokens) with
            | Ok _ p' => tokens_ p' = tokens
            | Throw w _ => parse_error w
            | Undefined => ~ has_sentinel (new tokens)
            | OutOfFuel => True
            end ->
            match bind (match_ ty) (fun b => if b then m else rest)
                    (new tokens) with
            | Ok _ p' => tokens_ p' = tokens
            | Throw w _ => parse_error w
            | Undefined => ~ has_sentinel (new tokens)
            | OutOfFuel => True
            end) as Hstep.
  { intros ty m rest Hm Hrest. unfold bind. rewrite match__eq.
    destruct (tokens_ (new tokens) !! current_ (new tokens))
      as [token|] eqn:Hlook.
    - destruct (accepts ty token) eqn:Hacc; [|done].
      specialize (Hm (mk (tokens_ (new tokens)) (S (current_ (new tokens))))).
      destruct (m _) as [a p'|w p'| |]; try done.
      + by destruct Hm as (Htok & _).
      + intros Hs. apply Hm; [|simpl; lia].
        by apply (sentinel_step (new tokens) token ty).
    - intros Hs. apply sentinel_lookup in Hs as [token Htoken]. congruence. }
  unfold parseStatement_fuel.
  apply Hstep; [apply within_parseSelectStatement|].
  apply Hstep; [apply within_parseInsertStatement|].
  apply Hstep; [apply within_parseCreateTableStatement|].
  apply Hstep; [apply within_parseDropTableStatement|].
  pose proof (@within_error Statement "Expected statement" (new tokens)) as He.
  rewrite error_eq in *.
  destruct (tokens_ (new tokens) !! current_ (new tokens))
    as [token|] eqn:Hlook; [done|].
  intros Hs. apply sentinel_lookup in Hs as [token Htoken]. congruence.
Qed.

End ParserBounds.

(** X14: the parser and the end-of-input token.  Whatever the tokens,
    [parseStatement] ends; if it returns, the token vector is as it was; if
    it throws, the message is a parse error ("Parse error at token k: ...")
    or the [what()] of a failed number conversion; and it reads outside the
    token vector only if the vector holds no end-of-input token. *)
Theorem parser_stays_within_tokens :
  forall tokens,
    match Parser.parseStatement tokens with
    | Ok _ p => Parser.tokens_ p = tokens
    | Throw w _ => parse_error w
    | Undefined => Forall (fun token => type token <> EOF_TOKEN) tokens
    | OutOfFuel => False
    end.
Proof.
  intros tokens.
  pose proof (ParserFacts.parseStatement_terminates tokens) as Hfuel.
  pose proof (ParserBounds.parseStatement_fuel_new (S (length tokens)) tokens)
    as Hrun.
  unfold Parser.parseStatement in *.
  destruct (Parser.parseStatement_fuel _ _) as [statement p|w p| |];
    try done.
  apply Forall_forall. intros token Hin Heof. apply Hrun.
  apply list_elem_of_lookup in Hin as [k Hk].
  exists k, token. simpl. split; [lia|done].
Qed.

Lemma generateCode_defined statement g :
  generateCode statement g <> Undefined /\
  generateCode statement g <> OutOfFuel.
Proof.
  destruct statement as [node|node|node|node].
  - rewrite generateCode_Select. by destruct (getTable _ _).
  - rewrite generateCode_Insert. destruct (getTable _ _) as [table|]; [|done].
    pose proof (insert_value_lists_spec (InsertStatement.values node) table)
      as Hloop.
    by destruct (insert_value_lists _ table) as [[] t'|w' t'| |].
  - rewrite generateCode_CreateTable. by destruct (hasTable _ _).
  - by rewrite generateCode_DropTable.
Qed.

Lemma generateCode_execution_error statement g w g' :
  generateCode statement g = Throw w g' -> execution_error w.
Proof.
  intros Hthrow.
  destruct (generateCode_exceptions statement g w g' Hthrow) as [_ Hwhy].
  unfold execution_error.
  destruct statement as [node|node|node|node].
  - destruct Hwhy as (_ & -> & _). left. by eexists.
  - destruct Hwhy as [(_ & -> & _)|(_ & [-> | ->])]; [left; by eexists|..];
      tauto.
  - destruct Hwhy as (_ & -> & _). right. left. by eexists.
  - done.
Qed.

(** C9 holds of every call that has a defined outcome, and fails where
    the call has none.  [execute] forgets the previous error before
    anything else; it never lets an exception out and never runs on for
    ever; when the lexer delivers no token, when the parser throws, or when
    the executor throws, it returns no row and the last error is the
    message of that failure; when nothing fails the last error is empty; so
    rows never come with an error.  The call has no defined outcome exactly
    when the parser reads past the token vector; it cannot when the tokens
    hold an end-of-input token, which the lexer only delivers when blanks
    or a comment end the input.  [SELECT * FROM users] and
    [SELECT * FROM t WHERE], for which the claim promises no row and a
    message, are such calls: the parser reads the element after the last
    token. *)
Theorem execute_reports_failures :
  (forall sql e,
     execute sql e = execute sql (clearError e) /\
     (forall w e', execute sql e <> Throw w e') /\
     execute sql e <> OutOfFuel /\
     (Lexer.tokenize sql = [] ->
      execute sql e = Ok [] (mkEngine (database_ e) (codegen_ e)
                               "No tokens found in SQL")) /\
     (forall w p,
        Lexer.tokenize sql <> [] ->
        Parser.parseStatement (Lexer.tokenize sql) = Throw w p ->
        execute sql e = Ok [] (mkEngine (database_ e) (codegen_ e) w)) /\
     (forall statement p w g,
        Lexer.tokenize sql <> [] ->
        Parser.parseStatement (Lexer.tokenize sql) = Ok statement p ->
        generateCode statement (mkCodegen (database_ e) (codegen_ e))
          = Throw w g ->
        execute sql e
          = Ok [] (mkEngine (current_database_ g) (results_ g) w)) /\
     (forall statement p g,
        Lexer.tokenize sql <> [] ->
        Parser.parseStatement (Lexer.tokenize sql) = Ok statement p ->
        generateCode statement (mkCodegen (database_ e) (codegen_ e))
          = Ok tt g ->
        execute sql e
          = Ok (results_ g) (mkEngine (current_database_ g) (results_ g) "")) /\
     (forall rows e',
        execute sql e = Ok rows e' -> rows = [] \/ last_error_ e' = "") /\
     (execute sql e = Undefined <->
      Lexer.tokenize sql <> [] /\
      Parser.parseStatement (Lexer.tokenize sql) = Undefined) /\
     (Exists (fun token => type token = EOF_TOKEN) (Lexer.tokenize sql) ->
      exists rows e', execute sql e = Ok rows e')) /\
  (forall e, execute "SELECT * FROM users" e = Undefined) /\
  (forall e, execute "SELECT * FROM t WHERE" e = Undefined).
Proof.
  split.
  2: { split; intros e; rewrite execute_tokenized;
         unfold execute_on, catching, execute_tokens.
       - replace (Lexer.tokenize "SELECT * FROM users")
           with [mkToken SELECT "SELECT" 6 1 7; mkToken MULTIPLY "*" 8 1 9;
                 mkToken FROM "FROM" 13 1 14; mkToken IDENTIFIER "users" 19 1 20]
           by (vm_compute; reflexivity).
         match goal with
         | |- context [Parser.parseStatement ?tokens] =>
             replace (Parser.parseStatement tokens)
               with (@Undefined Parser.t Statement) by (vm_compute; reflexivity)
         end.
         reflexivity.
       - replace (Lexer.tokenize "SELECT * FROM t WHERE")
           with [mkToken SELECT "SELECT" 6 1 7; mkToken MULTIPLY "*" 8 1 9;
                 mkToken FROM "FROM" 13 1 14; mkToken IDENTIFIER "t" 15 1 16;
                 mkToken WHERE "WHERE" 21 1 22]
           by (vm_compute; reflexivity).
         match goal with
         | |- context [Parser.parseStatement ?tokens] =>
             replace (Parser.parseStatement tokens)
               with (@Undefined Parser.t Statement) by (vm_compute; reflexivity)
         end.
         reflexivity. }
  intros sql e. rewrite !execute_tokenized.
  unfold execute_on, catching, execute_tokens.
  pose proof (ParserFacts.parseStatement_terminates (Lexer.tokenize sql))
    as Hfuel.
  pose proof (ParserBounds.parseStatement_fuel_new
                (S (length (Lexer.tokenize sql))) (Lexer.tokenize sql)) as Hrun.
  fold (Parser.parseStatement (Lexer.tokenize sql)) in Hrun.
  assert (Exists (fun token => type token = EOF_TOKEN) (Lexer.tokenize sql) ->
          has_sentinel (Parser.new (Lexer.tokenize sql))) as Hsentinel.
  { intros (token & Hin & Heof)%Exists_exists.
    apply list_elem_of_lookup in Hin as [k Hk].
    exists k, token. simpl. split; [lia|done]. }
  destruct (Lexer.tokenize sql) as [|token tokens] eqn:Htokens; simpl.
  { repeat split; try done.
    - intros rows e' [= <- <-]. by left.
    - by intros [? _].
    - by eexists _, _. }
  destruct (Parser.parseStatement (token :: tokens))
    as [statement p|w p| |] eqn:Hparse; try done; simpl.
  - destruct (generateCode_defined statement
                (mkCodegen (database_ e) (codegen_ e))) as [Hg1 Hg2].
    destruct (generateCode statement _) as [[] g|w g| |] eqn:Hgen; try done.
    + repeat split; try done.
      * intros st p' w g' _ [= <-]. by rewrite Hgen.
      * intros st p' g' _ [= <-]. rewrite Hgen. by intros [= <-].
      * intros rows e' [= <- <-]. by right.
      * by intros [_ ?].
      * by eexists _, _.
    + repeat split; try done.
      * intros st p' w' g' _ [= <-]. rewrite Hgen. by intros [= <- <-].
      * intros st p' g' _ [= <-]. by rewrite Hgen.
      * intros rows e' [= <- <-]. by left.
      * by intros [_ ?].
      * by eexists _, _.
  - repeat split; try done.
    + by intros w' p' _ [= <- <-].
    + intros rows e' [= <- <-]. by left.
    + by intros [_ ?].
    + by eexists _, _.
  - repeat split; try done.
    intros Heof. by destruct (Hrun (Hsentinel Heof)).
Qed.

Lemma execute_reports_failures_witness :
  execute "UPDATE t " QueryEngine_new =
    Ok [] (mkEngine ∅ []
             "Parse error at token 0: Expected statement (got 'UPDATE')").
Proof.
  destruct (proj1 execute_reports_failures "UPDATE t " QueryEngine_new)
    as (_ & _ & _ & _ & Hparse & _).
  apply (Hparse _ (Parser.mk (Lexer.tokenize "UPDATE t ") 0)).
  - vm_compute. discriminate.
  - vm_compute. reflexivity.
Defined.

(** X15: every outcome of [execute].  A call either returns with an empty
    last error, or returns no row and a last error that is "No tokens found
    in SQL", a parse error, or one of the four messages of the executor; no
    other message can be reported.  The call has no defined outcome only
    when the parser reads past the tokens, which takes an input whose
    tokens hold no end-of-input token. *)
Theorem execute_error_messages :
  forall sql e,
    match execute sql e with
    | Ok rows e' =>
        last_error_ e' = "" \/
        (rows = [] /\
         (last_error_ e' = "No tokens found in SQL" \/
          parse_error (last_error_ e') \/
          execution_error (last_error_ e')))
    | Undefined =>
        Forall (fun token => type token <> EOF_TOKEN) (Lexer.tokenize sql)
    | Throw _ _ | OutOfFuel => False
    end.
Proof.
  intros sql e. rewrite execute_tokenized.
  unfold execute_on, catching, execute_tokens.
  pose proof (ParserFacts.parseStatement_terminates (Lexer.tokenize sql))
    as Hfuel.
  pose proof (ParserBounds.parseStatement_fuel_new
                (S (length (Lexer.tokenize sql))) (Lexer.tokenize sql)) as Hrun.
  fold (Parser.parseStatement (Lexer.tokenize sql)) in Hrun.
  destruct (Lexer.tokenize sql) as [|token tokens] eqn:Htokens; simpl.
  { right. split; [done|]. by left. }
  destruct (Parser.parseStatement (token :: tokens))
    as [statement p|w p| |] eqn:Hparse; try done; simpl.
  - destruct (generateCode_defined statement
                (mkCodegen (database_ e) (codegen_ e))) as [Hd1 Hd2].
    destruct (generateCode statement _) as [[] g|w g| |] eqn:Hgen; try done;
      simpl.
    + by left.
    + right. split; [done|]. right. right.
      by apply (generateCode_execution_error _ _ _ _ Hgen).
  - right. split; [done|]. right. by left.
  - apply Forall_forall. intros token' Hin Heof. apply Hrun.
    apply list_elem_of_lookup in Hin as [k Hk].
    exists k, token'. simpl. split; [lia|done].
Qed.

(** ** The lexer, token by token *)

Module LexerWords.
Import Lexer.

Lemma append_cons c (a b : string) :
  (String c a ++ b)%string = String c (a ++ b)%string.
Proof. done. Qed.

Lemma append_nil_r (a : string) : (a ++ "")%string = a.
Proof.
  induction a as [|c a IH]; [done|]. rewrite append_cons. by f_equal.
Qed.

Lemma append_char_append acc c (w : string) :
  (append_char acc c ++ w)%string = (acc ++ String c w)%string.
Proof. unfold append_char. by rewrite ParserBounds.string_append_assoc. Qed.

Lemma length_append (a b : string) :
  String.length (a ++ b) = String.length a + String.length b.
Proof.
  induction a as [|c a IH]; [done|]. rewrite append_cons. simpl. by rewrite IH.
Qed.

Lemma alpha_class c :
  isAlpha c = true ->
  isspace c = false /\ Ascii.eqb c "-" = false /\ Ascii.eqb c "039" = false /\
  Ascii.eqb c "034" = false /\ isDigit c = false.
Proof.
  destruct c as [[] [] [] [] [] [] [] []]; vm_compute; intros;
    repeat split; congruence.
Qed.

Lemma digit_class c :
  isDigit c = true ->
  isspace c = false /\ Ascii.eqb c "-" = false /\ Ascii.eqb c "039" = false /\
  Ascii.eqb c "034" = false /\ Ascii.eqb c "." = false.
Proof.
  destruct c as [[] [] [] [] [] [] [] []]; vm_compute; intros;
    repeat split; congruence.
Qed.

(** [nextToken] on a character that is no blank. *)
Lemma nextToken_dispatch c r pos ln col :
  isspace c = false ->
  Ascii.eqb c "-" && second_is_dash (mkLexer (String c r) pos ln col) = false ->
  let l := mkLexer (String c r) pos ln col in
  nextToken l =
  Some (if Ascii.eqb c "039" || Ascii.eqb c "034" then readString l
        else if isDigit c then readNumber l
        else if isAlpha c then readIdentifier l
        else nextToken_punct c l).
Proof.
  intros Hspace Hdash l. unfold nextToken, l. cbn [nextToken_fuel].
  unfold skipWhitespace. cbn [input_ position_ line_ column_ skipWhitespace_from].
  rewrite Hspace. cbn [hasNext peek input_ negb]. rewrite Hdash.
  destruct (Ascii.eqb c "039" || Ascii.eqb c "034"); [done|].
  destruct (isDigit c); [done|]. by destruct (isAlpha c).
Qed.

Lemma readIdentifier_from_word w :
  forall acc rest pos ln col,
    all_chars isAlphaNumeric w = true ->
    starts_with isAlphaNumeric rest = false ->
    readIdentifier_from (w ++ rest) acc pos ln col
    = ((acc ++ w)%string, moved (String.length w) rest pos ln col).
Proof.
  induction w as [|c w IH]; intros acc rest pos ln col Hw Hrest.
  - change ("" ++ rest)%string with rest. rewrite append_nil_r.
    unfold moved. rewrite !Nat.add_0_r.
    destruct rest as [|c r]; [done|]. simpl in Hrest.
    cbn [readIdentifier_from]. by rewrite Hrest.
  - rewrite append_cons. simpl in Hw. apply andb_true_iff in Hw as [Hc Hw].
    cbn [readIdentifier_from]. rewrite Hc, IH by done.
    rewrite append_char_append. unfold moved. simpl. do 2 f_equal; lia.
Qed.

Lemma readNumber_from_digits ds :
  forall acc rest hasDecimal pos ln col,
    all_chars isDigit ds = true ->
    readNumber_from (ds ++ rest) acc hasDecimal pos ln col
    = readNumber_from rest (acc ++ ds)%string hasDecimal
        (pos + String.length ds) ln (col + String.length ds).
Proof.
  induction ds as [|c ds IH]; intros acc rest hasDecimal pos ln col Hds.
  - change ("" ++ rest)%string with rest.
    by rewrite append_nil_r, !Nat.add_0_r.
  - rewrite append_cons. simpl in Hds. apply andb_true_iff in Hds as [Hc Hds].
    cbn [readNumber_from]. rewrite Hc. cbn [orb].
    destruct (digit_class c Hc) as (_ & _ & _ & _ & ->).
    rewrite IH by done. rewrite append_char_append. simpl.
    f_equal; lia.
Qed.

Lemma readNumber_from_stop rest acc hasDecimal pos ln col :
  starts_with (fun c => isDigit c || (negb hasDecimal && Ascii.eqb c "."))
    rest = false ->
  readNumber_from rest acc hasDecimal pos ln col
  = (acc, hasDecimal, mkLexer rest pos ln col).
Proof.
  destruct rest as [|c r]; [done|]. simpl. by intros ->.
Qed.

Lemma readString_from_quoted quote v :
  forall acc rest pos ln col,
    unescape quote = quote -> Ascii.eqb "092" quote = false ->
    starts_with (fun c => negb (Ascii.eqb c quote)) rest = false ->
    readString_from quote (quoted quote v ++ rest) acc pos ln col
    = ((acc ++ v)%string,
       moved (String.length (quoted quote v)) rest pos ln col).
Proof.
  intros acc rest pos ln col Hun Hback Hrest. revert acc pos col.
  induction v as [|c v IH]; intros acc pos col.
  - change (quoted quote "" ++ rest)%string with rest. rewrite append_nil_r.
    unfold moved. simpl. rewrite !Nat.add_0_r.
    destruct rest as [|c r]; [done|]. simpl in Hrest.
    apply negb_false_iff in Hrest. cbn [readString_from]. by rewrite Hrest.
  - cbn [quoted].
    destruct (Ascii.eqb c quote || Ascii.eqb c "092") eqn:Hc.
    + rewrite !append_cons. cbn [readString_from].
      rewrite Hback. rewrite Ascii.eqb_refl.
      assert (unescape c = c) as ->.
      { apply orb_true_iff in Hc as [Hc|Hc]; apply Ascii.eqb_eq in Hc;
          subst c; [done|]. reflexivity. }
      rewrite IH, append_char_append. unfold moved. simpl.
      do 2 f_equal; lia.
    + apply orb_false_iff in Hc as [Hq Hb].
      rewrite append_cons. cbn [readString_from]. rewrite Hq, Hb.
      rewrite IH, append_char_append. unfold moved. simpl.
      do 2 f_equal; lia.
Qed.

Lemma skipComment_from_line body :
  forall rest pos ln col,
    all_chars (fun c => negb (Ascii.eqb c "010")) body = true ->
    starts_with (fun c => negb (Ascii.eqb c "010")) rest = false ->
    skipComment_from (body ++ rest) pos ln col
    = moved (String.length body) rest pos ln col.
Proof.
  induction body as [|c body IH]; intros rest pos ln col Hbody Hrest.
  - change ("" ++ rest)%string with rest. unfold moved. simpl.
    rewrite !Nat.add_0_r. destruct rest as [|c r]; [done|].
    simpl in Hrest. apply negb_false_iff in Hrest.
    cbn [skipComment_from]. by rewrite Hrest.
  - rewrite append_cons. simpl in Hbody.
    apply andb_true_iff in Hbody as [Hc Hbody]. apply negb_true_iff in Hc.
    cbn [skipComment_from]. rewrite Hc, IH by done.
    unfold moved. simpl. f_equal; lia.
Qed.

(** With more fuel than characters left, the fuel does not matter. *)
Lemma nextToken_fuel_enough fuel1 :
  forall fuel2 l,
    remaining l < fuel1 -> remaining l < fuel2 ->
    nextToken_fuel fuel1 l = nextToken_fuel fuel2 l.
Proof.
  induction fuel1 as [|fuel1 IH]; intros [|fuel2] l H1 H2; try lia.
  cbn [nextToken_fuel].
  pose proof (LexerFacts.skipWhitespace_remaining l) as Hskip.
  set (l1 := skipWhitespace l) in *.
  destruct (hasNext l1) eqn:Hnext; cbn [negb]; [|done].
  destruct (Ascii.eqb (peek l1) "-" && second_is_dash l1) eqn:Hcomment;
    [|done].
  apply andb_true_iff in Hcomment as [Hdash _]. apply Ascii.eqb_eq in Hdash.
  pose proof (LexerFacts.skipComment_remaining l1 Hdash Hnext) as Hcom.
  apply IH; lia.
Qed.

End LexerWords.

(** X16: string literals read back.  Between single or double quotes, the
    text made from any value by putting a backslash before each quote
    character and each backslash is lexed as one STRING_LITERAL token with
    exactly that value; the closing quote is consumed and what follows it
    is left.  Without a closing quote the literal runs to the end of the
    input and is returned all the same.  The token carries the position
    behind the literal, and its line is the line where the literal began,
    whatever newlines the literal holds. *)
Theorem string_literal_round_trip :
  forall quote v rest pos ln col,
    quote = "039"%char \/ quote = "034"%char ->
    let n := String.length (quoted quote v) in
    Lexer.nextToken
      (Lexer.mkLexer (String quote (quoted quote v ++ String quote rest))
         pos ln col)
    = Some (mkToken STRING_LITERAL v (pos + (n + 2)) ln (col + (n + 2)),
            moved (n + 2) rest pos ln col) /\
    Lexer.nextToken (Lexer.mkLexer (String quote (quoted quote v)) pos ln col)
    = Some (mkToken STRING_LITERAL v (pos + (n + 1)) ln (col + (n + 1)),
            moved (n + 1) "" pos ln col).
Proof.
  intros quote v rest pos ln col Hquote n.
  assert (Lexer.isspace quote = false /\ Ascii.eqb quote "-" = false /\
          Lexer.unescape quote = quote /\ Ascii.eqb "092" quote = false /\
          Ascii.eqb quote "039" || Ascii.eqb quote "034" = true)
    as (Hspace & Hdash & Hun & Hback & Hq)
    by (destruct Hquote as [-> | ->]; done).
  split.
  - rewrite LexerWords.nextToken_dispatch by (by rewrite ?Hdash).
    rewrite Hq. unfold Lexer.readString, Lexer.advance.
    cbn [Lexer.input_ Lexer.position_ Lexer.line_ Lexer.column_].
    rewrite LexerWords.readString_from_quoted; try done.
    2:{ simpl. by rewrite Ascii.eqb_refl. }
    unfold moved. cbn [Lexer.hasNext Lexer.peek Lexer.input_ andb].
    rewrite Ascii.eqb_refl.
    cbn [snd Lexer.input_ Lexer.position_ Lexer.line_ Lexer.column_].
    unfold Lexer.makeToken. simpl. fold n. do 2 f_equal; f_equal; lia.
  - rewrite <- (LexerWords.append_nil_r (quoted quote v)) at 1.
    rewrite LexerWords.nextToken_dispatch by (by rewrite ?Hdash).
    rewrite Hq. unfold Lexer.readString, Lexer.advance.
    cbn [Lexer.input_ Lexer.position_ Lexer.line_ Lexer.column_].
    rewrite LexerWords.readString_from_quoted; try done.
    unfold moved. cbn [Lexer.hasNext Lexer.peek Lexer.input_ andb].
    unfold Lexer.makeToken. simpl. fold n. do 2 f_equal; f_equal; lia.
Qed.

Lemma string_literal_round_trip_witness :
  Lexer.nextToken (Lexer.mkLexer "'it\'s' , 2" 0 1 1)
  = Some (mkToken STRING_LITERAL "it's" 7 1 8,
          Lexer.mkLexer " , 2" 7 1 8).
Proof.
  exact (proj1 (string_literal_round_trip "039" "it's" " , 2" 0 1 1
                  (or_introl eq_refl))).
Defined.

Lemma nextToken_word :
  forall w rest pos ln col,
    starts_with Lexer.isAlpha w = true ->
    all_chars Lexer.isAlphaNumeric w = true ->
    starts_with Lexer.isAlphaNumeric rest = false ->
    let l' := moved (String.length w) rest pos ln col in
    Lexer.nextToken (Lexer.mkLexer (w ++ rest) pos ln col)
    = Some (Lexer.makeToken l'
              (default IDENTIFIER
                 (Lexer.keywords_ !! Lexer.string_map Lexer.toupper w)) w,
            l').
Proof.
  intros w rest pos ln col Hstart Hw Hrest l'.
  destruct w as [|c w]; [done|]. simpl in Hstart.
  destruct (LexerWords.alpha_class c Hstart) as (Hs & Hd & Hq1 & Hq2 & Hdig).
  rewrite LexerWords.append_cons.
  rewrite LexerWords.nextToken_dispatch by (by rewrite ?Hd).
  rewrite Hq1, Hq2, Hdig, Hstart. cbn [orb].
  unfold Lexer.readIdentifier.
  cbn [Lexer.input_ Lexer.position_ Lexer.line_ Lexer.column_].
  rewrite <- LexerWords.append_cons.
  rewrite LexerWords.readIdentifier_from_word by done.
  change ("" ++ String c w)%string with (String c w). fold l'.
  by destruct (Lexer.keywords_ !! Lexer.string_map Lexer.toupper (String c w)).
Qed.

(** X17: identifiers and keywords.  A word of letters, digits and
    underscores that starts with a letter or underscore and is followed by
    no such character is lexed as one token whose value is the word as
    written; its type is looked up under the upper-case form of the word,
    so a keyword is recognised in any mix of cases and every other word is
    an IDENTIFIER. *)
Theorem words_are_keywords_in_any_case :
  forall w rest pos ln col,
    starts_with Lexer.isAlpha w = true ->
    all_chars Lexer.isAlphaNumeric w = true ->
    starts_with Lexer.isAlphaNumeric rest = false ->
    let l' := moved (String.length w) rest pos ln col in
    Lexer.nextToken (Lexer.mkLexer (w ++ rest) pos ln col)
    = Some (Lexer.makeToken l'
              (default IDENTIFIER
                 (Lexer.keywords_ !! Lexer.string_map Lexer.toupper w)) w,
            l').
Proof. exact nextToken_word. Qed.

Lemma words_are_keywords_in_any_case_witness :
  Lexer.nextToken (Lexer.mkLexer "SeLeCt*" 0 1 1)
  = Some (Lexer.makeToken (moved 6 "*" 0 1 1)
            (default IDENTIFIER
               (Lexer.keywords_ !! Lexer.string_map Lexer.toupper "SeLeCt"))
            "SeLeCt",
          moved 6 "*" 0 1 1).
Proof.
  exact (words_are_keywords_in_any_case "SeLeCt" "*" 0 1 1
           eq_refl eq_refl eq_refl).
Defined.

Lemma nextToken_number :
  forall ds fs rest pos ln col,
    starts_with Lexer.isDigit ds = true ->
    all_chars Lexer.isDigit ds = true ->
    all_chars Lexer.isDigit fs = true ->
    (starts_with (fun c => Lexer.isDigit c || Ascii.eqb c ".") rest = false ->
     let l' := moved (String.length ds) rest pos ln col in
     Lexer.nextToken (Lexer.mkLexer (ds ++ rest) pos ln col)
     = Some (Lexer.makeToken l' INTEGER_LITERAL ds, l')) /\
    (starts_with Lexer.isDigit rest = false ->
     let l' :=
       moved (String.length ds + 1 + String.length fs) rest pos ln col in
     Lexer.nextToken
       (Lexer.mkLexer (ds ++ String "." (fs ++ rest)) pos ln col)
     = Some (Lexer.makeToken l' REAL_LITERAL (ds ++ String "." fs), l')).
Proof.
  intros ds fs rest pos ln col Hstart Hds Hfs.
  destruct ds as [|c ds]; [done|]. simpl in Hstart.
  destruct (LexerWords.digit_class c Hstart) as (Hs & Hd & Hq1 & Hq2 & Hdot).
  split.
  - intros Hrest l'.
    rewrite LexerWords.append_cons.
    rewrite LexerWords.nextToken_dispatch by (by rewrite ?Hd).
    rewrite Hq1, Hq2, Hstart. cbn [orb].
    unfold Lexer.readNumber.
    cbn [Lexer.input_ Lexer.position_ Lexer.line_ Lexer.column_].
    rewrite <- LexerWords.append_cons.
    rewrite LexerWords.readNumber_from_digits by done.
    rewrite LexerWords.readNumber_from_stop by done.
    done.
  - intros Hrest l'.
    rewrite LexerWords.append_cons.
    rewrite LexerWords.nextToken_dispatch by (by rewrite ?Hd).
    rewrite Hq1, Hq2, Hstart. cbn [orb].
    unfold Lexer.readNumber.
    cbn [Lexer.input_ Lexer.position_ Lexer.line_ Lexer.column_].
    rewrite <- LexerWords.append_cons.
    rewrite LexerWords.readNumber_from_digits by done.
    cbn [Lexer.readNumber_from].
    replace (Lexer.isDigit "." || negb false && Ascii.eqb "." ".") with true
      by done.
    replace (if Ascii.eqb "." "." then true else false) with true by done.
    rewrite LexerWords.readNumber_from_digits by done.
    rewrite LexerWords.readNumber_from_stop
      by (destruct rest as [|c' r]; [done|]; simpl in *; by rewrite Hrest).
    rewrite LexerWords.append_char_append.
    change ("" ++ String c ds)%string with (String c ds).
    unfold l', moved.
    assert (forall a,
              S (a + String.length (String c ds)) + String.length fs
              = a + (String.length (String c ds) + 1 + String.length fs))
      as Hp by (intros; lia).
    by rewrite !Hp.
Qed.

(** X18: numbers.  A run of digits followed by neither a digit nor a dot
    is lexed as an INTEGER_LITERAL with the digits as its value.  Digits, a
    dot and further digits (possibly none) are lexed as one REAL_LITERAL up
    to the first character that is no digit, so a second dot ends the
    literal and is left in the input. *)
Theorem numbers_are_lexed_greedily :
  forall ds fs rest pos ln col,
    starts_with Lexer.isDigit ds = true ->
    all_chars Lexer.isDigit ds = true ->
    all_chars Lexer.isDigit fs = true ->
    (starts_with (fun c => Lexer.isDigit c || Ascii.eqb c ".") rest = false ->
     let l' := moved (String.length ds) rest pos ln col in
     Lexer.nextToken (Lexer.mkLexer (ds ++ rest) pos ln col)
     = Some (Lexer.makeToken l' INTEGER_LITERAL ds, l')) /\
    (starts_with Lexer.isDigit rest = false ->
     let l' :=
       moved (String.length ds + 1 + String.length fs) rest pos ln col in
     Lexer.nextToken
       (Lexer.mkLexer (ds ++ String "." (fs ++ rest)) pos ln col)
     = Some (Lexer.makeToken l' REAL_LITERAL (ds ++ String "." fs), l')).
Proof. exact nextToken_number. Qed.

Lemma numbers_are_lexed_greedily_witness :
  Lexer.nextToken (Lexer.mkLexer "1.25.3" 0 1 1)
  = Some (Lexer.makeToken (moved 4 ".3" 0 1 1) REAL_LITERAL "1.25",
          moved 4 ".3" 0 1 1).
Proof.
  exact (proj2 (numbers_are_lexed_greedily "1" "25" ".3" 0 1 1
                  eq_refl eq_refl eq_refl) eq_refl).
Defined.

Lemma nextToken_blanks l :
  Lexer.nextToken l = Lexer.nextToken (Lexer.skipWhitespace l).
Proof.
  unfold Lexer.nextToken.
  pose proof (LexerFacts.skipWhitespace_remaining l) as Hskip.
  unfold remaining in Hskip.
  rewrite (LexerWords.nextToken_fuel_enough _
             (S (String.length (Lexer.input_ l))) (Lexer.skipWhitespace l))
    by (unfold remaining; lia).
  cbn [Lexer.nextToken_fuel].
  assert (Lexer.skipWhitespace (Lexer.skipWhitespace l)
          = Lexer.skipWhitespace l) as ->; [|done].
  unfold Lexer.skipWhitespace at 1.
  destruct (Lexer.skipWhitespace l) as [s p ln c] eqn:Hl.
  cbn [Lexer.input_ Lexer.position_ Lexer.line_ Lexer.column_].
  assert (starts_with Lexer.isspace s = false) as Hs.
  { assert (s = Lexer.input_ (Lexer.skipWhitespace l)) as ->
      by (by rewrite Hl).
    clear. unfold Lexer.skipWhitespace.
    generalize (Lexer.position_ l) (Lexer.line_ l) (Lexer.column_ l).
    induction (Lexer.input_ l) as [|c' r IH]; intros p' ln' col'; [done|].
    cbn [Lexer.skipWhitespace_from].
    destruct (Lexer.isspace c') eqn:Hc; [|by simpl].
    destruct (Ascii.eqb c' "010"); apply IH. }
  destruct s as [|c0 r]; [done|]. simpl in Hs.
  cbn [Lexer.skipWhitespace_from]. by rewrite Hs.
Qed.

(** X19: blanks and comments in front of a token.  [nextToken] gives what
    it gives after the leading blanks are skipped; and on two dashes it
    gives what it gives behind the rest of that line, so a comment produces
    no token and changes no token after it except for the positions. *)
Theorem comments_are_skipped :
  (forall l, Lexer.nextToken l = Lexer.nextToken (Lexer.skipWhitespace l)) /\
  (forall body rest pos ln col,
     all_chars (fun c => negb (Ascii.eqb c "010")) body = true ->
     starts_with (fun c => negb (Ascii.eqb c "010")) rest = false ->
     Lexer.nextToken
       (Lexer.mkLexer (String "-" (String "-" (body ++ rest))) pos ln col)
     = Lexer.nextToken (moved (2 + String.length body) rest pos ln col)).
Proof.
  split.
  - apply nextToken_blanks.
  - intros body rest pos ln col Hbody Hrest.
    unfold Lexer.nextToken at 1. cbn [Lexer.nextToken_fuel].
    unfold Lexer.skipWhitespace.
    cbn [Lexer.input_ Lexer.position_ Lexer.line_ Lexer.column_
         Lexer.skipWhitespace_from].
    replace (Lexer.isspace "-") with false by done.
    cbn [Lexer.hasNext Lexer.peek Lexer.input_ negb Lexer.second_is_dash].
    rewrite Ascii.eqb_refl. cbn [andb].
    unfold Lexer.skipComment.
    cbn [Lexer.input_ Lexer.position_ Lexer.line_ Lexer.column_].
    rewrite <- !LexerWords.append_cons.
    rewrite LexerWords.skipComment_from_line; try done.
    unfold Lexer.nextToken.
    apply LexerWords.nextToken_fuel_enough; unfold remaining, moved; simpl;
      rewrite ?LexerWords.length_append; lia.
Qed.

Lemma comments_are_skipped_witness :
  Lexer.nextToken (Lexer.mkLexer (String "-" (String "-" (" c" ++ ""))) 0 1 1)
  = Lexer.nextToken (moved (2 + 2) "" 0 1 1).
Proof.
  exact (proj2 comments_are_skipped " c" "" 0 1 1 eq_refl eq_refl).
Defined.

(** ** From the text of a statement to its effect *)

Module EndToEnd.
Import Lexer.

Lemma tokenize_loop_step fuel l acc token l' :
  nextToken l = Some (token, l') -> hasNext l = true ->
  TokenType_eqb (type token) INVALID = false ->
  TokenType_eqb (type token) EOF_TOKEN = false ->
  0 < fuel ->
  tokenize_loop fuel l acc = tokenize_loop (fuel - 1) l' (acc ++ [token]).
Proof.
  intros Htoken Hnext Hinv Heof Hfuel.
  destruct fuel as [|fuel]; [lia|]. cbn [tokenize_loop].
  rewrite Hnext, Htoken, Hinv, Heof. cbn [negb].
  by replace (S fuel - 1) with fuel by lia.
Qed.

Lemma tokenize_loop_end fuel l acc :
  hasNext l = false -> tokenize_loop fuel l acc = Some acc.
Proof. intros Hnext. destruct fuel; cbn [tokenize_loop]; by rewrite Hnext. Qed.

Lemma identifier_word_spec w :
  identifier_word w = true ->
  starts_with isAlpha w = true /\ all_chars isAlphaNumeric w = true /\
  keywords_ !! string_map toupper w = None.
Proof.
  unfold identifier_word. intros H.
  apply andb_true_iff in H as [H Hkey]. apply andb_true_iff in H as [H1 H2].
  by apply bool_decide_eq_true in Hkey.
Qed.

(** A word after one blank. *)
Lemma nextToken_blank_word w rest pos ln col :
  starts_with isAlpha w = true ->
  all_chars isAlphaNumeric w = true ->
  starts_with isAlphaNumeric rest = false ->
  let l' := moved (S (String.length w)) rest pos ln col in
  nextToken (mkLexer (String " " (w ++ rest)) pos ln col)
  = Some (makeToken l'
            (default IDENTIFIER (keywords_ !! string_map toupper w)) w, l').
Proof.
  intros Hstart Hw Hrest l'. rewrite nextToken_blanks.
  unfold skipWhitespace.
  cbn [input_ position_ line_ column_ skipWhitespace_from].
  replace (isspace " ") with true by done.
  replace (Ascii.eqb " " "010") with false by done.
  destruct w as [|c w]; [done|].
  destruct (LexerWords.alpha_class c Hstart) as (Hs & _).
  rewrite LexerWords.append_cons. cbn [skipWhitespace_from]. rewrite Hs.
  rewrite <- LexerWords.append_cons.
  rewrite nextToken_word by done.
  unfold l', moved. cbn [String.length]. by rewrite !Nat.add_succ_r.
Qed.

Lemma tokenize_drop_table n :
  identifier_word n = true ->
  exists p1 p2 p3 c1 c2 c3,
    tokenize ("DROP TABLE " ++ n)
    = [mkToken DROP "DROP" p1 1 c1; mkToken TABLE "TABLE" p2 1 c2;
       mkToken IDENTIFIER n p3 1 c3].
Proof.
  intros Hn. apply identifier_word_spec in Hn as (Hstart & Hword & Hkey).
  unfold tokenize, tokenize_opt.
  assert (0 < String.length ("DROP TABLE " ++ n) - 2) as Hfuel
    by (rewrite LexerWords.length_append; simpl; lia).
  set (fuel := String.length ("DROP TABLE " ++ n)) in *.
  unfold new.
  change ("DROP TABLE " ++ n)%string
    with ("DROP" ++ String " " ("TABLE" ++ String " " n))%string.
  pose proof (nextToken_word "DROP" (String " " ("TABLE" ++ String " " n))
                0 1 1 eq_refl eq_refl eq_refl) as H1.
  cbv zeta in H1.
  replace (keywords_ !! string_map toupper "DROP") with (Some DROP) in H1
    by (vm_compute; reflexivity).
  rewrite (tokenize_loop_step fuel _ [] _ _ H1) by (try done; lia).
  pose proof (nextToken_blank_word "TABLE" (String " " n) (0 + 4) 1 (1 + 4)
                eq_refl eq_refl eq_refl) as H2.
  cbv zeta in H2.
  replace (keywords_ !! string_map toupper "TABLE") with (Some TABLE) in H2
    by (vm_compute; reflexivity).
  rewrite (tokenize_loop_step (fuel - 1) _ _ _ _ H2) by (try done; lia).
  pose proof (nextToken_blank_word n "" (0 + 4 + 6) 1 (1 + 4 + 6)
                Hstart Hword eq_refl) as H3.
  cbv zeta in H3. rewrite Hkey, LexerWords.append_nil_r in H3.
  rewrite (tokenize_loop_step (fuel - 1 - 1) _ _ _ _ H3) by (try done; lia).
  rewrite tokenize_loop_end by done.
  by eexists _, _, _, _, _, _.
Qed.

Lemma nextToken_blank_star rest pos ln col :
  nextToken (mkLexer (String " " (String "*" rest)) pos ln col)
  = Some (mkToken MULTIPLY "*" (S (S pos)) ln (S (S col)),
          mkLexer rest (S (S pos)) ln (S (S col))).
Proof. reflexivity. Qed.

Lemma nextToken_semicolon rest pos ln col :
  nextToken (mkLexer (String ";" rest) pos ln col)
  = Some (mkToken SEMICOLON ";" (S pos) ln (S col),
          mkLexer rest (S pos) ln (S col)).
Proof. reflexivity. Qed.

(** The tokens of [SELECT * FROM n] followed by [rest], as far as the
    table name. *)
Lemma tokenize_select_star n rest :
  identifier_word n = true ->
  starts_with isAlphaNumeric rest = false ->
  exists p1 p2 p3 c1 c2 c3 fuel l,
    String.length rest <= fuel /\ input_ l = rest /\
    tokenize_opt ("SELECT * FROM " ++ n ++ rest)
    = tokenize_loop fuel l
        [mkToken SELECT "SELECT" p1 1 c1; mkToken MULTIPLY "*" p2 1 c2;
         mkToken FROM "FROM" p3 1 c3;
         makeToken l IDENTIFIER n].
Proof.
  intros Hn Hrest.
  apply identifier_word_spec in Hn as (Hstart & Hword & Hkey).
  unfold tokenize_opt.
  assert (String.length ("SELECT * FROM " ++ n ++ rest)
          = 14 + String.length n + String.length rest) as Hlen
    by (rewrite !LexerWords.length_append; simpl; lia).
  set (fuel := String.length ("SELECT * FROM " ++ n ++ rest)) in *.
  unfold new.
  change ("SELECT * FROM " ++ n ++ rest)%string
    with ("SELECT" ++ String " " (String "*" (String " "
            ("FROM" ++ String " " (n ++ rest)))))%string.
  pose proof (nextToken_word "SELECT"
                (String " " (String "*" (String " "
                   ("FROM" ++ String " " (n ++ rest)))))
                0 1 1 eq_refl eq_refl eq_refl) as H1.
  cbv zeta in H1.
  replace (keywords_ !! string_map toupper "SELECT") with (Some SELECT) in H1
    by (vm_compute; reflexivity).
  rewrite (tokenize_loop_step fuel _ [] _ _ H1) by (try done; lia).
  unfold moved at 1.
  rewrite (tokenize_loop_step (fuel - 1) _ _ _ _ (nextToken_blank_star _ _ _ _))
    by (try done; lia).
  pose proof (nextToken_blank_word "FROM" (String " " (n ++ rest))
                (S (S (0 + String.length "SELECT"))) 1
                (S (S (1 + String.length "SELECT")))
                eq_refl eq_refl eq_refl) as H3.
  cbv zeta in H3.
  replace (keywords_ !! string_map toupper "FROM") with (Some FROM) in H3
    by (vm_compute; reflexivity).
  rewrite (tokenize_loop_step (fuel - 1 - 1) _ _ _ _ H3) by (try done; lia).
  pose proof (nextToken_blank_word n rest
                (S (S (0 + String.length "SELECT")) + S (String.length "FROM"))
                1
                (S (S (1 + String.length "SELECT")) + S (String.length "FROM"))
                Hstart Hword Hrest) as H4.
  cbv zeta in H4. rewrite Hkey in H4.
  rewrite (tokenize_loop_step (fuel - 1 - 1 - 1) _ _ _ _ H4)
    by (try done; lia).
  eexists _, _, _, _, _, _, _, _. split; [|split; [|reflexivity]].
  - cbn [String.length] in Hlen. lia.
  - done.
Qed.

End EndToEnd.

Lemma filter_include_all rows : List.filter (include_row None) rows = rows.
Proof. induction rows as [|r rows IH]; [done|]. simpl. by rewrite IH. Qed.

Lemma execute_drop_table_text :
  forall n e,
    identifier_word n = true ->
    execute ("DROP TABLE " ++ n) e
    = Ok [] (mkEngine (delete n (database_ e)) [] "").
Proof.
  intros n e Hn. rewrite execute_tokenized.
  destruct (EndToEnd.tokenize_drop_table n Hn)
    as (p1 & p2 & p3 & c1 & c2 & c3 & ->).
  unfold execute_on, catching, execute_tokens.
  replace (Parser.parseStatement
             [mkToken DROP "DROP" p1 1 c1; mkToken TABLE "TABLE" p2 1 c2;
              mkToken IDENTIFIER n p3 1 c3])
    with (Ok (DropTable (DropTableStatement.mk n))
            (Parser.mk [mkToken DROP "DROP" p1 1 c1;
                        mkToken TABLE "TABLE" p2 1 c2;
                        mkToken IDENTIFIER n p3 1 c3] 3))
    by reflexivity.
  by rewrite generateCode_DropTable.
Qed.

(** X20: DROP TABLE, from the text to the database.  For every word [n]
    that is an identifier, [execute] on the text [DROP TABLE n] (nothing
    after the name) removes the table [n] if there is one, returns no row
    and reports no error, whatever the engine holds. *)
Theorem drop_table_from_text :
  forall n e,
    identifier_word n = true ->
    execute ("DROP TABLE " ++ n) e
    = Ok [] (mkEngine (delete n (database_ e)) [] "").
Proof. exact execute_drop_table_text. Qed.

Lemma drop_table_from_text_witness :
  execute ("DROP TABLE " ++ "t_1") QueryEngine_new
  = Ok [] (mkEngine (delete "t_1" (database_ QueryEngine_new)) [] "").
Proof.
  apply (drop_table_from_text "t_1" QueryEngine_new).
  vm_compute. reflexivity.
Defined.

Lemma execute_select_star_text :
  forall n e,
    identifier_word n = true ->
    execute ("SELECT * FROM " ++ n ++ ";") e
    = match getTable n (database_ e) with
      | Some table => Ok (rows_ table) (mkEngine (database_ e) (rows_ table) "")
      | None =>
          Ok [] (mkEngine (database_ e) [] ("Table not found: " ++ n)%string)
      end /\
    execute ("SELECT * FROM " ++ n) e = Undefined.
Proof.
  intros n e Hn. split.
  - unfold execute, catching, execute_try.
    destruct (EndToEnd.tokenize_select_star n ";" Hn eq_refl)
      as (p1 & p2 & p3 & c1 & c2 & c3 & fuel & [s p ln c] & Hfuel & Hs & ->).
    simpl in Hs, Hfuel. subst s.
    rewrite (EndToEnd.tokenize_loop_step fuel _ _ _ _
               (EndToEnd.nextToken_semicolon _ _ _ _))
      by (try done; lia).
    rewrite EndToEnd.tokenize_loop_end by done.
    unfold execute_tokens. cbn [app].
    match goal with
    | |- context [Parser.parseStatement ?tokens] =>
        replace (Parser.parseStatement tokens)
          with (Ok (select_all n) (Parser.mk tokens 4)) by reflexivity
    end.
    unfold select_all. rewrite generateCode_Select. simpl.
    destruct (getTable n (database_ e)) as [table|]; [|done].
    by rewrite filter_include_all.
  - rewrite <- (LexerWords.append_nil_r n) at 1.
    unfold execute, catching, execute_try.
    destruct (EndToEnd.tokenize_select_star n "" Hn eq_refl)
      as (p1 & p2 & p3 & c1 & c2 & c3 & fuel & [s p ln c] & Hfuel & Hs & ->).
    simpl in Hs. subst s.
    rewrite EndToEnd.tokenize_loop_end by done.
    unfold execute_tokens.
    match goal with
    | |- context [Parser.parseStatement ?tokens] =>
        replace (Parser.parseStatement tokens) with (@Undefined Parser.t Statement)
          by reflexivity
    end.
    done.
Qed.

(** X21: SELECT *, from the text to the rows.  For every word [n] that is
    an identifier, [execute] on [SELECT * FROM n;] returns all rows of the
    table [n] in stored order and no error, or no row and "Table not
    found: n" when there is no such table, and leaves the database as it
    is.  On the same text without the semicolon the tokens end with the
    table name, and the parser reads past them when it looks for WHERE. *)
Theorem select_star_from_text :
  forall n e,
    identifier_word n = true ->
    execute ("SELECT * FROM " ++ n ++ ";") e
    = match getTable n (database_ e) with
      | Some table => Ok (rows_ table) (mkEngine (database_ e) (rows_ table) "")
      | None =>
          Ok [] (mkEngine (database_ e) [] ("Table not found: " ++ n)%string)
      end /\
    execute ("SELECT * FROM " ++ n) e = Undefined.
Proof. exact execute_select_star_text. Qed.

Lemma select_star_from_text_witness :
  execute ("SELECT * FROM " ++ "t" ++ ";") QueryEngine_new
  = Ok [] (mkEngine ∅ [] "Table not found: t") /\
  execute ("SELECT * FROM " ++ "t") QueryEngine_new = Undefined.
Proof.
  apply (select_star_from_text "t" QueryEngine_new).
  vm_compute. reflexivity.
Defined.

(** ** The positions of the tokens *)

Module LexerPositions.
Import Lexer.













End LexerPositions.


(** ** Decimal numerals *)

Module Numerals.
Import Lexer.

Lemma digit_of m :
  m < 10 ->
  isDigit (ascii_of_nat (48 + m)) = true /\
  nat_of_ascii (ascii_of_nat (48 + m)) - 48 = m.
Proof.
  intros Hm. do 10 (destruct m as [|m]; [by vm_compute|]). lia.
Qed.

Lemma digit_no_sign c :
  isDigit c = true ->
  isspace c = false /\ Ascii.eqb c "-" = false /\ Ascii.eqb c "+" = false.
Proof.
  destruct c as [[] [] [] [] [] [] [] []]; vm_compute; intros;
    repeat split; congruence.
Qed.

Lemma all_chars_append f (a b : string) :
  all_chars f (a ++ b) = all_chars f a && all_chars f b.
Proof.
  induction a as [|c a IH]; [done|].
  rewrite LexerWords.append_cons. cbn [all_chars]. by rewrite IH, andb_assoc.
Qed.

Lemma read_digits_cons c rest acc count :
  isDigit c = true ->
  read_digits (String c rest) acc count
  = read_digits rest (acc * 10 + Z.of_nat (nat_of_ascii c - 48))%Z (S count).
Proof. intros Hc. cbn [read_digits]. by rewrite Hc. Qed.

(** [std::to_string] writes the decimal digits of [n], most significant
    first, and reading them gives [n] back. *)
Lemma to_string_digits_spec fuel :
  forall n acc,
    n < fuel ->
    exists ds,
      to_string_digits fuel n acc = (ds ++ acc)%string /\
      0 < String.length ds /\ all_chars isDigit ds = true /\
      forall rest a count,
        read_digits (ds ++ rest) a count
        = read_digits rest
            (a * 10 ^ Z.of_nat (String.length ds) + Z.of_nat n)%Z
            (count + String.length ds).
Proof.
  induction fuel as [|fuel IH]; intros n acc Hn; [lia|].
  cbn [to_string_digits].
  pose proof (Nat.div_mod_eq n 10) as Hdiv.
  pose proof (Nat.mod_upper_bound n 10 ltac:(lia)) as Hmod.
  destruct (digit_of (n mod 10) Hmod) as [Hdigit Hvalue].
  destruct (Nat.eqb_spec (n / 10) 0) as [Hzero|Hmore].
  - exists (String (ascii_of_nat (48 + n mod 10)) "").
    split; [done|]. split; [cbn [String.length]; lia|].
    split; [cbn [all_chars]; by rewrite Hdigit|].
    intros rest a count. rewrite LexerWords.append_cons.
    change ("" ++ rest)%string with rest.
    rewrite read_digits_cons, Hvalue by done. cbn [String.length].
    f_equal; [|lia]. f_equal. lia.
  - destruct (IH (n / 10) (String (ascii_of_nat (48 + n mod 10)) acc))
      as (ds & -> & Hlen & Hds & Hread); [lia|].
    exists (ds ++ String (ascii_of_nat (48 + n mod 10)) "")%string.
    split; [by rewrite ParserBounds.string_append_assoc|].
    rewrite LexerWords.length_append. split; [lia|].
    split; [rewrite all_chars_append, Hds; cbn [all_chars]; by rewrite Hdigit|].
    intros rest a count.
    rewrite ParserBounds.string_append_assoc, Hread.
    rewrite LexerWords.append_cons. change ("" ++ rest)%string with rest.
    rewrite read_digits_cons, Hvalue by done. cbn [String.length].
    f_equal; [|lia].
    replace (Z.of_nat (String.length ds + 1))
      with (Z.succ (Z.of_nat (String.length ds))) by lia.
    rewrite Z.pow_succ_r by lia. lia.
Qed.

Lemma read_integer_to_string n :
  read_integer (to_string n) = Some (Z.of_nat n) /\
  starts_with isDigit (to_string n) = true /\
  all_chars isDigit (to_string n) = true.
Proof.
  unfold to_string.
  destruct (to_string_digits_spec (S n) n "" ltac:(lia))
    as (ds & -> & Hlen & Hds & Hread).
  rewrite LexerWords.append_nil_r.
  destruct ds as [|c ds]; [simpl in Hlen; lia|].
  pose proof Hds as Hc. simpl in Hc. apply andb_true_iff in Hc as [Hc _].
  destruct (digit_no_sign c Hc) as (Hspace & Hminus & Hplus).
  split; [|by split].
  unfold read_integer. cbn [skip_spaces]. rewrite Hspace, Hminus, Hplus.
  specialize (Hread "" 0%Z 0). rewrite LexerWords.append_nil_r in Hread.
  rewrite Hread. cbn [read_digits].
  destruct (Nat.eqb_spec (0 + String.length (String c ds)) 0) as [H0|_];
    [simpl in H0; lia|].
  f_equal; lia.
Qed.

End Numerals.

(** [std::stod] on a few REAL literals: the nearest binary64, the same
    for two numerals of one number; a tie goes to the even mantissa; a dot
    alone is no number. *)
Lemma stod_examples :
  stod "1.5" = Some (mkDouble 6755399441055744 (-52)) /\
  stod "1.50" = stod "1.5" /\
  stod "0.1" = Some (mkDouble 7205759403792794 (-56)) /\
  stod "0.30000000000000004" = Some (mkDouble 5404319552844596 (-54)) /\
  stod "9007199254740993." = Some (mkDouble 4503599627370496 1) /\
  stod "9007199254740993.5" = Some (mkDouble 4503599627370497 1) /\
  stod "0.0" = Some (mkDouble 0 0) /\
  stod "." = None.
Proof. repeat split; vm_compute; reflexivity. Qed.

(** X23: integer literals read back.  The decimal numeral of any natural
    number [n], as [std::to_string] writes it, is a run of digits; as the
    text of an INTEGER_LITERAL token, [parseValue] turns it into the
    integer [n] when [n] is at most 2^63 - 1 and throws the "stoll" of
    [std::out_of_range] otherwise; [std::stoi], which reads the number
    after LIMIT, gives [n] up to 2^31 - 1 and throws beyond. *)
Theorem integer_literals_read_back :
  forall (n : nat) (token : Token) (p : Parser.t),
    type token = INTEGER_LITERAL ->
    value token = to_string n ->
    Parser.parseValue token p
    = (if (Z.of_nat n <=? 2 ^ 63 - 1)%Z then Ok (VInteger (Z.of_nat n)) p
       else Throw "stoll" p) /\
    stoi (value token)
    = (if (Z.of_nat n <=? 2 ^ 31 - 1)%Z then Some (Z.of_nat n) else None) /\
    starts_with Lexer.isDigit (value token) = true /\
    all_chars Lexer.isDigit (value token) = true.
Proof.
  intros n token p Htype Hvalue.
  destruct (Numerals.read_integer_to_string n) as (Hread & Hstart & Hall).
  rewrite Hvalue. split; [|split; [|by split]].
  - unfold Parser.parseValue, stoll. rewrite Htype, Hvalue, Hread.
    replace (- 2 ^ 63 <=? Z.of_nat n)%Z with true
      by (symmetry; apply Z.leb_le; lia).
    cbn [andb]. by destruct (Z.of_nat n <=? 2 ^ 63 - 1)%Z.
  - unfold stoi. rewrite Hread.
    replace (- 2 ^ 31 <=? Z.of_nat n)%Z with true
      by (symmetry; apply Z.leb_le; lia).
    done.
Qed.

Lemma integer_literals_read_back_witness :
  Parser.parseValue (mkToken INTEGER_LITERAL "42" 2 1 3) (Parser.new [])
  = Ok (VInteger 42) (Parser.new []) /\
  stoi "42" = Some 42%Z.
Proof.
  destruct (integer_literals_read_back 42
              (mkToken INTEGER_LITERAL "42" 2 1 3) (Parser.new [])
              eq_refl eq_refl)
    as (Hparse & Hstoi & _).
  split; [exact Hparse | exact Hstoi].
Defined.

(** ** Column constraints *)

(** X24: the words of a column constraint are compared as written.  The
    loop over the constraints of a column only ever turns [nullable] off
    and [primary_key] on, and it changes them only at a token whose text is
    exactly [NOT] or [PRIMARY] in upper case: if no token that it passes is
    spelled so, as with [not null] or [primary key], it returns the flags
    it started with. *)
Theorem constraint_words_are_case_sensitive :
  forall fuel nullable primary_key p flags p',
    Parser.parseColumnConstraints fuel nullable primary_key p = Ok flags p' ->
    Parser.tokens_ p' = Parser.tokens_ p /\
    Parser.current_ p <= Parser.current_ p' /\
    (fst flags = true -> nullable = true) /\
    (primary_key = true -> snd flags = true) /\
    ((forall k token,
        Parser.current_ p <= k < Parser.current_ p' ->
        Parser.tokens_ p !! k = Some token ->
        value token <> "NOT" /\ value token <> "PRIMARY") ->
     flags = (nullable, primary_key)).
Proof.
  induction fuel as [|fuel IH]; intros nullable primary_key p flags p';
    [done|].
  cbn [Parser.parseColumnConstraints]. unfold bind at 1.
  rewrite ParserFacts.match_any_eq.
  destruct (Parser.tokens_ p !! Parser.current_ p) as [token|] eqn:Hlook;
    [|done].
  destruct (existsb _ _); [|by intros [= <- <-]].
  unfold bind at 1. rewrite ParserFacts.previous_eq.
  cbn [Parser.current_ Parser.tokens_]. rewrite Hlook.
  set (p1 := Parser.mk (Parser.tokens_ p) (S (Parser.current_ p))).
  assert (forall a b,
            Parser.parseColumnConstraints fuel a b p1 = Ok flags p' ->
            (a = true -> nullable = true) ->
            (primary_key = true -> b = true) ->
            (value token <> "NOT" -> value token <> "PRIMARY" ->
             (a, b) = (nullable, primary_key)) ->
            Parser.tokens_ p' = Parser.tokens_ p /\
            Parser.current_ p <= Parser.current_ p' /\
            (fst flags = true -> nullable = true) /\
            (primary_key = true -> snd flags = true) /\
            ((forall k token,
                Parser.current_ p <= k < Parser.current_ p' ->
                Parser.tokens_ p !! k = Some token ->
                value token <> "NOT" /\ value token <> "PRIMARY") ->
             flags = (nullable, primary_key))) as Hrest.
  { intros a b Hrec Ha Hb Hsame.
    destruct (IH a b p1 flags p' Hrec) as (Htok & Hcur & Hn & Hpk & Hkeep).
    simpl in Htok, Hcur.
    split; [done|]. split; [lia|]. split; [auto|]. split; [auto|].
    intros Hwords.
    destruct (Hwords (Parser.current_ p) token ltac:(lia) Hlook)
      as [Hnot Hprimary].
    rewrite Hkeep; [by apply Hsame|].
    intros k token' Hk. apply Hwords. simpl in Hk. lia. }
  assert (forall ty message (k : Parser.P (bool * bool)) a b,
            (forall p2,
               Parser.tokens_ p2 = Parser.tokens_ p ->
               S (Parser.current_ p) <= Parser.current_ p2 ->
               k p2 = Ok flags p' ->
               exists p3,
                 Parser.tokens_ p3 = Parser.tokens_ p /\
                 S (Parser.current_ p) <= Parser.current_ p3 /\
                 Parser.parseColumnConstraints fuel a b p3 = Ok flags p') ->
            (let* _ := Parser.consume ty message in k) p1 = Ok flags p' ->
            exists p3,
              Parser.tokens_ p3 = Parser.tokens_ p /\
              S (Parser.current_ p) <= Parser.current_ p3 /\
              Parser.parseColumnConstraints fuel a b p3 = Ok flags p')
    as Hconsume.
  { intros ty message k a b Hk. unfold bind.
    rewrite ParserFacts.consume_eq.
    destruct (Parser.tokens_ p1 !! Parser.current_ p1) as [next|]; [|done].
    destruct (accepts ty next).
    - apply Hk; simpl; [done|lia].
    - rewrite ParserFacts.error_eq.
      by destruct (Parser.tokens_ p1 !! Parser.current_ p1). }
  assert (forall a b p3,
            Parser.tokens_ p3 = Parser.tokens_ p ->
            S (Parser.current_ p) <= Parser.current_ p3 ->
            Parser.parseColumnConstraints fuel a b p3 = Ok flags p' ->
            (a = true -> nullable = true) ->
            (primary_key = true -> b = true) ->
            value token = "NOT" \/ value token = "PRIMARY" ->
            Parser.tokens_ p' = Parser.tokens_ p /\
            Parser.current_ p <= Parser.current_ p' /\
            (fst flags = true -> nullable = true) /\
            (primary_key = true -> snd flags = true) /\
            ((forall k token,
                Parser.current_ p <= k < Parser.current_ p' ->
                Parser.tokens_ p !! k = Some token ->
                value token <> "NOT" /\ value token <> "PRIMARY") ->
             flags = (nullable, primary_key))) as Hword.
  { intros a b p3 Htok3 Hcur3 Hrec Ha Hb Hspelled.
    destruct (IH a b p3 flags p' Hrec) as (Htok & Hcur & Hn & Hpk & _).
    split; [congruence|]. split; [lia|]. split; [auto|]. split; [auto|].
    intros Hwords.
    destruct (Hwords (Parser.current_ p) token ltac:(lia) Hlook)
      as [Hnot Hprimary].
    by destruct Hspelled. }
  destruct (String.eqb_spec (value token) "NOT") as [Hnot|Hnot].
  - intros Hrun.
    destruct (Hconsume NULL_KW _ _ false primary_key
                (fun p2 Ht Hc Hr => ex_intro _ p2 (conj Ht (conj Hc Hr))) Hrun)
      as (p3 & Htok3 & Hcur3 & Hrec).
    apply (Hword false primary_key p3); auto. done.
  - destruct (String.eqb_spec (value token) "PRIMARY") as [Hprimary|Hprimary].
    + assert (forall p2,
                Parser.tokens_ p2 = Parser.tokens_ p ->
                S (Parser.current_ p) <= Parser.current_ p2 ->
                (let* key := Parser.previous in
                 let* _ := (if negb (String.eqb (value key) "KEY")
                            then Parser.error "Expected 'KEY' after PRIMARY"
                            else ret tt) in
                 Parser.parseColumnConstraints fuel nullable true) p2
                = Ok flags p' ->
                exists p3,
                  Parser.tokens_ p3 = Parser.tokens_ p /\
                  S (Parser.current_ p) <= Parser.current_ p3 /\
                  Parser.parseColumnConstraints fuel nullable true p3
                  = Ok flags p') as Hkey.
      { intros p2 Ht Hc. unfold bind. rewrite ParserFacts.previous_eq.
        destruct (Parser.current_ p2) as [|c2] eqn:Hc2; [done|].
        destruct (Parser.tokens_ p2 !! c2) as [key|]; [|done].
        destruct (negb (String.eqb (value key) "KEY")).
        - rewrite ParserFacts.error_eq.
          by destruct (Parser.tokens_ p2 !! Parser.current_ p2).
        - intros Hr. exists p2. simpl in Hr. by rewrite Hc2. }
      intros Hrun.
      destruct (Hconsume IDENTIFIER _ _ nullable true Hkey Hrun)
        as (p3 & Htok3 & Hcur3 & Hrec).
      apply (Hword nullable true p3); auto.
    + intros Hrun. apply (Hrest nullable primary_key); auto.
Qed.

Lemma constraint_words_are_case_sensitive_witness :
  (true, false) = (true, false).
Proof.
  refine (proj2 (proj2 (proj2 (proj2
            (constraint_words_are_case_sensitive 5 true false
               (Parser.mk [mkToken NOT "not" 3 1 4; mkToken NULL_KW "null" 8 1 9;
                           mkToken EOF_TOKEN "" 9 1 10] 0)
               (true, false)
               (Parser.mk [mkToken NOT "not" 3 1 4; mkToken NULL_KW "null" 8 1 9;
                           mkToken EOF_TOKEN "" 9 1 10] 1)
               eq_refl)))) _).
  intros k token Hk. simpl in Hk.
  assert (k = 0) as -> by lia. intros [= <-]. split; discriminate.
Defined.

(** ** CREATE TABLE and INSERT, from the text *)

Module EndToEndWrite.
Import Lexer EndToEnd.

Lemma nextToken_blank_lparen rest pos ln col :
  nextToken (mkLexer (String " " (String "(" rest)) pos ln col)
  = Some (mkToken LEFT_PAREN "(" (S (S pos)) ln (S (S col)),
          mkLexer rest (S (S pos)) ln (S (S col))).
Proof. reflexivity. Qed.

Lemma nextToken_rparen rest pos ln col :
  nextToken (mkLexer (String ")" rest) pos ln col)
  = Some (mkToken RIGHT_PAREN ")" (S pos) ln (S col),
          mkLexer rest (S pos) ln (S col)).
Proof. reflexivity. Qed.

Lemma tokenize_create_table n c :
  identifier_word n = true -> identifier_word c = true ->
  exists p1 p2 p3 p4 p5 p6 p7 c1 c2 c3 c4 c5 c6 c7,
    tokenize ("CREATE TABLE " ++ n ++ " (" ++ c ++ " INTEGER)")
    = [mkToken CREATE "CREATE" p1 1 c1; mkToken TABLE "TABLE" p2 1 c2;
       mkToken IDENTIFIER n p3 1 c3; mkToken LEFT_PAREN "(" p4 1 c4;
       mkToken IDENTIFIER c p5 1 c5; mkToken INTEGER_TYPE "INTEGER" p6 1 c6;
       mkToken RIGHT_PAREN ")" p7 1 c7].
Proof.
  intros Hn Hc.
  apply identifier_word_spec in Hn as (Hstart & Hword & Hkey).
  apply identifier_word_spec in Hc as (Hstartc & Hwordc & Hkeyc).
  unfold tokenize, tokenize_opt.
  assert (String.length ("CREATE TABLE " ++ n ++ " (" ++ c ++ " INTEGER)")
          = 13 + String.length n + 2 + String.length c + 9) as Hlen
    by (rewrite !LexerWords.length_append; simpl; lia).
  set (fuel := String.length _) in *.
  unfold new.
  change ("CREATE TABLE " ++ n ++ " (" ++ c ++ " INTEGER)")%string
    with ("CREATE" ++ String " " ("TABLE" ++ String " "
            (n ++ String " " (String "("
               (c ++ String " " ("INTEGER" ++ ")"))))))%string.
  pose proof (nextToken_word "CREATE"
                (String " " ("TABLE" ++ String " "
                   (n ++ String " " (String "("
                      (c ++ String " " ("INTEGER" ++ ")"))))))
                0 1 1 eq_refl eq_refl eq_refl) as H1.
  cbv zeta in H1.
  replace (keywords_ !! string_map toupper "CREATE") with (Some CREATE) in H1
    by (vm_compute; reflexivity).
  rewrite (tokenize_loop_step fuel _ [] _ _ H1) by (try done; lia).
  match goal with
  | |- context [tokenize_loop _ (moved ?k _ ?p ?ln ?col)] =>
      pose proof (nextToken_blank_word "TABLE"
                    (String " " (n ++ String " " (String "("
                       (c ++ String " " ("INTEGER" ++ ")")))))
                    (p + k) ln (col + k) eq_refl eq_refl eq_refl) as H2
  end.
  cbv zeta in H2.
  replace (keywords_ !! string_map toupper "TABLE") with (Some TABLE) in H2
    by (vm_compute; reflexivity).
  unfold moved at 1.
  rewrite (tokenize_loop_step (fuel - 1) _ _ _ _ H2) by (try done; lia).
  match goal with
  | |- context [tokenize_loop _ (moved ?k _ ?p ?ln ?col)] =>
      pose proof (nextToken_blank_word n
                    (String " " (String "("
                       (c ++ String " " ("INTEGER" ++ ")"))))
                    (p + k) ln (col + k) Hstart Hword eq_refl) as H3
  end.
  cbv zeta in H3. rewrite Hkey in H3.
  unfold moved at 1.
  rewrite (tokenize_loop_step (fuel - 1 - 1) _ _ _ _ H3) by (try done; lia).
  unfold moved at 1.
  rewrite (tokenize_loop_step (fuel - 1 - 1 - 1) _ _ _ _
             (nextToken_blank_lparen _ _ _ _)) by (try done; lia).
  match goal with
  | |- context [tokenize_loop _ (mkLexer _ ?p ?ln ?col)] =>
      pose proof (nextToken_word c (String " " ("INTEGER" ++ ")"))
                    p ln col Hstartc Hwordc eq_refl) as H5
  end.
  cbv zeta in H5. rewrite Hkeyc in H5.
  rewrite (tokenize_loop_step (fuel - 1 - 1 - 1 - 1) _ _ _ _ H5)
    by (first [done | destruct c; done | lia]).
  match goal with
  | |- context [tokenize_loop _ (moved ?k _ ?p ?ln ?col)] =>
      pose proof (nextToken_blank_word "INTEGER" ")"
                    (p + k) ln (col + k) eq_refl eq_refl eq_refl) as H6
  end.
  cbv zeta in H6.
  replace (keywords_ !! string_map toupper "INTEGER")
    with (Some INTEGER_TYPE) in H6 by (vm_compute; reflexivity).
  unfold moved at 1.
  rewrite (tokenize_loop_step (fuel - 1 - 1 - 1 - 1 - 1) _ _ _ _ H6)
    by (try done; lia).
  unfold moved at 1.
  rewrite (tokenize_loop_step (fuel - 1 - 1 - 1 - 1 - 1 - 1) _ _ _ _
             (nextToken_rparen _ _ _ _)) by (try done; lia).
  rewrite tokenize_loop_end by done.
  by eexists _, _, _, _, _, _, _, _, _, _, _, _, _, _.
Qed.

Lemma tokenize_insert n ds :
  identifier_word n = true ->
  starts_with isDigit ds = true -> all_chars isDigit ds = true ->
  exists p1 p2 p3 p4 p5 p6 p7 p8 c1 c2 c3 c4 c5 c6 c7 c8,
    tokenize ("INSERT INTO " ++ n ++ " VALUES (" ++ ds ++ ");")
    = [mkToken INSERT "INSERT" p1 1 c1; mkToken INTO "INTO" p2 1 c2;
       mkToken IDENTIFIER n p3 1 c3; mkToken VALUES "VALUES" p4 1 c4;
       mkToken LEFT_PAREN "(" p5 1 c5; mkToken INTEGER_LITERAL ds p6 1 c6;
       mkToken RIGHT_PAREN ")" p7 1 c7; mkToken SEMICOLON ";" p8 1 c8].
Proof.
  intros Hn Hstartd Hdigits.
  apply identifier_word_spec in Hn as (Hstart & Hword & Hkey).
  unfold tokenize, tokenize_opt.
  assert (String.length ("INSERT INTO " ++ n ++ " VALUES (" ++ ds ++ ");")
          = 12 + String.length n + 9 + String.length ds + 2) as Hlen
    by (rewrite !LexerWords.length_append; simpl; lia).
  set (fuel := String.length _) in *.
  unfold new.
  change ("INSERT INTO " ++ n ++ " VALUES (" ++ ds ++ ");")%string
    with ("INSERT" ++ String " " ("INTO" ++ String " "
            (n ++ String " " ("VALUES" ++ String " " (String "("
               (ds ++ ");"))))))%string.
  pose proof (nextToken_word "INSERT"
                (String " " ("INTO" ++ String " "
                   (n ++ String " " ("VALUES" ++ String " " (String "("
                      (ds ++ ");"))))))
                0 1 1 eq_refl eq_refl eq_refl) as H1.
  cbv zeta in H1.
  replace (keywords_ !! string_map toupper "INSERT") with (Some INSERT) in H1
    by (vm_compute; reflexivity).
  rewrite (tokenize_loop_step fuel _ [] _ _ H1) by (try done; lia).
  match goal with
  | |- context [tokenize_loop _ (moved ?k _ ?p ?ln ?col)] =>
      pose proof (nextToken_blank_word "INTO"
                    (String " " (n ++ String " " ("VALUES" ++ String " "
                       (String "(" (ds ++ ");")))))
                    (p + k) ln (col + k) eq_refl eq_refl eq_refl) as H2
  end.
  cbv zeta in H2.
  replace (keywords_ !! string_map toupper "INTO") with (Some INTO) in H2
    by (vm_compute; reflexivity).
  unfold moved at 1.
  rewrite (tokenize_loop_step (fuel - 1) _ _ _ _ H2) by (try done; lia).
  match goal with
  | |- context [tokenize_loop _ (moved ?k _ ?p ?ln ?col)] =>
      pose proof (nextToken_blank_word n
                    (String " " ("VALUES" ++ String " "
                       (String "(" (ds ++ ");"))))
                    (p + k) ln (col + k) Hstart Hword eq_refl) as H3
  end.
  cbv zeta in H3. rewrite Hkey in H3.
  unfold moved at 1.
  rewrite (tokenize_loop_step (fuel - 1 - 1) _ _ _ _ H3) by (try done; lia).
  match goal with
  | |- context [tokenize_loop _ (moved ?k _ ?p ?ln ?col)] =>
      pose proof (nextToken_blank_word "VALUES"
                    (String " " (String "(" (ds ++ ");")))
                    (p + k) ln (col + k) eq_refl eq_refl eq_refl) as H4
  end.
  cbv zeta in H4.
  replace (keywords_ !! string_map toupper "VALUES") with (Some VALUES) in H4
    by (vm_compute; reflexivity).
  unfold moved at 1.
  rewrite (tokenize_loop_step (fuel - 1 - 1 - 1) _ _ _ _ H4)
    by (try done; lia).
  unfold moved at 1.
  rewrite (tokenize_loop_step (fuel - 1 - 1 - 1 - 1) _ _ _ _
             (nextToken_blank_lparen _ _ _ _)) by (try done; lia).
  match goal with
  | |- context [tokenize_loop _ (mkLexer _ ?p ?ln ?col)] =>
      pose proof (proj1 (nextToken_number ds "" ");" p ln col
                           Hstartd Hdigits eq_refl) eq_refl) as H6
  end.
  cbv zeta in H6.
  rewrite (tokenize_loop_step (fuel - 1 - 1 - 1 - 1 - 1) _ _ _ _ H6)
    by (first [done | destruct ds; done | lia]).
  unfold moved at 1.
  rewrite (tokenize_loop_step (fuel - 1 - 1 - 1 - 1 - 1 - 1) _ _ _ _
             (nextToken_rparen _ _ _ _)) by (try done; lia).
  rewrite (tokenize_loop_step (fuel - 1 - 1 - 1 - 1 - 1 - 1 - 1) _ _ _ _
             (nextToken_semicolon _ _ _ _)) by (try done; lia).
  rewrite tokenize_loop_end by done.
  by eexists _, _, _, _, _, _, _, _, _, _, _, _, _, _, _, _.
Qed.

Lemma bind_ok {St A B} (m : M St A) (k : A -> M St B) s a s' :
  m s = Ok a s' -> bind m k s = k a s'.
Proof. intros H. unfold bind. by rewrite H. Qed.

(** One step of a computation whose first part can be run. *)
Ltac run_step :=
  erewrite bind_ok by (lazy; reflexivity); cbv beta iota.

Section InsertTokens.
Variables (n ds : string) (z : Z).
Variables p1 p2 p3 p4 p5 p6 p7 p8 c1 c2 c3 c4 c5 c6 c7 c8 : nat.
Hypothesis Hz : stoll ds = Some z.

Let tokens : list Token :=
  [mkToken INSERT "INSERT" p1 1 c1; mkToken INTO "INTO" p2 1 c2;
   mkToken IDENTIFIER n p3 1 c3; mkToken VALUES "VALUES" p4 1 c4;
   mkToken LEFT_PAREN "(" p5 1 c5; mkToken INTEGER_LITERAL ds p6 1 c6;
   mkToken RIGHT_PAREN ")" p7 1 c7; mkToken SEMICOLON ";" p8 1 c8].

Lemma parse_literal fuel :
  Parser.parseUnaryExpression (S fuel) (Parser.mk tokens 5)
  = Ok (LiteralExpression (VInteger z)) (Parser.mk tokens 6).
Proof.
  cbn [Parser.parseUnaryExpression]. run_step.
  unfold Parser.parsePrimaryExpression. do 4 run_step.
  erewrite bind_ok
    by (unfold Parser.parseValue; cbn [type value]; rewrite Hz; reflexivity).
  reflexivity.
Qed.

Lemma parse_level fuel types op_of (operand : Parser.P Expression) :
  operand (Parser.mk tokens 5)
  = Ok (LiteralExpression (VInteger z)) (Parser.mk tokens 6) ->
  existsb (fun ty => accepts ty (mkToken RIGHT_PAREN ")" p7 1 c7)) types
  = false ->
  (let* expr := operand in
   Parser.binary_loop (S fuel) types op_of operand expr) (Parser.mk tokens 5)
  = Ok (LiteralExpression (VInteger z)) (Parser.mk tokens 6).
Proof.
  intros Hoperand Htypes. rewrite (bind_ok _ _ _ _ _ Hoperand).
  cbn [Parser.binary_loop]. unfold bind.
  rewrite ParserFacts.match_any_eq. destruct types as [|ty types]; [done|].
  replace (Parser.tokens_ (Parser.mk tokens 6) !! Parser.current_ (Parser.mk tokens 6))
    with (Some (mkToken RIGHT_PAREN ")" p7 1 c7)) by reflexivity.
  by rewrite Htypes.
Qed.

Lemma parse_expression fuel :
  Parser.parseExpression (S (S fuel)) (Parser.mk tokens 5)
  = Ok (LiteralExpression (VInteger z)) (Parser.mk tokens 6).
Proof.
  unfold Parser.parseExpression, Parser.parseOrExpression,
    Parser.parseAndExpression, Parser.parseEqualityExpression,
    Parser.parseComparisonExpression, Parser.parseTermExpression,
    Parser.parseFactorExpression.
  do 6 (apply parse_level; [|reflexivity]).
  apply parse_literal.
Qed.

Lemma parse_insert_tokens :
  Parser.parseStatement tokens
  = Ok (Insert (InsertStatement.mk n [] [[LiteralExpression (VInteger z)]]))
       (Parser.mk tokens 7).
Proof.
  unfold Parser.parseStatement, Parser.parseStatement_fuel.
  do 2 run_step.
  unfold Parser.parseInsertStatement. do 4 run_step.
  erewrite (bind_ok (ret [])) by reflexivity. cbv beta.
  run_step.
  erewrite bind_ok; [reflexivity|].
  cbn [length Parser.do_while_comma].
  erewrite bind_ok.
  2:{ run_step.
      erewrite bind_ok.
      2:{ erewrite bind_ok by apply parse_expression.
          run_step. reflexivity. }
      cbv beta. run_step. reflexivity. }
  cbv beta. run_step. reflexivity.
Qed.
End InsertTokens.

End EndToEndWrite.

(** [execute] on the text of a CREATE TABLE with one INTEGER column. *)
Lemma execute_create_table_text n c e :
  identifier_word n = true -> identifier_word c = true ->
  execute ("CREATE TABLE " ++ n ++ " (" ++ c ++ " INTEGER)") e
  = if hasTable n (database_ e)
    then Ok [] (mkEngine (database_ e) []
                  ("Table already exists: " ++ n)%string)
    else Ok [] (mkEngine
                  (<[n := Table_new n
                            (schema_of [mkColumn c INTEGER true false])]>
                     (database_ e)) [] "").
Proof.
  intros Hn Hc. rewrite execute_tokenized.
  destruct (EndToEndWrite.tokenize_create_table n c Hn Hc)
    as (p1 & p2 & p3 & p4 & p5 & p6 & p7 & c1 & c2 & c3 & c4 & c5 & c6 & c7
        & ->).
  unfold execute_on, catching, execute_tokens.
  match goal with
  | |- context [Parser.parseStatement ?tokens] =>
      replace (Parser.parseStatement tokens)
        with (Ok (CreateTable
                    (CreateTableStatement.mk n [mkColumn c INTEGER true false]))
                (Parser.mk tokens 7)) by reflexivity
  end.
  rewrite generateCode_CreateTable. simpl.
  by destruct (hasTable n (database_ e)).
Qed.

(** [execute] on the text of an INSERT of one integer. *)
Lemma execute_insert_text n ds z e :
  identifier_word n = true ->
  starts_with Lexer.isDigit ds = true ->
  all_chars Lexer.isDigit ds = true ->
  stoll ds = Some z ->
  match getTable n (database_ e) with
  | None =>
      execute ("INSERT INTO " ++ n ++ " VALUES (" ++ ds ++ ");") e
      = Ok [] (mkEngine (database_ e) [] ("Table not found: " ++ n)%string)
  | Some table =>
      (conforms (schema_ table) [VInteger z] ->
       execute ("INSERT INTO " ++ n ++ " VALUES (" ++ ds ++ ");") e
       = Ok [] (mkEngine
                  (<[n := mkTable (name_ table) (schema_ table)
                            (rows_ table ++ [[VInteger z]])]> (database_ e))
                  [] "")) /\
      (~ conforms (schema_ table) [VInteger z] ->
       execute ("INSERT INTO " ++ n ++ " VALUES (" ++ ds ++ ");") e
       = Ok [] (mkEngine (database_ e) [] "Row validation failed"))
  end.
Proof.
  intros Hn Hstart Hdigits Hz. rewrite execute_tokenized.
  destruct (EndToEndWrite.tokenize_insert n ds Hn Hstart Hdigits)
    as (p1 & p2 & p3 & p4 & p5 & p6 & p7 & p8
        & c1 & c2 & c3 & c4 & c5 & c6 & c7 & c8 & ->).
  match goal with
  | |- context [execute_on ?tokens e] =>
      assert (execute_on tokens e
              = match getTable n (database_ e) with
                | None =>
                    Ok [] (mkEngine (database_ e) []
                             ("Table not found: " ++ n)%string)
                | Some table =>
                    match insertRow [VInteger z] table with
                    | Ok _ table' =>
                        Ok [] (mkEngine (<[n := table']> (database_ e)) [] "")
                    | Throw w table' =>
                        Ok [] (mkEngine (<[n := table']> (database_ e)) [] w)
                    | Undefined => Undefined
                    | OutOfFuel => OutOfFuel
                    end
                end) as ->
  end.
  { unfold execute_on, catching, execute_tokens.
    rewrite (EndToEndWrite.parse_insert_tokens n ds z
               p1 p2 p3 p4 p5 p6 p7 p8 c1 c2 c3 c4 c5 c6 c7 c8 Hz).
    rewrite generateCode_Insert. cbn [InsertStatement.table_name
      InsertStatement.values current_database_ database_ clearError].
    destruct (getTable n (database_ e)) as [table|]; [|done].
    cbn [insert_value_lists insert_row_of app]. unfold bind at 1.
    cbn [ret]. unfold bind.
    by destruct (insertRow [VInteger z] table) as [[] table'|w table'| |]. }
  destruct (getTable n (database_ e)) as [table|] eqn:Htable; [|done].
  destruct (insertRow_conforms [VInteger z] table) as [Hyes Hno].
  split; intros Hfit.
  - by rewrite (Hyes Hfit).
  - rewrite (Hno Hfit). by rewrite insert_id.
Qed.

(** X25: CREATE TABLE, from the text to the database.  For all identifier
    words [n] and [c], [execute] on [CREATE TABLE n (c INTEGER)] reports
    "Table already exists: n" and changes nothing when the table exists,
    and otherwise stores under [n] an empty table with the one nullable
    INTEGER column [c], with no error; the text needs no end-of-input
    token. *)
Theorem create_table_from_text :
  forall n c e,
    identifier_word n = true -> identifier_word c = true ->
    execute ("CREATE TABLE " ++ n ++ " (" ++ c ++ " INTEGER)") e
    = if hasTable n (database_ e)
      then Ok [] (mkEngine (database_ e) []
                    ("Table already exists: " ++ n)%string)
      else Ok [] (mkEngine
                    (<[n := Table_new n
                              (schema_of [mkColumn c INTEGER true false])]>
                       (database_ e)) [] "").
Proof. exact execute_create_table_text. Qed.

Lemma create_table_from_text_witness :
  execute ("CREATE TABLE " ++ "t" ++ " (" ++ "c" ++ " INTEGER)") QueryEngine_new
  = if hasTable "t" (database_ QueryEngine_new)
    then Ok [] (mkEngine (database_ QueryEngine_new) []
                  ("Table already exists: " ++ "t")%string)
    else Ok [] (mkEngine
                  (<["t" := Table_new "t"
                              (schema_of [mkColumn "c" INTEGER true false])]>
                     (database_ QueryEngine_new)) [] "").
Proof.
  apply (create_table_from_text "t" "c" QueryEngine_new);
    vm_compute; reflexivity.
Defined.

(** X26: INSERT, from the text to the table.  For every identifier word
    [n] and every run of digits that [std::stoll] reads as [z], [execute]
    on [INSERT INTO n VALUES (digits);] reports "Table not found: n" when
    there is no such table; appends the row [(z)] to the table, with no
    error, when that row fits its schema; and otherwise reports "Row
    validation failed" and leaves the database as it was. *)
Theorem insert_from_text :
  forall n ds z e,
    identifier_word n = true ->
    starts_with Lexer.isDigit ds = true ->
    all_chars Lexer.isDigit ds = true ->
    stoll ds = Some z ->
    match getTable n (database_ e) with
    | None =>
        execute ("INSERT INTO " ++ n ++ " VALUES (" ++ ds ++ ");") e
        = Ok [] (mkEngine (database_ e) [] ("Table not found: " ++ n)%string)
    | Some table =>
        (conforms (schema_ table) [VInteger z] ->
         execute ("INSERT INTO " ++ n ++ " VALUES (" ++ ds ++ ");") e
         = Ok [] (mkEngine
                    (<[n := mkTable (name_ table) (schema_ table)
                              (rows_ table ++ [[VInteger z]])]> (database_ e))
                    [] "")) /\
        (~ conforms (schema_ table) [VInteger z] ->
         execute ("INSERT INTO " ++ n ++ " VALUES (" ++ ds ++ ");") e
         = Ok [] (mkEngine (database_ e) [] "Row validation failed"))
    end.
Proof. exact execute_insert_text. Qed.

Lemma insert_from_text_witness :
  execute ("INSERT INTO " ++ "t" ++ " VALUES (" ++ "42" ++ ");")
    QueryEngine_new
  = Ok [] (mkEngine ∅ [] "Table not found: t").
Proof.
  pose proof (insert_from_text "t" "42" 42 QueryEngine_new
                ltac:(vm_compute; reflexivity) eq_refl eq_refl eq_refl) as H.
  replace (getTable "t" (database_ QueryEngine_new)) with (@None Table) in H
    by (vm_compute; reflexivity).
  exact H.
Defined.

(** X27: a value written is the value read.  For all identifier words [n]
    and [c] and every run of digits that [std::stoll] reads as [z], on an
    engine without a table [n] the three texts [CREATE TABLE n (c INTEGER)],
    [INSERT INTO n VALUES (digits);] and [SELECT * FROM n;], executed in
    turn, end with the one row [(z)] returned, no error, and the table [n]
    holding that row. *)
Theorem create_insert_select_round_trip :
  forall n c ds z e,
    identifier_word n = true -> identifier_word c = true ->
    starts_with Lexer.isDigit ds = true ->
    all_chars Lexer.isDigit ds = true ->
    stoll ds = Some z ->
    hasTable n (database_ e) = false ->
    execute_all
      [ ("CREATE TABLE " ++ n ++ " (" ++ c ++ " INTEGER)")%string;
        ("INSERT INTO " ++ n ++ " VALUES (" ++ ds ++ ");")%string;
        ("SELECT * FROM " ++ n ++ ";")%string ] [] e
    = Ok [[VInteger z]]
        (mkEngine
           (<[n := mkTable n (schema_of [mkColumn c INTEGER true false])
                     [[VInteger z]]]> (database_ e))
           [[VInteger z]] "").
Proof.
  intros n c ds z e Hn Hc Hstart Hdigits Hz Hnew.
  cbn [execute_all]. unfold bind at 1.
  rewrite (execute_create_table_text n c e Hn Hc), Hnew.
  set (created := Table_new n (schema_of [mkColumn c INTEGER true false])).
  unfold bind at 1.
  pose proof (execute_insert_text n ds z
                (mkEngine (<[n := created]> (database_ e)) [] "")
                Hn Hstart Hdigits Hz) as Hinsert.
  cbn [database_] in Hinsert. unfold getTable in Hinsert.
  rewrite lookup_insert_eq in Hinsert. destruct Hinsert as [Hinsert _].
  rewrite Hinsert.
  2:{ unfold conforms, created. cbn [schema_ Table_new].
      rewrite schema_of_columns. repeat constructor. }
  rewrite insert_insert_eq. unfold bind.
  destruct (execute_select_star_text n
              (mkEngine
                 (<[n := mkTable (name_ created) (schema_ created)
                           (rows_ created ++ [[VInteger z]])]> (database_ e))
                 [] "") Hn) as [Hselect _].
  rewrite Hselect. cbn [database_]. unfold getTable.
  by rewrite lookup_insert_eq.
Qed.

Lemma create_insert_select_round_trip_witness :
  execute_all
    [ ("CREATE TABLE " ++ "t" ++ " (" ++ "c" ++ " INTEGER)")%string;
      ("INSERT INTO " ++ "t" ++ " VALUES (" ++ "42" ++ ");")%string;
      ("SELECT * FROM " ++ "t" ++ ";")%string ] [] QueryEngine_new
  = Ok [[VInteger 42]]
      (mkEngine
         (<["t" := mkTable "t" (schema_of [mkColumn "c" INTEGER true false])
                     [[VInteger 42]]]> (database_ QueryEngine_new))
         [[VInteger 42]] "").
Proof.
  apply (create_insert_select_round_trip "t" "c" "42" 42 QueryEngine_new);
    vm_compute; reflexivity.
Defined.

(** ** Texts that start with no statement keyword *)

Lemma keywords_values u ty :
  Lexer.keywords_ !! u = Some ty -> ty <> EOF_TOKEN /\ ty <> INVALID.
Proof.
  unfold Lexer.keywords_. intros H. apply elem_of_list_to_map_2 in H.
  repeat (apply elem_of_cons in H as [[= _ ->]|H]; [done|]).
  by apply elem_of_nil in H.
Qed.

Lemma tokenize_loop_prefix fuel :
  forall l acc tokens,
    Lexer.tokenize_loop fuel l acc = Some tokens ->
    exists more, tokens = acc ++ more.
Proof.
  induction fuel as [|fuel IH]; intros l acc tokens;
    cbn [Lexer.tokenize_loop]; destruct (Lexer.hasNext l); cbn [negb];
    try done; try (intros [= <-]; exists []; by rewrite app_nil_r).
  destruct (Lexer.nextToken l) as [[token l']|]; [|done].
  destruct (negb (TokenType_eqb (type token) INVALID));
    destruct (TokenType_eqb (type token) EOF_TOKEN);
    try (intros [= <-]; by eexists);
    try (intros [= <-]; exists []; by rewrite app_nil_r);
    intros Hrun; apply IH in Hrun as [more ->];
    try rewrite <- app_assoc; by eexists.
Qed.

(** The first token of a text that starts with a word. *)
Lemma tokenize_first_word w rest :
  starts_with Lexer.isAlpha w = true ->
  all_chars Lexer.isAlphaNumeric w = true ->
  starts_with Lexer.isAlphaNumeric rest = false ->
  exists pos col more,
    Lexer.tokenize (w ++ rest)
    = mkToken (default IDENTIFIER
                 (Lexer.keywords_ !! Lexer.string_map Lexer.toupper w))
        w pos 1 col :: more.
Proof.
  intros Hstart Hword Hrest.
  pose proof (nextToken_word w rest 0 1 1 Hstart Hword Hrest) as H1.
  cbv zeta in H1.
  assert (default IDENTIFIER
            (Lexer.keywords_ !! Lexer.string_map Lexer.toupper w) <> EOF_TOKEN
          /\ default IDENTIFIER
               (Lexer.keywords_ !! Lexer.string_map Lexer.toupper w) <> INVALID)
    as [Heof Hinv].
  { destruct (Lexer.keywords_ !! Lexer.string_map Lexer.toupper w) as [ty|]
      eqn:Hkey; [by apply (keywords_values _ _ Hkey)|done]. }
  destruct (LexerFacts.tokenize_opt_total (w ++ rest))
    as (tokens & Hrun & -> & _).
  unfold Lexer.tokenize_opt in Hrun.
  assert (0 < String.length (w ++ rest)) as Hfuel.
  { rewrite LexerWords.length_append. destruct w; [done|]. simpl. lia. }
  rewrite (EndToEnd.tokenize_loop_step _ _ [] _ _ H1) in Hrun.
  - apply tokenize_loop_prefix in Hrun as [more ->].
    by eexists _, _, more.
  - destruct w; done.
  - by apply TokenType_eqb_neq.
  - by apply TokenType_eqb_neq.
  - done.
Qed.

Lemma parseStatement_no_keyword token tokens :
  type token <> SELECT -> type token <> INSERT ->
  type token <> CREATE -> type token <> DROP ->
  type token <> EOF_TOKEN ->
  Parser.parseStatement (token :: tokens)
  = Throw ("Parse error at token 0: Expected statement (got '"
             ++ value token ++ "')")%string
      (Parser.new (token :: tokens)).
Proof.
  intros Hs Hi Hc Hd Heof.
  unfold Parser.parseStatement, Parser.parseStatement_fuel.
  apply TokenType_eqb_neq in Hs, Hi, Hc, Hd, Heof.
  assert (forall ty, TokenType_eqb (type token) ty = false ->
                     forall k : bool -> Parser.P Statement,
                       bind (Parser.match_ ty) k (Parser.new (token :: tokens))
                       = k false (Parser.new (token :: tokens))) as Hno.
  { intros ty Hty k. unfold bind. rewrite ParserFacts.match__eq. simpl.
    unfold accepts. by rewrite Hty, andb_false_r. }
  rewrite !Hno by done. rewrite ParserFacts.error_eq. simpl.
  by rewrite Heof.
Qed.

(** X28: texts that start with no statement keyword.  Whatever follows, a
    text that begins with a word other than SELECT, INSERT, CREATE or DROP
    (in any mix of cases), such as UPDATE or DELETE, which the lexer knows
    as keywords, is rejected: [execute] returns no row, reports "Parse
    error at token 0: Expected statement (got 'w')" with the word as
    written, and leaves the database and the earlier results as they
    were. *)
Theorem other_statements_are_rejected :
  forall w rest e,
    starts_with Lexer.isAlpha w = true ->
    all_chars Lexer.isAlphaNumeric w = true ->
    starts_with Lexer.isAlphaNumeric rest = false ->
    Lexer.string_map Lexer.toupper w <> "SELECT" ->
    Lexer.string_map Lexer.toupper w <> "INSERT" ->
    Lexer.string_map Lexer.toupper w <> "CREATE" ->
    Lexer.string_map Lexer.toupper w <> "DROP" ->
    execute (w ++ rest) e
    = Ok [] (mkEngine (database_ e) (codegen_ e)
               ("Parse error at token 0: Expected statement (got '"
                  ++ w ++ "')")%string).
Proof.
  intros w rest e Hstart Hword Hrest Hs Hi Hc Hd.
  rewrite execute_tokenized.
  destruct (tokenize_first_word w rest Hstart Hword Hrest)
    as (pos & col & more & ->).
  set (ty := default IDENTIFIER
               (Lexer.keywords_ !! Lexer.string_map Lexer.toupper w)).
  assert (ty <> SELECT /\ ty <> INSERT /\ ty <> CREATE /\ ty <> DROP /\
          ty <> EOF_TOKEN) as (Hs' & Hi' & Hc' & Hd' & Heof).
  { unfold ty.
    destruct (Lexer.keywords_ !! Lexer.string_map Lexer.toupper w) as [t|]
      eqn:Hkey; [|done].
    pose proof (keywords_values _ _ Hkey) as [Heof _].
    unfold Lexer.keywords_ in Hkey. apply elem_of_list_to_map_2 in Hkey.
    repeat (apply elem_of_cons in Hkey as [[= Hu ->]|Hkey];
            [repeat split; (done || congruence)|]).
    by apply elem_of_nil in Hkey. }
  unfold execute_on, catching, execute_tokens.
  rewrite (parseStatement_no_keyword (mkToken ty w pos 1 col) more
             Hs' Hi' Hc' Hd' Heof).
  done.
Qed.

Lemma other_statements_are_rejected_witness :
  execute ("Update" ++ " t SET c = 1;") QueryEngine_new
  = Ok [] (mkEngine ∅ []
             "Parse error at token 0: Expected statement (got 'Update')").
Proof.
  apply (other_statements_are_rejected "Update" " t SET c = 1;"
           QueryEngine_new); (reflexivity || discriminate).
Defined.
